(** * multi_file_extractor: a shallow embedding of the two extraction scripts

    The development models [multi_part_extractor.py] (classifier, segment
    filter, single-archive extractor, recursive resolver, payload relocator,
    batch orchestrator) and [mass_extractor.py] (the older zip/rar batch
    extractor) as functions over an explicit file-system state, settles
    the claims C1 to C10 of the specification on them, and proves further
    properties of the code, X1 to X23.

    Modelling conventions.
    - A file name is a list of 8-bit characters.  [str.lower] acts on the
      letters A-Z only and [\d] is one of 0-9, which is how Python treats
      the characters of that range.
    - A path is the list of its components from the root; a file system is
      a finite map from paths to nodes (regular file with its content, or
      directory).  Symbolic links and permissions on directories are not
      modelled.
    - The order in which the operating system lists directory entries is
      not specified; it is a parameter of the model ([scandir_order]), and
      every theorem holds for every order.
    - The external tools (unzip, unrar, 7z) and the zipfile/rarfile
      libraries are parameters: they receive the archive path, the target
      directory and the file system, and answer with the files they write
      below the target directory and an exit status (or an exception).
    - Whether a file may be deleted is a parameter too ([may_unlink]).
    - The exceptions modelled are the ones the scripts handle or provoke
      themselves: a non-zero exit status ([CalledProcessError]), a failed
      [unlink], an exception of the archive library, the refusal of
      [shutil.move] to overwrite, and the comparison of a number with
      [None].  The tools are assumed to be installed and directories to be
      creatable.
    - A loop that may run forever takes a bound on its number of rounds
      and yields nothing when the bound is hit. *)

From Stdlib Require Import ZArith Ascii String List Bool Lia.
From stdpp Require Import base tactics option list gmap strings sorting.

Local Open Scope Z_scope.

(** ** Text: the string operations the scripts use *)

Module Text.

Definition text := list ascii.

Definition is_upper (c : ascii) : bool :=
  (65 <=? nat_of_ascii c)%nat && (nat_of_ascii c <=? 90)%nat.

Definition lower_char (c : ascii) : ascii :=
  if is_upper c then ascii_of_nat (nat_of_ascii c + 32) else c.

(** [str.lower()] *)
Definition lower (s : text) : text := map lower_char s.

Definition is_digit (c : ascii) : bool :=
  (48 <=? nat_of_ascii c)%nat && (nat_of_ascii c <=? 57)%nat.

Fixpoint startswith (s pre : text) {struct pre} : bool :=
  match pre, s with
  | [], _ => true
  | _ :: _, [] => false
  | c :: pre', x :: s' => Ascii.eqb x c && startswith s' pre'
  end.

(** [str.endswith(suf)] *)
Definition endswith (s suf : text) : bool := startswith (rev s) (rev suf).

(** [str.rfind(c)], scanning from index [i]: the highest index of [c],
    or -1 when [c] does not occur. *)
Fixpoint rfind_from (c : ascii) (s : text) (i : Z) : Z :=
  match s with
  | [] => -1
  | x :: s' =>
      let r := rfind_from c s' (i + 1) in
      if 0 <=? r then r else if Ascii.eqb x c then i else -1
  end.

Definition rfind (s : text) (c : ascii) : Z := rfind_from c s 0.

Definition len (s : text) : Z := Z.of_nat (length s).

Definition dot : ascii := "."%char.
Definition newline : ascii := "010"%char.

Definition of_string (s : string) : text := list_ascii_of_string s.
Definition to_string (s : text) : string := string_of_list_ascii s.

End Text.

(** ** Regular expressions: the fragment of [re] the scripts use *)

Module Re.
Import Text.

Inductive regex : Type :=
| Eps
| Lit (c : ascii)               (* a literal character, escaped or not *)
| Digit                         (* \d *)
| Cat (r1 r2 : regex)
| Alt (r1 r2 : regex)           (* r1|r2 *)
| Plus (r : regex)              (* r+ *)
| Repeat (n : nat) (r : regex)  (* r{n} *)
| Dollar.                       (* $ *)

Definition char_matches (ignorecase : bool) (c x : ascii) : bool :=
  if ignorecase then Ascii.eqb (lower_char x) (lower_char c) else Ascii.eqb x c.

(** [$] without re.MULTILINE: at the end of the string, or just before a
    newline that ends the string. *)
Definition at_dollar (s : text) : bool :=
  match s with
  | [] => true
  | [c] => Ascii.eqb c newline
  | _ => false
  end.

Fixpoint plus_iter (n : nat) (f : text -> list text) (s : text) : list text :=
  let once := f s in
  match n with
  | O => once
  | S n' => once ++ flat_map (plus_iter n' f) once
  end.

(** [residuals ic r s]: what is left of [s] after each way of matching
    [r] at the start of [s]. *)
Fixpoint residuals (ic : bool) (r : regex) (s : text) : list text :=
  match r with
  | Eps => [s]
  | Lit c =>
      match s with
      | x :: s' => if char_matches ic c x then [s'] else []
      | [] => []
      end
  | Digit =>
      match s with
      | x :: s' => if is_digit x then [s'] else []
      | [] => []
      end
  | Cat r1 r2 => flat_map (residuals ic r2) (residuals ic r1 s)
  | Alt r1 r2 => residuals ic r1 s ++ residuals ic r2 s
  | Plus r1 => plus_iter (length s) (residuals ic r1) s
  | Repeat n r1 => Nat.iter n (flat_map (residuals ic r1)) [s]
  | Dollar => if at_dollar s then [s] else []
  end.

Definition matches_at (ic : bool) (r : regex) (s : text) : bool :=
  match residuals ic r s with
  | [] => false
  | _ :: _ => true
  end.

(** [re.search]: a match starting at some position of [s]. *)
Fixpoint search (ic : bool) (r : regex) (s : text) : bool :=
  matches_at ic r s ||
  match s with
  | [] => false
  | _ :: s' => search ic r s'
  end.

Definition cat_all (rs : list regex) : regex := foldr Cat Eps rs.
Definition alt_all (r : regex) (rs : list regex) : regex := foldl Alt r rs.

End Re.

(** ** Paths *)

Module Paths.
Import Text.

(** A [pathlib.Path]: its components from the root. *)
Definition path := list string.

(** [Path.name] *)
Definition name (p : path) : string := List.last p EmptyString.

(** [Path.parent] *)
Definition parent (p : path) : path := List.removelast p.

(** [p / child] *)
Definition child (p : path) (c : string) : path := p ++ [c].

(** [Path.stem] and [Path.suffix]: split the name at its last dot,
    unless that dot is the first or the last character. *)
Definition stem_text (name : text) : text :=
  let i := rfind name dot in
  if (0 <? i) && (i <? len name - 1) then take (Z.to_nat i) name else name.

Definition suffix_text (name : text) : text :=
  let i := rfind name dot in
  if (0 <? i) && (i <? len name - 1) then drop (Z.to_nat i) name else [].

Definition stem (p : path) : string := to_string (stem_text (of_string (name p))).
Definition suffix (p : path) : string := to_string (suffix_text (of_string (name p))).

(** [p] lies strictly below the directory [top]. *)
Definition below (top p : path) : Prop := ∃ rest, rest ≠ [] ∧ p = top ++ rest.

Definition belowb (top p : path) : bool :=
  bool_decide (top `prefix_of` p) && negb (bool_decide (p = top)).

(** The non-empty prefixes of [p], shortest first: the directories
    [mkdir(parents=True)] visits. *)
Fixpoint ancestors_and_self (p : path) : list path :=
  match p with
  | [] => []
  | c :: r => [c] :: map (cons c) (ancestors_and_self r)
  end.

End Paths.

(** ** The archive classifier and the segment filter *)

Module Classifier.
Import Text Re Paths.

Local Open Scope char_scope.

(** [r'\.7z\.001$'] *)
Definition re_7z_001 : regex :=
  cat_all [Lit "."; Lit "7"; Lit "z"; Lit "."; Lit "0"; Lit "0"; Lit "1"; Dollar].

(** [is_core_archive(file_path)] *)
Definition is_core_archive (file_path : path) : bool :=
  let filename := lower (of_string (name file_path)) in
  if endswith filename (of_string ".rar") || endswith filename (of_string ".zip")
     || endswith filename (of_string ".7z")
  then true
  else if search false re_7z_001 filename then true
  else false.

(** [skip_patterns] of [move_non_archives] *)
Definition skip_patterns : list regex :=
  [ cat_all [Lit "."; Lit "r"; Plus Digit; Dollar];            (* \.r\d+$ *)
    cat_all [Lit "."; Repeat 3 Digit; Dollar];                 (* \.\d{3}$ *)
    cat_all [Lit "."; Lit "z"; Repeat 2 Digit; Dollar];        (* \.z\d{2}$ *)
    cat_all [Lit "."; Lit "7"; Lit "z"; Lit "."; Repeat 3 Digit; Dollar] ].
                                                               (* \.7z\.\d{3}$ *)

(** [re.compile('|'.join(skip_patterns), re.IGNORECASE)] *)
Definition skip_regex : regex :=
  match skip_patterns with
  | [] => Eps
  | r :: rs => alt_all r rs
  end.

(** [skip_regex.search(file.lower())] *)
Definition is_split_segment (file : string) : bool :=
  search true skip_regex (lower (of_string file)).

End Classifier.

(** ** The wording of the specification, for comparison with the code *)

Module Described.
Import Text Paths.

(** "case-insensitively, the filename ends with [suf]" *)
Definition ends_with_ci (s suf : text) : Prop :=
  ∃ pre tail, s = pre ++ tail ∧ lower tail = suf.

(** "ends with .rar, .zip, or .7z (and nothing else follows) or ends with
    .7z.001" *)
Definition described_core (nm : text) : Prop :=
  ends_with_ci nm (of_string ".rar") ∨ ends_with_ci nm (of_string ".zip") ∨
  ends_with_ci nm (of_string ".7z") ∨ ends_with_ci nm (of_string ".7z.001").

Definition all_digits (ds : text) : Prop := Forall (λ c, is_digit c = true) ds.

(** "trailing .r\d+, .\d{3}, .z\d{2}, .7z.\d{3}, case-insensitive" *)
Definition described_segment (nm : text) : Prop :=
  ∃ pre ds, all_digits ds ∧
    ((∃ r, nm = pre ++ dot :: r :: ds ∧ lower_char r = "r"%char ∧ ds ≠ []) ∨
     (nm = pre ++ dot :: ds ∧ length ds = 3%nat) ∨
     (∃ z, nm = pre ++ dot :: z :: ds ∧ lower_char z = "z"%char ∧ length ds = 2%nat) ∨
     (∃ z, nm = pre ++ dot :: "7"%char :: z :: dot :: ds ∧
           lower_char z = "z"%char ∧ length ds = 3%nat)).

(** "the archive filename with its recognized archive suffix stripped",
    where the suffix stripped from a [.7z.001] name is [.001], as in
    "movie.7z.001 produces movie.7z". *)
Definition strip_recognized_suffix (nm : text) : text :=
  let l := lower nm in
  if endswith l (of_string ".rar") || endswith l (of_string ".zip")
  then take (length nm - 4) nm
  else if endswith l (of_string ".7z") then take (length nm - 3) nm
  else if endswith l (of_string ".7z.001") then take (length nm - 4) nm
  else nm.

End Described.

(** ** The file system *)

Module FS.
Import Paths.

Inductive node : Type :=
| File (data : string)
| Dir.

#[global] Instance node_eq_dec : EqDecision node.
Proof. solve_decision. Defined.

Abbreviation filesystem := (gmap path node).

(** [Path.exists()], [Path.is_file()], [Path.is_dir()] *)
Definition exists_ (fs : filesystem) (p : path) : bool :=
  match fs !! p with Some _ => true | None => false end.

Definition is_file (fs : filesystem) (p : path) : bool :=
  match fs !! p with Some (File _) => true | _ => false end.

Definition is_dir (fs : filesystem) (p : path) : bool :=
  match fs !! p with Some Dir => true | _ => false end.

Definition mkdir_one (fs : filesystem) (q : path) : filesystem :=
  match fs !! q with
  | None => <[q := Dir]> fs
  | Some _ => fs
  end.

(** [Path.mkdir(parents=True, exist_ok=True)] *)
Definition mkdir_p (fs : filesystem) (p : path) : filesystem :=
  foldl mkdir_one fs (ancestors_and_self p).

(** [shutil.rmtree(p)]: [p] and everything below it disappears. *)
Definition rmtree (fs : filesystem) (p : path) : filesystem :=
  filter (λ kv : path * node, ¬ p `prefix_of` kv.1) fs.

(** A tool writes one file, creating the directories above it. *)
Definition write_file (fs : filesystem) (p : path) (data : string) : filesystem :=
  <[p := File data]> (mkdir_p fs (parent p)).

(** A tool writes [files], given relative to [target]. *)
Definition write_all (target : path) (files : list (path * string))
    (fs : filesystem) : filesystem :=
  foldl (λ m f, write_file m (target ++ f.1) f.2) fs files.

(** The operating system's listing order: some rearrangement of the
    entries. *)
Record listing_order : Type := {
  order :> list path -> list path;
  order_perm : ∀ l, order l ≡ₚ l
}.

Definition regular_files (fs : filesystem) : list path :=
  (map_to_list (filter (λ kv : path * node, is_file fs kv.1 = true) fs)).*1.

(** The files [os.walk(top)] reaches, as full paths [Path(root) / f].
    The listing is taken when the walk starts; the lazy walk of Python
    sees the same files as long as the loop body creates nothing below
    [top]. *)
Definition os_walk_files (ord : listing_order) (fs : filesystem) (top : path)
    : list path :=
  ord (List.filter (belowb top) (regular_files fs)).

(** [Path.iterdir()]: the entries directly inside [dir]. *)
Definition iterdir (ord : listing_order) (fs : filesystem) (dir : path)
    : list path :=
  ord (List.filter (λ p, bool_decide (parent p = dir ∧ p ≠ []))
         (map_to_list fs).*1).

(** What a run that works in the scratch directory [tmp] and delivers below
    [output] leaves alone: an entry outside [tmp] stays, and outside both
    directories no regular file appears or disappears. *)
Definition frame (tmp output : path) : relation filesystem :=
  λ m m',
    (∀ q, ¬ tmp `prefix_of` q → is_Some (m !! q) → is_Some (m' !! q)) ∧
    (∀ q, ¬ tmp `prefix_of` q → ¬ output `prefix_of` q → is_file m' q = is_file m q).

End FS.

(** ** The world the scripts run in, and the monad of their effects *)

Module World.
Import Paths FS.

Inductive command : Type :=
| Unzip (archive target : path)      (* unzip -o archive -d target *)
| Unrar (archive target : path)      (* unrar x -o+ archive target *)
| SevenZip (archive target : path).  (* 7z x -y -otarget archive *)

Definition command_target (cmd : command) : path :=
  match cmd with
  | Unzip _ t | Unrar _ t | SevenZip _ t => t
  end.

(** What a run of an external tool does: the files it writes, relative
    to its target directory, and its exit status. *)
Record tool_result : Type := {
  written : list (path * string);
  returncode : Z
}.

Inductive library : Type := Zipfile | Rarfile.

(** What [extractall] of zipfile/rarfile does: the files it writes,
    relative to the target, and the exception it raises, if any. *)
Record library_result : Type := {
  extracted : list (path * string);
  failure : option string
}.

Record environment : Type := {
  scandir_order : listing_order;
  run_tool : command -> filesystem -> tool_result;
  may_unlink : path -> bool;
  extractall : library -> path -> path -> filesystem -> library_result
}.

Inductive exn : Type :=
| CalledProcessError (returncode : Z)
| ShutilError (real_dst : path)        (* Destination path already exists *)
| FileNotFoundError (p : path)
| PermissionError (p : path)
| TypeError
| ArchiveError (msg : string).

(** The status lines the scripts print. *)
Inductive line : Type :=
| InfoExtracting (archive : path)
| ErrorExtractionFailed (archive : path) (e : exn)
| InfoSkippingCore (file : path)
| InfoMoving (file target : path)
| WarningCouldNotDelete (archive : path) (e : exn)
| InfoReachedLimit (max_files : Z)
| InfoSkippingProcessed (archive_name : string)
| InfoProcessing (archive_name : string)
| InfoDone (processed_count : Z)
| MassError (archive_name : string) (e : exn)
| MassSkipping (archive_name : string)
| MassExtracting (processed_count : Z) (num_files : option Z)
    (archive_name : string) (extract_path : path).

Record state : Type := {
  fs : filesystem;
  stdout : list line
}.

Inductive outcome (A : Type) : Type :=
| Val (a : A)
| Exn (e : exn).
Arguments Val {A} a.
Arguments Exn {A} e.

(** A computation: from a state to an outcome and a new state, or to
    nothing when it does not come back (a loop out of fuel). *)
Definition M (A : Type) : Type := state -> option (outcome A * state).

Definition ret {A} (a : A) : M A := λ st, Some (Val a, st).
Definition raise {A} (e : exn) : M A := λ st, Some (Exn e, st).
Definition diverge {A} : M A := λ _, None.

Definition bind {A B} (m : M A) (k : A -> M B) : M B :=
  λ st,
    match m st with
    | Some (Val a, st') => k a st'
    | Some (Exn e, st') => Some (Exn e, st')
    | None => None
    end.

(** [try: m  except <the classes h answers to> as e: h e] *)
Definition try_except {A} (m : M A) (h : exn -> option (M A)) : M A :=
  λ st,
    match m st with
    | Some (Exn e, st') =>
        match h e with
        | Some handler => handler st'
        | None => Some (Exn e, st')
        end
    | r => r
    end.

Definition get_fs : M filesystem := λ st, Some (Val (fs st), st).
Definition update_fs (f : filesystem -> filesystem) : M unit :=
  λ st, Some (Val tt, {| fs := f (fs st); stdout := stdout st |}).
Definition print (l : line) : M unit :=
  λ st, Some (Val tt, {| fs := fs st; stdout := stdout st ++ [l] |}).

Declare Scope monad_scope.
Delimit Scope monad_scope with monad.
Notation "x <- m ;; k" := (bind m (λ x, k))
  (at level 100, m at next level, right associativity) : monad_scope.
Notation "m ;; k" := (bind m (λ _, k))
  (at level 100, right associativity) : monad_scope.

Local Open Scope monad_scope.

(** [for x in l: body x] *)
Fixpoint for_each {X} (l : list X) (body : X -> M unit) : M unit :=
  match l with
  | [] => ret tt
  | x :: l' => body x ;; for_each l' body
  end.

(** [m] comes back from every state. *)
Definition total {A} (m : M A) : Prop := ∀ st, ∃ o st', m st = Some (o, st').

(** Every run of [m] relates the state before to the state after. *)
Definition always {A} (R : relation state) (m : M A) : Prop :=
  ∀ st o st', m st = Some (o, st') → R st st'.

(** Relations that only look at the file system. *)
Definition on_fs (Rfs : relation filesystem) : relation state :=
  λ st st', Rfs (fs st) (fs st').

Section Primitives.
Variable E : environment.

(** [subprocess.run(cmd, check=True)] *)
Definition subprocess_run_check (cmd : command) : M unit :=
  files <- get_fs ;;
  let r := run_tool E cmd files in
  update_fs (write_all (command_target cmd) (written r)) ;;
  if returncode r =? 0 then ret tt else raise (CalledProcessError (returncode r)).

(** [Path.unlink()]: fails on a path that is not a regular file, or that
    may not be deleted. *)
Definition unlink (p : path) : M unit :=
  files <- get_fs ;;
  if negb (is_file files p) then raise (FileNotFoundError p)
  else if negb (may_unlink E p) then raise (PermissionError p)
  else update_fs (delete p).

(** [shutil.move(src, dst)] for a regular file [src]: when [dst] is a
    directory the file goes to [dst / name(src)], and the call raises
    [shutil.Error] if that path exists; otherwise the file is renamed to
    [dst], replacing a file there ([os.rename]). *)
Definition shutil_move (src dst : path) : M unit :=
  files <- get_fs ;;
  let real_dst := if is_dir files dst then child dst (name src) else dst in
  if is_dir files dst && exists_ files real_dst then raise (ShutilError real_dst)
  else
    match files !! src with
    | Some (File data) => update_fs (λ m, <[real_dst := File data]> (delete src m))
    | _ => raise (FileNotFoundError src)
    end.

Definition mkdir_parents (p : path) : M unit := update_fs (λ m, mkdir_p m p).

Definition walk (top : path) : M (list path) :=
  files <- get_fs ;; ret (os_walk_files (scandir_order E) files top).

Definition path_exists (p : path) : M bool :=
  files <- get_fs ;; ret (exists_ files p).
End Primitives.

End World.

(** ** multi_part_extractor.py *)

Module MultiPart.
Import Text Paths Classifier FS World.
Local Open Scope monad_scope.

(** The values the functions of interest return. *)
Inductive pyval : Type :=
| PyNone
| PyBool (b : bool).

(** [parse_args()]: the four command-line arguments. *)
Record args : Type := {
  folder : path;
  output : path;
  tmp_dir : path;
  num_files : Z
}.

(** The command line [extract_archive] builds: unzip for .zip, unrar for
    .rar, 7z for everything else. *)
Definition choose_command (archive_path tmp_dir : path) : command :=
  let filename := lower (of_string (name archive_path)) in
  if endswith filename (of_string ".zip") then Unzip archive_path tmp_dir
  else if endswith filename (of_string ".rar") then Unrar archive_path tmp_dir
  else SevenZip archive_path tmp_dir.

Section Script.
Variable E : environment.

(** [extract_archive(archive_path, tmp_dir)]: there is no [return]
    statement, the call evaluates to [None]. *)
Definition extract_archive (archive_path tmp_dir : path) : M pyval :=
  mkdir_parents tmp_dir ;;
  let cmd := choose_command archive_path tmp_dir in
  print (InfoExtracting archive_path) ;;
  try_except (subprocess_run_check E cmd)
    (λ e, match e with
          | CalledProcessError _ =>
              Some (print (ErrorExtractionFailed archive_path e))
          | _ => None
          end) ;;
  ret PyNone.

(** The files [move_non_archives] moves: neither split segment nor core
    archive. *)
Definition relocatable (file_path : path) : bool :=
  negb (is_split_segment (name file_path)) && negb (is_core_archive file_path).

(** What holds of the file system all along the loop of the relocator,
    when [dest] is a directory: [dest] stays one, a file that is not
    relocatable keeps its place and content, and every file is either where
    it was or is a relocated file under [dest]. *)
Definition relocation_invariant (files0 : filesystem) (listed : list path)
    (dest : path) (st : state) : Prop :=
  is_dir (fs st) dest = true ∧
  (∀ p data, files0 !! p = Some (File data) → relocatable p = false →
     fs st !! p = Some (File data)) ∧
  (∀ q data, fs st !! q = Some (File data) →
     files0 !! q = Some (File data) ∨
     ∃ p, p ∈ listed ∧ relocatable p = true ∧ files0 !! p = Some (File data) ∧
          q = child dest (name p)).

(** The body of the loop of [move_non_archives] for one file. *)
Definition move_one (dest_dir file_path : path) : M unit :=
  let file := name file_path in
  let target_path := dest_dir in
  if is_split_segment file then ret tt
  else if is_core_archive file_path then print (InfoSkippingCore file_path)
  else
    print (InfoMoving file_path target_path) ;;
    mkdir_parents (parent target_path) ;;
    shutil_move file_path target_path.

(** [move_non_archives(src_dir, dest_dir)] *)
Definition move_non_archives (src_dir dest_dir : path) : M unit :=
  files <- walk E src_dir ;;
  for_each files (move_one dest_dir).

(** The files the scan at the head of each round of [recursively_extract]
    collects: every file below [tmp_dir] the classifier accepts. *)
Definition core_archives_below (files : filesystem) (tmp_dir : path) : list path :=
  List.filter is_core_archive (os_walk_files (scandir_order E) files tmp_dir).

Definition scan (tmp_dir : path) : M (list path) :=
  files <- get_fs ;;
  ret (core_archives_below files tmp_dir).

(** One candidate: extract into the destination, then delete. *)
Definition resolve_one (dest_folder archive : path) : M unit :=
  extract_archive archive dest_folder ;;
  try_except (unlink E archive)
    (λ e, Some (print (WarningCouldNotDelete archive e))).

(** [for archive in archives: ...; something_extracted = True] *)
Fixpoint resolve_all (dest_folder : path) (archives : list path)
    (something_extracted : bool) : M bool :=
  match archives with
  | [] => ret something_extracted
  | archive :: rest =>
      resolve_one dest_folder archive ;;
      resolve_all dest_folder rest true
  end.

(** The [while something_extracted] loop; [fuel] bounds the number of
    rounds. *)
Fixpoint resolver_loop (fuel : nat) (tmp_dir dest_folder : path)
    (something_extracted : bool) : M unit :=
  if something_extracted then
    match fuel with
    | O => diverge
    | S fuel' =>
        archives <- scan tmp_dir ;;
        match archives with
        | [] => ret tt
        | _ :: _ =>
            again <- resolve_all dest_folder archives false ;;
            resolver_loop fuel' tmp_dir dest_folder again
        end
    end
  else ret tt.

(** [recursively_extract(tmp_dir, dest_folder)] *)
Definition recursively_extract (fuel : nat) (tmp_dir dest_folder : path) : M unit :=
  resolver_loop fuel tmp_dir dest_folder true.

(** Steps 1 to 5 of [main] for one top-level archive. *)
Definition process_archive (fuel : nat) (a : args) (archive_path dest_folder : path)
    : M unit :=
  print (InfoProcessing (name archive_path)) ;;
  there <- path_exists (tmp_dir a) ;;
  (if there then update_fs (λ m, rmtree m (tmp_dir a)) else ret tt) ;;
  mkdir_parents (tmp_dir a) ;;
  mkdir_parents dest_folder ;;
  extract_archive archive_path (tmp_dir a) ;;
  recursively_extract fuel (tmp_dir a) dest_folder ;;
  move_non_archives (tmp_dir a) dest_folder ;;
  update_fs (λ m, rmtree m (tmp_dir a)).

(** [for archive_path in all_core_archives: ...] with its [break] and
    [continue]; the result is the final [processed_count]. *)
Fixpoint main_loop (fuel : nat) (a : args) (all_core_archives : list path)
    (processed_count : Z) : M Z :=
  match all_core_archives with
  | [] => ret processed_count
  | archive_path :: rest =>
      if negb (num_files a =? 0) && (num_files a <=? processed_count) then
        print (InfoReachedLimit (num_files a)) ;;
        ret processed_count
      else
        let core_name := stem archive_path in
        let dest_folder := child (output a) core_name in
        done_before <- path_exists dest_folder ;;
        if done_before then
          print (InfoSkippingProcessed (name archive_path)) ;;
          main_loop fuel a rest processed_count
        else
          process_archive fuel a archive_path dest_folder ;;
          main_loop fuel a rest (processed_count + 1)
  end.

(** The top-level archives: the regular files directly inside the
    input folder that the classifier accepts. *)
Definition top_level_archives (files : filesystem) (input_folder : path)
    : list path :=
  List.filter (λ p, is_file files p && is_core_archive p)
    (iterdir (scandir_order E) files input_folder).

(** [main()] *)
Definition main (fuel : nat) (a : args) : M unit :=
  mkdir_parents (output a) ;;
  files <- get_fs ;;
  let all_core_archives := top_level_archives files (folder a) in
  processed_count <- main_loop fuel a all_core_archives 0 ;;
  print (InfoDone processed_count).
End Script.

End MultiPart.

(** ** mass_extractor.py *)

Module Mass.
Import Text Paths FS World.
Local Open Scope monad_scope.

(** Lexicographic order on paths, component by component, as
    [list.sort()] orders [Path] objects. *)
Fixpoint path_leb (p q : path) : bool :=
  match p, q with
  | [], _ => true
  | _ :: _, [] => false
  | x :: p', y :: q' =>
      if String.eqb x y then path_leb p' q' else String.leb x y
  end.

Fixpoint insert_sorted (p : path) (l : list path) : list path :=
  match l with
  | [] => [p]
  | q :: l' => if path_leb p q then p :: l else q :: insert_sorted p l'
  end.

Definition sort (l : list path) : list path := foldr insert_sorted [] l.

Section Script.
Variable E : environment.

(** [with zipfile.ZipFile(archive_path) as archive:
       archive.extractall(extract_path)], and the same with rarfile *)
Definition library_extractall (lib : library) (archive_path extract_path : path)
    : M unit :=
  files <- get_fs ;;
  let r := extractall E lib archive_path extract_path files in
  update_fs (write_all extract_path (extracted r)) ;;
  match failure r with
  | Some msg => raise (ArchiveError msg)
  | None => ret tt
  end.

(** The library [extract_archive] opens the archive with, by extension. *)
Definition library_for (archive_path : path) : option library :=
  let ext := lower (of_string (suffix archive_path)) in
  if bool_decide (ext = of_string ".zip") then Some Zipfile
  else if bool_decide (ext = of_string ".rar") then Some Rarfile
  else None.

(** [extract_archive(archive_path, extract_path)] *)
Definition extract_archive (archive_path extract_path : path) : M bool :=
  try_except
    (let ext := lower (of_string (suffix archive_path)) in
     (if bool_decide (ext = of_string ".zip")
      then library_extractall Zipfile archive_path extract_path
      else if bool_decide (ext = of_string ".rar")
      then library_extractall Rarfile archive_path extract_path
      else ret tt) ;;
     ret true)
    (λ e, Some (print (MassError (name archive_path) e) ;; ret false)).

(** [processed_count >= num_files]: comparing an [int] with [None]
    raises [TypeError]. *)
Definition int_ge (processed_count : Z) (num_files : option Z) : M bool :=
  match num_files with
  | Some n => ret (n <=? processed_count)
  | None => raise TypeError
  end.

(** The loop of [extract_archives]. *)
Fixpoint extract_loop (target_path : path) (num_files : option Z)
    (archive_files : list path) (processed_count skipped_count : Z) : M (Z * Z) :=
  match archive_files with
  | [] => ret (processed_count, skipped_count)
  | archive_file :: rest =>
      let subfolder_name := stem archive_file in
      let extract_path := child target_path subfolder_name in
      there <- path_exists extract_path ;;
      if there then
        print (MassSkipping (name archive_file)) ;;
        extract_loop target_path num_files rest processed_count (skipped_count + 1)
      else
        print (MassExtracting processed_count num_files (name archive_file)
                 extract_path) ;;
        ok <- extract_archive archive_file extract_path ;;
        let processed_count := if ok then processed_count + 1 else processed_count in
        stop <- int_ge processed_count num_files ;;
        if stop then ret (processed_count, skipped_count)
        else extract_loop target_path num_files rest processed_count skipped_count
  end.

(** [source_path.glob('*' + ext)]: the entries of the folder whose name
    ends with [ext]. *)
Definition glob_ext (files : filesystem) (source_path : path) (ext : string)
    : list path :=
  List.filter (λ p, endswith (of_string (name p)) (of_string ext))
    (iterdir (scandir_order E) files source_path).

(** [extract_archives(folder_path, target_folder, num_files)] *)
Definition extract_archives (folder_path target_folder : path)
    (num_files : option Z) : M (Z * Z) :=
  mkdir_parents target_folder ;;
  files <- get_fs ;;
  let archive_files :=
    sort (glob_ext files folder_path ".zip" ++ glob_ext files folder_path ".rar") in
  extract_loop target_folder num_files archive_files 0 0.
End Script.

End Mass.

(** ** A concrete world, for running the scripts on examples *)

Module Demo.
Import Paths FS World.
Local Open Scope string_scope.

(** Directory entries are listed in the order of the map. *)
Definition keep_order : listing_order :=
  {| order := λ l, l; order_perm := λ l, Permutation_refl l |}.

Definition command_archive (cmd : command) : path :=
  match cmd with
  | Unzip a _ | Unrar a _ | SevenZip a _ => a
  end.

(** The content of an archive decides what its extraction writes; a file
    that is in no row of the table is not an archive, and the tool exits
    with status 2. *)
Definition table_tool (table : list (string * list (path * string)))
    (cmd : command) (files : filesystem) : tool_result :=
  match files !! command_archive cmd with
  | Some (File data) =>
      match List.find (λ row, String.eqb row.1 data) table with
      | Some row => {| written := row.2; returncode := 0 |}
      | None => {| written := []; returncode := 2 |}
      end
  | _ => {| written := []; returncode := 2 |}
  end.

Definition table_library (table : list (string * list (path * string)))
    (lib : library) (archive_path extract_path : path) (files : filesystem)
    : library_result :=
  match files !! archive_path with
  | Some (File data) =>
      match List.find (λ row, String.eqb row.1 data) table with
      | Some row => {| extracted := row.2; failure := None |}
      | None => {| extracted := []; failure := Some "not an archive" |}
      end
  | _ => {| extracted := []; failure := Some "no such file" |}
  end.

Definition demo_env (table : list (string * list (path * string)))
    (read_only : list path) : environment :=
  {| scandir_order := keep_order;
     run_tool := table_tool table;
     may_unlink := λ p, negb (bool_decide (p ∈ read_only));
     extractall := table_library table |}.

Definition start (files : filesystem) : state := {| fs := files; stdout := [] |}.

(** [a.zip] holds [b.rar], which holds [c.txt]. *)
Definition nested_table : list (string * list (path * string)) :=
  [ ("zip of b.rar", [ (["b.rar"], "rar of c.txt") ]);
    ("rar of c.txt", [ (["c.txt"], "payload") ]) ].

Definition nested_workspace : filesystem :=
  list_to_map [ (["ws"], Dir); (["ws"; "a.zip"], File "zip of b.rar");
                (["out"], Dir) ].
Definition nested_env : environment := demo_env nested_table [].

(** A world in which nothing is an archive: every extraction fails. *)
Definition failing_env : environment := demo_env [] [].

(** The name [x.7z.001] followed by a newline character. *)
Definition newline_name : string :=
  String.append "x.7z.001" (String Text.newline EmptyString).

(** A source folder that holds a file named [.zip] and the first part of
    [movie.7z]. *)
Definition dotfile_source : filesystem :=
  list_to_map [ (["src"], Dir); (["src"; ".zip"], File "zip of b.rar");
                (["src"; "movie.7z.001"], File "zip of b.rar") ].

(** Two payload files with the same name in two subdirectories of the
    workspace; [keep_order] lists the one in [b] before the one in [a]. *)
Definition collision_workspace : filesystem :=
  list_to_map [ (["ws"], Dir); (["ws"; "a"], Dir); (["ws"; "b"], Dir);
                (["ws"; "a"; "x.txt"], File "listed second");
                (["ws"; "b"; "x.txt"], File "listed first");
                (["out"], Dir) ].

(** A workspace after resolution: a payload file, a stray segment and a
    core archive that could not be deleted. *)
Definition leftover_workspace : filesystem :=
  list_to_map [ (["ws"], Dir); (["ws"; "d"], Dir);
                (["ws"; "d"; "readme.txt"], File "hello");
                (["ws"; "part.r01"], File "segment");
                (["ws"; "inner.zip"], File "zip of b.rar");
                (["out"], Dir) ].

Definition demo_args (n : Z) : MultiPart.args :=
  {| MultiPart.folder := ["src"]; MultiPart.output := ["out"];
     MultiPart.tmp_dir := ["tmp"; "unpack_folder"]; MultiPart.num_files := n |}.

(** The state [recursively_extract] leaves on [nested_workspace]: [b.rar]
    sits in the destination, which the resolver does not scan. *)
Definition nested_final : state :=
  {| fs := list_to_map [ (["ws"], Dir); (["out"], Dir);
                         (["out"; "b.rar"], File "rar of c.txt") ];
     stdout := [InfoExtracting ["ws"; "a.zip"]] |}.
(** A source folder with one archive and a stray segment. *)
Definition batch_source : filesystem :=
  list_to_map [ (["src"], Dir); (["src"; "one.zip"], File "zip of b.rar");
                (["src"; "one.r01"], File "segment") ].

(** The state one uncapped run of [main] leaves from [batch_source]. *)
Definition batch_after_first_run : state :=
  {| fs := list_to_map [ (["src"], Dir); (["src"; "one.zip"], File "zip of b.rar");
                         (["src"; "one.r01"], File "segment");
                         (["out"], Dir); (["out"; "one"], Dir);
                         (["out"; "one"; "c.txt"], File "payload");
                         (["tmp"], Dir) ];
     stdout := [ InfoProcessing "one.zip"; InfoExtracting ["src"; "one.zip"];
                 InfoExtracting ["tmp"; "unpack_folder"; "b.rar"]; InfoDone 1 ] |}.
(** A source folder with two zip archives. *)
Definition two_zips : filesystem :=
  list_to_map [ (["src"], Dir); (["src"; "a.zip"], File "zip of b.rar");
                (["src"; "b.zip"], File "zip of b.rar") ].
End Demo.

(** ** What a run leaves alone *)

Module Footprint.
Import Paths FS.

(** Outside the scratch directory and the output root every regular file
    keeps its content and no regular file appears. *)
Definition untouched (tmp output : path) : relation filesystem :=
  λ m m', ∀ q data, ¬ tmp `prefix_of` q → ¬ output `prefix_of` q →
    m' !! q = Some (File data) ↔ m !! q = Some (File data).

(** A relation on file systems that every step of a run respects when the
    run works in [tmp] and delivers below [output]: making directories,
    writing below either directory, deleting below [tmp], removing [tmp]
    and renaming from [tmp] to either directory. *)
Class Respected (tmp output : path) (R : relation filesystem) : Prop := {
  respected_preorder :: PreOrder R;
  respected_mkdir_p m p : R m (mkdir_p m p);
  respected_write_all m t files :
    tmp `prefix_of` t ∨ output `prefix_of` t → R m (write_all t files m);
  respected_delete m p : tmp `prefix_of` p → R m (delete p m);
  respected_rmtree m : R m (rmtree m tmp);
  respected_rename m src dst n :
    tmp `prefix_of` src → tmp `prefix_of` dst ∨ output `prefix_of` dst →
    R m (<[dst := n]> (delete src m))
}.
End Footprint.

(** ** More sample inputs *)

Module Samples.
Import Paths FS World Demo.
Local Open Scope string_scope.

(** A source folder with two archives of the same stem. *)
Definition same_stem_source : filesystem :=
  list_to_map [ (["src"], Dir); (["src"; "a.zip"], File "zip of b.rar");
                (["src"; "a.rar"], File "rar of c.txt") ].
End Samples.

(** ** The order mass_extractor.py processes archives in *)

Module MassOrder.
Import Paths FS World Mass.

(** [p <= q] for two [Path] objects. *)
Definition path_le : relation path := λ p q, path_leb p q = true.

(** The same world with another order of directory listings. *)
Definition with_order (E : environment) (ord : listing_order) : environment :=
  {| scandir_order := ord;
     run_tool := run_tool E;
     may_unlink := may_unlink E;
     extractall := extractall E |}.
End MassOrder.

(** * Facts about the file system operations *)

Section FSFacts.
Import Paths FS.
Implicit Types (m : filesystem) (p q top : path).

Lemma is_file_spec m p : is_file m p = true ↔ ∃ data, m !! p = Some (File data).
Proof.
  unfold is_file. destruct (m !! p) as [[d|]|]; split; intros H; eauto;
    try discriminate; destruct H as [? H]; discriminate.
Qed.

Lemma is_dir_spec m p : is_dir m p = true ↔ m !! p = Some Dir.
Proof.
  unfold is_dir. destruct (m !! p) as [[d|]|]; split; intros H;
    try discriminate; auto.
Qed.

Lemma exists_spec m p : exists_ m p = true ↔ is_Some (m !! p).
Proof.
  unfold exists_. destruct (m !! p); split; intros H; eauto;
    try discriminate; destruct H; discriminate.
Qed.

Lemma belowb_spec top p : belowb top p = true ↔ below top p.
Proof.
  unfold belowb, below. rewrite andb_true_iff, negb_true_iff,
    bool_decide_eq_true, bool_decide_eq_false. split.
  - intros [[rest ->] Hne]. exists rest. split; [|done].
    intros ->. apply Hne. by rewrite app_nil_r.
  - intros (rest & Hrest & ->). split; [by exists rest|].
    intros Heq. apply Hrest.
    apply (app_inv_head top). by rewrite app_nil_r.
Qed.

Lemma below_prefix top p : below top p → top `prefix_of` p.
Proof. intros (rest & _ & ->). by exists rest. Qed.

(** Two directories neither of which contains the other share no
    descendant. *)
Lemma incomparable_below top other q :
  ¬ top `prefix_of` other → ¬ other `prefix_of` top →
  below top q → ¬ other `prefix_of` q.
Proof.
  intros H1 H2 Hq Ho.
  destruct (prefix_weak_total _ _ _ (below_prefix _ _ Hq) Ho); auto.
Qed.

Lemma lookup_mkdir_one m q p :
  mkdir_one m q !! p =
    match m !! p with
    | Some n => Some n
    | None => if decide (q = p) then Some Dir else None
    end.
Proof.
  unfold mkdir_one. destruct (m !! q) eqn:Hq.
  - destruct (m !! p) eqn:Hp; [done|]. case_decide; congruence.
  - rewrite lookup_insert. case_decide; subst.
    + by rewrite Hq.
    + by destruct (m !! p).
Qed.

Lemma lookup_foldl_mkdir_one m qs p :
  foldl mkdir_one m qs !! p =
    match m !! p with
    | Some n => Some n
    | None => if decide (p ∈ qs) then Some Dir else None
    end.
Proof.
  revert m. induction qs as [|q qs IH]; intros m; cbn [foldl].
  - destruct (m !! p); [done|]. rewrite decide_False; [done|]. apply not_elem_of_nil.
  - rewrite IH, lookup_mkdir_one. destruct (m !! p); [done|].
    destruct (decide (q = p)) as [->|Hne].
    + rewrite decide_True; [done|]. by left.
    + destruct (decide (p ∈ qs)) as [Hin|Hnin].
      * rewrite decide_True; [done|]. by right.
      * rewrite decide_False; [done|]. intros [->|]%elem_of_cons; done.
Qed.

Lemma lookup_mkdir_p m p q :
  mkdir_p m p !! q =
    match m !! q with
    | Some n => Some n
    | None => if decide (q ∈ ancestors_and_self p) then Some Dir else None
    end.
Proof. apply lookup_foldl_mkdir_one. Qed.

Lemma elem_of_ancestors_and_self p q :
  q ∈ ancestors_and_self p ↔ q ≠ [] ∧ q `prefix_of` p.
Proof.
  revert q. induction p as [|c r IH]; intros q; simpl.
  - split; [intros H; by apply elem_of_nil in H|].
    intros [Hne [k Hk]]. symmetry in Hk. by apply app_eq_nil in Hk as [-> _].
  - rewrite elem_of_cons, list_elem_of_fmap. split.
    + intros [->|(q' & -> & Hq')].
      * split; [done|]. by exists r.
      * apply IH in Hq' as [_ Hpre]. split; [done|].
        by apply (prefix_app [c]).
    + intros [Hne [k Hk]]. destruct q as [|c' q']; [done|].
      simpl in Hk. injection Hk as <- Hr.
      destruct q' as [|c2 q2]; [by left|]. right.
      exists (c2 :: q2). split; [done|]. apply IH. split; [done|by exists k].
Qed.

Lemma is_file_mkdir_p m p q : is_file (mkdir_p m p) q = is_file m q.
Proof.
  unfold is_file. rewrite lookup_mkdir_p.
  destruct (m !! q); [done|]. by case_decide.
Qed.

Lemma mkdir_p_keeps m p q : is_Some (m !! q) → mkdir_p m p !! q = m !! q.
Proof. intros [n Hn]. by rewrite lookup_mkdir_p, Hn. Qed.

Lemma exists_mkdir_p m p : p ≠ [] → exists_ (mkdir_p m p) p = true.
Proof.
  intros Hp. apply exists_spec. rewrite lookup_mkdir_p.
  destruct (m !! p); [by eexists|].
  rewrite decide_True; [by eexists|].
  by apply elem_of_ancestors_and_self.
Qed.

Lemma mkdir_p_exists_mono m p q :
  exists_ m q = true → exists_ (mkdir_p m p) q = true.
Proof.
  rewrite !exists_spec. intros H. by rewrite mkdir_p_keeps.
Qed.

Lemma lookup_rmtree m p q :
  rmtree m p !! q = if decide (p `prefix_of` q) then None else m !! q.
Proof.
  unfold rmtree. case_decide as Hpre.
  - apply map_lookup_filter_None. right. intros n _ Hn. by apply Hn.
  - destruct (m !! q) as [n|] eqn:Hq.
    + apply map_lookup_filter_Some. by split.
    + apply map_lookup_filter_None. by left.
Qed.

Lemma lookup_write_file m p data q :
  write_file m p data !! q =
    if decide (p = q) then Some (File data) else mkdir_p m (parent p) !! q.
Proof. unfold write_file. by rewrite lookup_insert. Qed.

Lemma is_file_write_file_ne m p data q :
  p ≠ q → is_file (write_file m p data) q = is_file m q.
Proof.
  intros Hne. unfold is_file at 1. rewrite lookup_write_file, decide_False by done.
  apply is_file_mkdir_p.
Qed.

Lemma write_file_exists_mono m p data q :
  exists_ m q = true → exists_ (write_file m p data) q = true.
Proof.
  intros H. apply exists_spec. rewrite lookup_write_file.
  case_decide; [by eexists|]. apply exists_spec. by apply mkdir_p_exists_mono.
Qed.

(** Files outside the target directory are untouched by what a tool
    writes. *)
Lemma is_file_write_all_outside target files m q :
  ¬ target `prefix_of` q → is_file (write_all target files m) q = is_file m q.
Proof.
  intros Hout. unfold write_all. revert m.
  induction files as [|[rel data] files IH]; intros m; simpl; [done|].
  rewrite IH. apply is_file_write_file_ne.
  intros <-. apply Hout. by exists rel.
Qed.

Lemma lookup_file_write_all_outside target files m q data :
  ¬ target `prefix_of` q →
  m !! q = Some (File data) → write_all target files m !! q = Some (File data).
Proof.
  intros Hout. unfold write_all. revert m.
  induction files as [|[rel d] files IH]; intros m Hq; simpl; [done|].
  apply IH. rewrite lookup_write_file, decide_False.
  - rewrite mkdir_p_keeps; [done|by eexists].
  - intros <-. apply Hout. by exists rel.
Qed.

Lemma write_all_exists_mono target files m q :
  exists_ m q = true → exists_ (write_all target files m) q = true.
Proof.
  unfold write_all. revert m.
  induction files as [|[rel d] files IH]; intros m Hq; simpl; [done|].
  apply IH. by apply write_file_exists_mono.
Qed.

Lemma is_dir_not_file m p : is_dir m p = true → is_file m p = false.
Proof. unfold is_dir, is_file. by destruct (m !! p) as [[]|]. Qed.

Section Listing.
Variable ord : listing_order.

Lemma elem_of_regular_files m p : p ∈ regular_files m ↔ is_file m p = true.
Proof.
  unfold regular_files. rewrite list_elem_of_fmap. split.
  - intros ([p' n] & -> & Hin). simpl.
    apply elem_of_map_to_list in Hin.
    by apply map_lookup_filter_Some in Hin as [_ Hf].
  - intros Hf. destruct (m !! p) as [n|] eqn:Hp.
    + exists (p, n). split; [done|]. apply elem_of_map_to_list.
      by apply map_lookup_filter_Some.
    + unfold is_file in Hf. by rewrite Hp in Hf.
Qed.

Lemma elem_of_os_walk_files m top p :
  p ∈ os_walk_files ord m top ↔ is_file m p = true ∧ below top p.
Proof.
  unfold os_walk_files. rewrite (order_perm ord).
  rewrite list_elem_of_In, filter_In, <- list_elem_of_In.
  rewrite elem_of_regular_files, belowb_spec. tauto.
Qed.

Lemma NoDup_regular_files m : NoDup (regular_files m).
Proof. unfold regular_files. apply NoDup_fst_map_to_list. Qed.

Lemma NoDup_os_walk_files m top : NoDup (os_walk_files ord m top).
Proof.
  unfold os_walk_files. rewrite (order_perm ord).
  apply NoDup_ListNoDup, List.NoDup_filter, NoDup_ListNoDup, NoDup_regular_files.
Qed.

Lemma elem_of_iterdir m dir p :
  p ∈ iterdir ord m dir ↔ is_Some (m !! p) ∧ parent p = dir ∧ p ≠ [].
Proof.
  unfold iterdir. rewrite (order_perm ord).
  rewrite list_elem_of_In, filter_In, <- list_elem_of_In, bool_decide_eq_true.
  rewrite list_elem_of_fmap. split.
  - intros [([p' n] & -> & Hin) Hp]. apply elem_of_map_to_list in Hin.
    split; [by eexists|done].
  - intros [[n Hn] Hp]. split; [|done].
    exists (p, n). split; [done|]. by apply elem_of_map_to_list.
Qed.
End Listing.
End FSFacts.

(** * Facts about the effect monad *)

Section MonadFacts.
Import Paths FS World.
Local Open Scope monad_scope.

Lemma bind_inv {A B} (m : M A) (k : A -> M B) st o st' :
  bind m k st = Some (o, st') →
  (∃ a st1, m st = Some (Val a, st1) ∧ k a st1 = Some (o, st')) ∨
  (∃ e, m st = Some (Exn e, st') ∧ o = Exn e).
Proof.
  unfold bind. destruct (m st) as [[[a|e] st1]|]; intros H.
  - left. eauto.
  - right. injection H as <- <-. eauto.
  - discriminate.
Qed.

Lemma bind_val {A B} (m : M A) (k : A -> M B) st a st1 :
  m st = Some (Val a, st1) → bind m k st = k a st1.
Proof. unfold bind. by intros ->. Qed.

Lemma bind_exn {A B} (m : M A) (k : A -> M B) st e st1 :
  m st = Some (Exn e, st1) → bind m k st = Some (Exn e, st1).
Proof. unfold bind. by intros ->. Qed.

Lemma total_bind {A B} (m : M A) (k : A -> M B) :
  total m → (∀ a, total (k a)) → total (bind m k).
Proof.
  intros Hm Hk st. destruct (Hm st) as ([a|e] & st1 & H).
  - rewrite (bind_val _ _ _ _ _ H). apply Hk.
  - rewrite (bind_exn _ _ _ _ _ H). eauto.
Qed.

Lemma total_try_except {A} (m : M A) h :
  total m → (∀ e handler, h e = Some handler → total handler) →
  total (try_except m h).
Proof.
  intros Hm Hh st. unfold try_except.
  destruct (Hm st) as ([a|e] & st1 & ->); [eauto|].
  destruct (h e) as [handler|] eqn:He; [|eauto]. by apply (Hh e).
Qed.

Lemma total_for_each {X} (l : list X) body :
  (∀ x, total (body x)) → total (for_each l body).
Proof.
  intros Hb. induction l as [|x l IH]; simpl.
  - intros st. unfold ret. eauto.
  - apply total_bind; auto.
Qed.

Section Always.
Context (R : relation state) `{!PreOrder R}.

Lemma always_ret {A} (a : A) : always R (ret a).
Proof. intros st o st' [= <- <-]. reflexivity. Qed.

Lemma always_raise {A} e : always R (raise (A:=A) e).
Proof. intros st o st' [= <- <-]. reflexivity. Qed.

Lemma always_diverge {A} : always R (diverge (A:=A)).
Proof. intros st o st' [=]. Qed.

Lemma always_get_fs : always R get_fs.
Proof. intros st o st' [= <- <-]. reflexivity. Qed.

Lemma always_bind {A B} (m : M A) (k : A -> M B) :
  always R m → (∀ a, always R (k a)) → always R (bind m k).
Proof.
  intros Hm Hk st o st' [(a & st1 & H1 & H2)|(e & H1 & _)]%bind_inv.
  - etransitivity; [by eapply Hm|by eapply Hk].
  - by eapply Hm.
Qed.

Lemma always_try_except {A} (m : M A) h :
  always R m → (∀ e handler, h e = Some handler → always R handler) →
  always R (try_except m h).
Proof.
  intros Hm Hh st o st'. unfold try_except.
  destruct (m st) as [[[a|e] st1]|] eqn:Hrun; [| |done].
  - intros [= <- <-]. by eapply Hm.
  - destruct (h e) as [handler|] eqn:He.
    + intros Hrun'. etransitivity; [by eapply Hm|by eapply Hh].
    + intros [= <- <-]. by eapply Hm.
Qed.

Lemma always_for_each {X} (l : list X) body :
  (∀ x, x ∈ l → always R (body x)) → always R (for_each l body).
Proof.
  induction l as [|x l IH]; intros Hb; simpl.
  - apply always_ret.
  - apply always_bind.
    + apply Hb. by left.
    + intros _. apply IH. intros y Hy. apply Hb. by right.
Qed.

Lemma always_if {A} (b : bool) (m1 m2 : M A) :
  always R m1 → always R m2 → always R (if b then m1 else m2).
Proof. by destruct b. Qed.
End Always.

#[global] Instance on_fs_preorder Rfs : PreOrder Rfs → PreOrder (on_fs Rfs).
Proof.
  intros [Hr Ht]. split.
  - intros st. apply Hr.
  - intros st1 st2 st3. apply Ht.
Qed.

Lemma always_print Rfs `{!Reflexive Rfs} l : always (on_fs Rfs) (print l).
Proof. intros st o st' [= <- <-]. unfold on_fs. simpl. reflexivity. Qed.

Lemma always_update_fs Rfs f :
  (∀ m, Rfs m (f m)) → always (on_fs Rfs) (update_fs f).
Proof. intros Hf st o st' [= <- <-]. apply Hf. Qed.
End MonadFacts.

(** * The single-archive extractor and the recursive resolver *)

Section ResolverFacts.
Import Text Paths Classifier FS World MultiPart.
Local Open Scope monad_scope.
Variable E : environment.

Lemma command_target_choose archive t : command_target (choose_command archive t) = t.
Proof. unfold choose_command. by repeat case_match. Qed.

(** What one call of [extract_archive] does, in full. *)
Lemma extract_archive_run archive t st :
  let r := run_tool E (choose_command archive t) (mkdir_p (fs st) t) in
  extract_archive E archive t st =
    Some (Val PyNone,
          {| fs := write_all t (written r) (mkdir_p (fs st) t);
             stdout := stdout st ++ InfoExtracting archive ::
               (if returncode r =? 0 then []
                else [ErrorExtractionFailed archive
                        (CalledProcessError (returncode r))]) |}).
Proof.
  intros r.
  cbv [extract_archive bind mkdir_parents update_fs print try_except
       subprocess_run_check get_fs ret raise]. simpl. fold r.
  rewrite command_target_choose.
  destruct (returncode r =? 0); simpl; [done|].
  by rewrite <- app_assoc.
Qed.

Lemma is_file_write_all_mono target files m q :
  is_file m q = true → is_file (write_all target files m) q = true.
Proof.
  unfold write_all. revert m.
  induction files as [|[rel d] files IH]; intros m Hq; simpl; [done|].
  apply IH. unfold is_file. rewrite lookup_write_file.
  case_decide; [done|]. fold (is_file (mkdir_p m (parent (target ++ rel))) q).
  by rewrite is_file_mkdir_p.
Qed.

(** What [resolve_one] does to a regular file that may be deleted. *)
Lemma resolve_one_run dest archive st :
  is_file (fs st) archive = true → may_unlink E archive = true →
  let r := run_tool E (choose_command archive dest) (mkdir_p (fs st) dest) in
  resolve_one E dest archive st =
    Some (Val tt,
          {| fs := delete archive (write_all dest (written r) (mkdir_p (fs st) dest));
             stdout := stdout st ++ InfoExtracting archive ::
               (if returncode r =? 0 then []
                else [ErrorExtractionFailed archive
                        (CalledProcessError (returncode r))]) |}).
Proof.
  intros Hfile Hmay r. unfold resolve_one.
  rewrite (bind_val _ _ _ _ _ (extract_archive_run archive dest st)).
  fold r. cbv [try_except unlink bind get_fs update_fs]. simpl.
  rewrite is_file_write_all_mono, Hmay; [done|].
  by rewrite is_file_mkdir_p.
Qed.

Lemma total_extract_archive archive t : total (extract_archive E archive t).
Proof. intros st. rewrite extract_archive_run. eauto. Qed.

Lemma total_unlink p : total (unlink E p).
Proof.
  intros st. cbv [unlink bind get_fs update_fs raise].
  repeat case_match; eauto.
Qed.

Lemma total_resolve_one dest archive : total (resolve_one E dest archive).
Proof.
  unfold resolve_one. apply total_bind; [apply total_extract_archive|].
  intros _. apply total_try_except; [apply total_unlink|].
  intros e handler [= <-]. intros st. unfold print. eauto.
Qed.

(** [resolve_one] never raises: the only exceptions are caught. *)
Lemma resolve_one_val dest archive st :
  ∃ st', resolve_one E dest archive st = Some (Val tt, st').
Proof.
  unfold resolve_one.
  rewrite (bind_val _ _ _ _ _ (extract_archive_run archive dest st)).
  cbv [try_except unlink bind get_fs update_fs raise print]. simpl.
  repeat case_match; simplify_eq; eauto.
Qed.
End ResolverFacts.

Section ResolverRounds.
Import Text Paths Classifier FS World MultiPart.
Local Open Scope monad_scope.
Variable E : environment.

Lemma scan_run tmp st :
  scan E tmp st = Some (Val (core_archives_below E (fs st) tmp), st).
Proof. reflexivity. Qed.

Lemma elem_of_core_archives_below m tmp p :
  p ∈ core_archives_below E m tmp ↔
  is_file m p = true ∧ below tmp p ∧ is_core_archive p = true.
Proof.
  unfold core_archives_below.
  rewrite list_elem_of_In, filter_In, <- list_elem_of_In, elem_of_os_walk_files.
  tauto.
Qed.

Lemma core_archives_below_nil m tmp :
  core_archives_below E m tmp = [] ↔
  ∀ p, is_file m p = true → below tmp p → is_core_archive p = false.
Proof.
  split.
  - intros Hnil p Hf Hb. destruct (is_core_archive p) eqn:Hc; [|done].
    assert (p ∈ core_archives_below E m tmp) as Hin
      by by apply elem_of_core_archives_below.
    rewrite Hnil in Hin. by apply elem_of_nil in Hin.
  - intros Hall. destruct (core_archives_below E m tmp) as [|p l] eqn:Hl; [done|].
    assert (p ∈ core_archives_below E m tmp) as Hin by (rewrite Hl; by left).
    apply elem_of_core_archives_below in Hin as (Hf & Hb & Hc).
    by rewrite (Hall p Hf Hb) in Hc.
Qed.

(** The regular files below the working directory after one candidate was
    handled, when the destination lies apart from the working directory:
    the candidate is gone if it may be deleted, nothing else changed. *)
Lemma resolve_one_below tmp dest archive st :
  ¬ tmp `prefix_of` dest → ¬ dest `prefix_of` tmp → below tmp archive →
  ∃ st', resolve_one E dest archive st = Some (Val tt, st') ∧
    ∀ q, below tmp q →
      is_file (fs st') q =
        if decide (q = archive)
        then is_file (fs st) archive && negb (may_unlink E archive)
        else is_file (fs st) q.
Proof.
  intros H1 H2 Hba. unfold resolve_one.
  rewrite (bind_val _ _ _ _ _ (extract_archive_run E archive dest st)).
  set (fs1 := write_all dest _ _).
  assert (∀ q, below tmp q → is_file fs1 q = is_file (fs st) q) as Hfs1.
  { intros q Hq. unfold fs1.
    rewrite is_file_write_all_outside by by eapply incomparable_below.
    apply is_file_mkdir_p. }
  cbv [try_except unlink bind get_fs update_fs raise print]. simpl.
  rewrite (Hfs1 archive Hba).
  destruct (is_file (fs st) archive) eqn:Hfa; simpl.
  - destruct (may_unlink E archive) eqn:Hmay; simpl.
    + eexists. split; [done|]. simpl. intros q Hq. unfold is_file at 1.
      rewrite lookup_delete. case_decide; subst.
      * by rewrite decide_True.
      * rewrite decide_False by done. by apply Hfs1.
    + eexists. split; [done|]. simpl. intros q Hq. rewrite (Hfs1 q Hq).
      case_decide; by subst.
  - eexists. split; [done|]. simpl. intros q Hq. rewrite (Hfs1 q Hq).
    case_decide; by subst.
Qed.

Lemma resolve_all_val dest l flag st :
  ∃ st', resolve_all E dest l flag st = Some (Val (flag || negb (bool_decide (l = []))), st').
Proof.
  revert flag st. induction l as [|a l IH]; intros flag st; simpl.
  - exists st. unfold ret. by rewrite orb_false_r.
  - destruct (resolve_one_val E dest a st) as [st1 H1].
    rewrite (bind_val _ _ _ _ _ H1).
    destruct (IH true st1) as [st' ->]. exists st'. by rewrite orb_true_r.
Qed.

(** One round over a list that holds every core archive below the working
    directory, all of them deletable, leaves none. *)
Lemma resolve_all_clears tmp dest l flag st :
  ¬ tmp `prefix_of` dest → ¬ dest `prefix_of` tmp →
  (∀ p, p ∈ l → below tmp p ∧ may_unlink E p = true) →
  (∀ p, is_file (fs st) p = true → below tmp p → is_core_archive p = true → p ∈ l) →
  ∃ st', resolve_all E dest l flag st
           = Some (Val (flag || negb (bool_decide (l = []))), st') ∧
         core_archives_below E (fs st') tmp = [].
Proof.
  intros H1 H2. revert flag st.
  induction l as [|a l IH]; intros flag st Hl Hall; simpl.
  - exists st. unfold ret. rewrite orb_false_r. split; [done|].
    apply core_archives_below_nil. intros p Hf Hb.
    destruct (is_core_archive p) eqn:Hc; [|done].
    by apply Hall, elem_of_nil in Hc.
  - destruct (Hl a) as [Hba Hmay]; [by left|].
    destruct (resolve_one_below tmp dest a st H1 H2 Hba) as (st1 & Hrun & Hfs).
    rewrite (bind_val _ _ _ _ _ Hrun).
    destruct (IH true st1) as (st' & -> & Hnil).
    + intros p Hp. apply Hl. by right.
    + intros p Hf Hb Hc. rewrite (Hfs p Hb) in Hf.
      case_decide as Hpa; subst.
      * by rewrite Hmay, andb_false_r in Hf.
      * apply Hall in Hf; [|done..]. by apply elem_of_cons in Hf as [?|?].
    + exists st'. by rewrite orb_true_r.
Qed.
End ResolverRounds.

Section ResolverClaims.
Import Text Paths Classifier FS World MultiPart.
Local Open Scope monad_scope.
Variable E : environment.

(** C1. When the destination directory lies apart from the working
    directory (so that extraction never writes back into it) and every
    candidate of the scan can be deleted, a round of the resolver strictly
    decreases the number of core archives below the working directory, and
    the loop of [recursively_extract] returns within as many extracting
    rounds as there are core archives (one more scan finds none). *)
Theorem resolver_terminates tmp dest st :
  ¬ tmp `prefix_of` dest → ¬ dest `prefix_of` tmp →
  (∀ p, p ∈ core_archives_below E (fs st) tmp → may_unlink E p = true) →
  (core_archives_below E (fs st) tmp ≠ [] →
     ∃ st1, resolve_all E dest (core_archives_below E (fs st) tmp) false st
              = Some (Val true, st1) ∧
            (length (core_archives_below E (fs st1) tmp)
               < length (core_archives_below E (fs st) tmp))%nat) ∧
  (∀ fuel, (length (core_archives_below E (fs st) tmp) < fuel)%nat →
     ∃ st', recursively_extract E fuel tmp dest st = Some (Val tt, st') ∧
            core_archives_below E (fs st') tmp = []).
Proof.
  intros H1 H2 Hmay.
  assert (∃ st1, resolve_all E dest (core_archives_below E (fs st) tmp) false st
            = Some (Val (negb (bool_decide (core_archives_below E (fs st) tmp = []))), st1)
          ∧ core_archives_below E (fs st1) tmp = []) as (st1 & Hround & Hnil).
  { apply (resolve_all_clears E tmp dest _ false st H1 H2).
    - intros p Hp. split; [|by apply Hmay].
      by apply elem_of_core_archives_below in Hp as (_ & Hb & _).
    - intros p Hf Hb Hc. by apply elem_of_core_archives_below. }
  split.
  - intros Hne. exists st1. rewrite Hround, Hnil, bool_decide_eq_false_2 by done.
    split; [done|]. destruct (core_archives_below E (fs st) tmp); [done|simpl; lia].
  - intros fuel Hfuel. unfold recursively_extract.
    destruct fuel as [|fuel]; [lia|]. simpl.
    rewrite (bind_val _ _ _ _ _ (scan_run E tmp st)).
    destruct (core_archives_below E (fs st) tmp) as [|a l] eqn:Hl.
    + exists st. split; [done|]. done.
    + rewrite (bind_val _ _ _ _ _ Hround). simpl.
      destruct fuel as [|fuel]; [simpl in Hfuel; lia|]. simpl.
      rewrite (bind_val _ _ _ _ _ (scan_run E tmp st1)), Hnil.
      by exists st1.
Qed.

(** C2. Whenever [recursively_extract] returns, it returns normally and no
    regular file below the working directory is classified core. *)
Theorem resolver_leaves_no_core_archive fuel tmp dest st o st' :
  recursively_extract E fuel tmp dest st = Some (o, st') →
  o = Val tt ∧
  core_archives_below E (fs st') tmp = [] ∧
  ∀ p, is_file (fs st') p = true → below tmp p → is_core_archive p = false.
Proof.
  unfold recursively_extract. revert st.
  induction fuel as [|fuel IH]; intros st; simpl; [done|].
  rewrite (bind_val _ _ _ _ _ (scan_run E tmp st)).
  destruct (core_archives_below E (fs st) tmp) as [|a l] eqn:Hl.
  - intros [= <- <-]. split; [done|]. split; [done|].
    by apply (core_archives_below_nil E).
  - destruct (resolve_all_val E dest (a :: l) false st) as [st1 Hround].
    rewrite (bind_val _ _ _ _ _ Hround). simpl. apply IH.
Qed.

(** C9. A candidate found by the scan is deleted right after its
    extraction was attempted, whatever the exit status of the tool: the
    file system after the step is the one the tool left, minus the
    archive.  Only a refused deletion keeps the file, with a warning. *)
Theorem candidate_deleted_whatever_the_outcome tmp dest archive st :
  archive ∈ core_archives_below E (fs st) tmp →
  ∃ st',
    resolve_one E dest archive st = Some (Val tt, st') ∧
    let r := run_tool E (choose_command archive dest) (mkdir_p (fs st) dest) in
    let extracted := write_all dest (written r) (mkdir_p (fs st) dest) in
    (returncode r ≠ 0 →
       ErrorExtractionFailed archive (CalledProcessError (returncode r)) ∈ stdout st') ∧
    if may_unlink E archive
    then fs st' = delete archive extracted ∧ fs st' !! archive = None
    else fs st' = extracted ∧
         WarningCouldNotDelete archive (PermissionError archive) ∈ stdout st'.
Proof.
  intros (Hfile & _ & _)%elem_of_core_archives_below.
  unfold resolve_one.
  rewrite (bind_val _ _ _ _ _ (extract_archive_run E archive dest st)).
  cbv [try_except unlink bind get_fs update_fs raise print]. simpl.
  rewrite is_file_write_all_mono by by rewrite is_file_mkdir_p. simpl.
  set (r := run_tool E _ _).
  assert (returncode r ≠ 0 →
          ∀ more, ErrorExtractionFailed archive (CalledProcessError (returncode r))
            ∈ (stdout st ++ InfoExtracting archive ::
                 (if returncode r =? 0 then []
                  else [ErrorExtractionFailed archive
                          (CalledProcessError (returncode r))])) ++ more) as Hlog.
  { intros Hrc more. apply Z.eqb_neq in Hrc. rewrite Hrc.
    rewrite !elem_of_app. left. right. right. by left. }
  destruct (may_unlink E archive); simpl.
  - eexists. split; [done|]. simpl. split.
    + intros Hrc. specialize (Hlog Hrc []). by rewrite app_nil_r in Hlog.
    + split; [done|]. apply lookup_delete_eq.
  - eexists. split; [done|]. simpl. split; [by auto|].
    split; [done|]. rewrite elem_of_app. right. by left.
Qed.
End ResolverClaims.

Section ResolverWitnesses.
Import Paths FS World MultiPart Demo.
Local Open Scope string_scope.

Lemma resolver_terminates_witness :
  (¬ ["ws"] `prefix_of` ["out"]) ∧ (¬ ["out"] `prefix_of` ["ws"]) ∧
  (∀ p, p ∈ core_archives_below nested_env nested_workspace ["ws"] →
        may_unlink nested_env p = true) ∧
  ∃ st', recursively_extract nested_env 2 ["ws"] ["out"] (start nested_workspace)
           = Some (Val tt, st') ∧
         core_archives_below nested_env (fs st') ["ws"] = [].
Proof.
  assert (H1 : ¬ ["ws"] `prefix_of` ["out"]) by (intros [k Hk]; discriminate).
  assert (H2 : ¬ ["out"] `prefix_of` ["ws"]) by (intros [k Hk]; discriminate).
  assert (H3 : ∀ p, p ∈ core_archives_below nested_env nested_workspace ["ws"] →
        may_unlink nested_env p = true) by (intros p _; reflexivity).
  split; [exact H1|]. split; [exact H2|]. split; [exact H3|].
  apply (proj2 (resolver_terminates nested_env ["ws"] ["out"]
                  (start nested_workspace) H1 H2 H3) 2%nat).
  vm_compute. lia.
Defined.

Lemma resolver_leaves_no_core_archive_witness :
  recursively_extract nested_env 5 ["ws"] ["out"] (start nested_workspace)
    = Some (Val tt, nested_final) ∧
  core_archives_below nested_env (fs nested_final) ["ws"] = [].
Proof.
  assert (H : recursively_extract nested_env 5 ["ws"] ["out"] (start nested_workspace)
    = Some (Val tt, nested_final)) by (vm_compute; reflexivity).
  split; [exact H|].
  exact (proj1 (proj2 (resolver_leaves_no_core_archive nested_env 5 ["ws"] ["out"]
                         _ _ _ H))).
Defined.

Lemma candidate_deleted_whatever_the_outcome_witness :
  ["ws"; "a.zip"] ∈ core_archives_below (demo_env [] []) nested_workspace ["ws"] ∧
  ∃ st', resolve_one (demo_env [] []) ["out"] ["ws"; "a.zip"] (start nested_workspace)
           = Some (Val tt, st') ∧
         ErrorExtractionFailed ["ws"; "a.zip"] (CalledProcessError 2) ∈ stdout st' ∧
         fs st' !! ["ws"; "a.zip"] = None.
Proof.
  assert (H : ["ws"; "a.zip"]
                ∈ core_archives_below (demo_env [] []) nested_workspace ["ws"])
    by (vm_compute; left).
  split; [exact H|].
  destruct (candidate_deleted_whatever_the_outcome (demo_env [] []) ["ws"] ["out"]
              ["ws"; "a.zip"] (start nested_workspace) H) as (st' & Hrun & Hlog & Hfs).
  exists st'. split; [exact Hrun|]. split.
  - apply Hlog. vm_compute. discriminate.
  - exact (proj2 Hfs).
Defined.
End ResolverWitnesses.

Section ResolverDivergence.
Import Text Paths Classifier Described FS World MultiPart.
Local Open Scope monad_scope.
Variable E : environment.

Lemma resolve_all_keeps_undeletable tmp dest a l flag st :
  ¬ tmp `prefix_of` dest → ¬ dest `prefix_of` tmp →
  below tmp a → may_unlink E a = false →
  (∀ p, p ∈ l → below tmp p) →
  is_file (fs st) a = true →
  ∃ st', resolve_all E dest l flag st
           = Some (Val (flag || negb (bool_decide (l = []))), st') ∧
         is_file (fs st') a = true.
Proof.
  intros H1 H2 Ha Hmay. revert flag st.
  induction l as [|p l IH]; intros flag st Hl Hfile; simpl.
  - exists st. unfold ret. by rewrite orb_false_r.
  - destruct (resolve_one_below E tmp dest p st H1 H2) as (st1 & Hrun & Hfs);
      [apply Hl; by left|].
    rewrite (bind_val _ _ _ _ _ Hrun).
    destruct (IH true st1) as (st' & -> & Hfile').
    + intros q Hq. apply Hl. by right.
    + rewrite (Hfs a Ha). case_decide as Hap.
      * subst p. by rewrite Hfile, Hmay.
      * done.
    + exists st'. by rewrite orb_true_r.
Qed.

(** X1. A core archive below the working directory that cannot be deleted
    is found again by every scan, and [recursively_extract] returns for no
    number of rounds: the termination of the resolver needs its hypothesis
    on deletions. *)
Lemma undeletable_archive_never_returns tmp dest a fuel st :
  ¬ tmp `prefix_of` dest → ¬ dest `prefix_of` tmp →
  a ∈ core_archives_below E (fs st) tmp → may_unlink E a = false →
  recursively_extract E fuel tmp dest st = None.
Proof.
  intros H1 H2 Ha Hmay. unfold recursively_extract.
  apply elem_of_core_archives_below in Ha as (Hfile & Hb & Hc).
  revert st Hfile. induction fuel as [|fuel IH]; intros st Hfile; simpl; [done|].
  rewrite (bind_val _ _ _ _ _ (scan_run E tmp st)).
  destruct (core_archives_below E (fs st) tmp) as [|p l] eqn:Hl.
  - assert (a ∈ core_archives_below E (fs st) tmp) as Hin
      by by apply elem_of_core_archives_below.
    rewrite Hl in Hin. by apply elem_of_nil in Hin.
  - destruct (resolve_all_keeps_undeletable tmp dest a (p :: l) false st
                H1 H2 Hb Hmay) as (st1 & Hrun & Hfile1); [|done|].
    + intros q Hq. rewrite <- Hl in Hq.
      by apply elem_of_core_archives_below in Hq as (_ & ? & _).
    + rewrite (bind_val _ _ _ _ _ Hrun). simpl. by apply IH.
Qed.
End ResolverDivergence.

(** * Facts about file names *)

Section TextFacts.
Import Text Re Paths Classifier.
Implicit Types (s pre suf t : text) (c x : ascii).

Lemma startswith_spec s pre : startswith s pre = true ↔ ∃ rest, s = pre ++ rest.
Proof.
  revert s. induction pre as [|c pre IH]; intros s; simpl.
  - split; [intros _; by exists s|done].
  - destruct s as [|x s]; simpl.
    + split; [done|]. intros [rest Hr]. discriminate.
    + rewrite andb_true_iff, Ascii.eqb_eq, IH. split.
      * intros [-> [rest ->]]. by exists rest.
      * intros [rest [= -> ->]]. split; [done|by exists rest].
Qed.

Lemma endswith_spec s suf : endswith s suf = true ↔ ∃ pre, s = pre ++ suf.
Proof.
  unfold endswith. rewrite startswith_spec. split.
  - intros [rest Hr]. exists (rev rest).
    rewrite <- (rev_involutive s), Hr, rev_app_distr. by rewrite rev_involutive.
  - intros [pre ->]. exists (rev pre). by rewrite rev_app_distr.
Qed.

Lemma lower_app s t : lower (s ++ t) = lower s ++ lower t.
Proof. apply map_app. Qed.

Lemma lower_app_inv s l1 l2 :
  lower s = l1 ++ l2 → ∃ s1 s2, s = s1 ++ s2 ∧ lower s1 = l1 ∧ lower s2 = l2.
Proof.
  revert s. induction l1 as [|c l1 IH]; intros s H; simpl in H.
  - by exists [], s.
  - destruct s as [|x s]; [done|]. simpl in H. injection H as Hx Hs.
    destruct (IH s Hs) as (s1 & s2 & -> & <- & <-).
    exists (x :: s1), s2. by rewrite <- Hx.
Qed.

Lemma length_lower s : length (lower s) = length s.
Proof. apply length_map. Qed.

Lemma lower_char_dot c : lower_char c = dot ↔ c = dot.
Proof.
  destruct c as [[] [] [] [] [] [] [] []]; vm_compute; split; congruence.
Qed.

Lemma lower_char_idem c : lower_char (lower_char c) = lower_char c.
Proof. by destruct c as [[] [] [] [] [] [] [] []]. Qed.

Lemma lower_idem s : lower (lower s) = lower s.
Proof.
  unfold lower. rewrite map_map. apply map_ext. intros c. apply lower_char_idem.
Qed.

Lemma rfind_from_notin c s i : c ∉ s → rfind_from c s i = -1.
Proof.
  revert i. induction s as [|x s IH]; intros i Hc; simpl; [done|].
  rewrite IH by (intros ?; apply Hc; by right). simpl.
  destruct (Ascii.eqb_spec x c) as [->|]; [|done].
  exfalso. apply Hc. by left.
Qed.

Lemma rfind_from_last c pre ext i :
  0 <= i → c ∉ ext → rfind_from c (pre ++ c :: ext) i = i + Z.of_nat (length pre).
Proof.
  revert i. induction pre as [|x pre IH]; intros i Hi Hc; simpl.
  - rewrite rfind_from_notin by done. simpl. rewrite Ascii.eqb_refl. lia.
  - rewrite IH by (done || lia).
    destruct (0 <=? i + 1 + Z.of_nat (length pre)) eqn:Hle; [lia|].
    apply Z.leb_gt in Hle. lia.
Qed.

(** [Path.stem] of a name whose last dot is followed by [ext]. *)
Lemma stem_text_last_dot pre ext :
  dot ∉ ext →
  stem_text (pre ++ dot :: ext) =
    if bool_decide (pre = [] ∨ ext = []) then pre ++ dot :: ext else pre.
Proof.
  intros Hext. unfold stem_text, rfind. rewrite rfind_from_last by (done || lia).
  unfold len. rewrite length_app. simpl.
  case_bool_decide as Hd.
  - destruct Hd as [-> | ->]; simpl.
    + done.
    + replace (0 + Z.of_nat (length pre) <? Z.of_nat (length pre + 1) - 1)
        with false by (symmetry; apply Z.ltb_ge; lia).
      by rewrite andb_false_r.
  - assert (pre ≠ [] ∧ ext ≠ []) as [Hp He] by tauto.
    destruct pre as [|p0 pre]; [done|]. destruct ext as [|e0 ext]; [done|].
    replace (0 <? 0 + Z.of_nat (length (p0 :: pre))) with true
      by (symmetry; apply Z.ltb_lt; simpl; lia).
    replace (0 + Z.of_nat (length (p0 :: pre))
               <? Z.of_nat (length (p0 :: pre) + S (length (e0 :: ext))) - 1)
      with true by (symmetry; apply Z.ltb_lt; simpl; lia).
    simpl andb. cbv iota.
    replace (Z.to_nat (0 + Z.of_nat (length (p0 :: pre)))) with (length (p0 :: pre)) by lia.
    by rewrite take_app_length.
Qed.
End TextFacts.

(** * Facts about the classifier and the segment filter *)

Section ClassifierFacts.
Import Text Re Paths Classifier Described.
Implicit Types (s pre suf t : text) (c x : ascii) (r : regex).

Lemma search_spec ic r s :
  search ic r s = true ↔ ∃ pre t, s = pre ++ t ∧ matches_at ic r t = true.
Proof.
  induction s as [|x s IH]; simpl.
  - rewrite orb_false_r. split.
    + intros H. by exists [], [].
    + intros (pre & t & Hs & Hm). symmetry in Hs.
      apply app_eq_nil in Hs as [-> ->]. done.
  - rewrite orb_true_iff, IH. split.
    + intros [H|(pre & t & -> & Hm)].
      * by exists [], (x :: s).
      * by exists (x :: pre), t.
    + intros (pre & t & Hs & Hm). destruct pre as [|y pre]; simpl in Hs.
      * left. by rewrite Hs.
      * injection Hs as -> ->. right. by exists pre, t.
Qed.

Lemma residuals_cat_lit ic c r s :
  residuals ic (Cat (Lit c) r) s =
    match s with
    | x :: s' => if char_matches ic c x then residuals ic r s' else []
    | [] => []
    end.
Proof.
  destruct s as [|x s]; simpl; [done|].
  destruct (char_matches ic c x); simpl; [apply app_nil_r|done].
Qed.

Lemma at_dollar_spec t : at_dollar t = true ↔ t = [] ∨ t = [newline].
Proof.
  destruct t as [|c [|c' t]]; simpl.
  - split; [by left|done].
  - rewrite Ascii.eqb_eq. split; [intros ->; by right|].
    intros [?|[= ->]]; done.
  - split; [done|]. intros [?|?]; discriminate.
Qed.

Lemma matches_at_dollar ic t : matches_at ic (cat_all [Dollar]) t = at_dollar t.
Proof. unfold matches_at. simpl. by destruct (at_dollar t). Qed.

(** A pattern made of literal characters and a final [$], case-sensitive. *)
Lemma matches_at_literals_dollar lits t :
  matches_at false (cat_all (map Lit lits ++ [Dollar])) t = true ↔
  ∃ tail, t = lits ++ tail ∧ at_dollar tail = true.
Proof.
  revert t. induction lits as [|c lits IH]; intros t.
  - simpl map. simpl app. rewrite matches_at_dollar. split.
    + intros H. by exists t.
    + by intros (tail & -> & H).
  - unfold matches_at in *. simpl map. simpl app.
    change (cat_all (Lit c :: ?l)) with (Cat (Lit c) (cat_all l)).
    rewrite residuals_cat_lit. destruct t as [|x t].
    + split; [done|]. intros (tail & Ht & _). discriminate.
    + unfold char_matches. destruct (Ascii.eqb_spec x c) as [->|Hne].
      * rewrite IH. split.
        -- intros (tail & -> & H). by exists tail.
        -- intros (tail & [= ->] & H). by exists tail.
      * split; [done|]. intros (tail & [= ? ?] & _). done.
Qed.

Lemma search_7z_001 s :
  search false re_7z_001 s = true ↔
  (∃ pre, s = pre ++ of_string ".7z.001") ∨
  (∃ pre, s = pre ++ of_string ".7z.001" ++ [newline]).
Proof.
  rewrite search_spec. change re_7z_001
    with (cat_all (map Lit (of_string ".7z.001") ++ [Dollar])).
  split.
  - intros (pre & t & -> & (tail & -> & [-> | ->]%at_dollar_spec)%matches_at_literals_dollar).
    + left. exists pre. by rewrite app_nil_r.
    + right. by exists pre.
  - intros [[pre ->]|[pre ->]].
    + exists pre, (of_string ".7z.001"). split; [done|].
      apply matches_at_literals_dollar. exists []. by rewrite app_nil_r.
    + exists pre, (of_string ".7z.001" ++ [newline]). split; [done|].
      apply matches_at_literals_dollar. by exists [newline].
Qed.

Lemma endswith_lower s suf :
  endswith (lower s) suf = true ↔ ends_with_ci s suf.
Proof.
  rewrite endswith_spec. unfold ends_with_ci. split.
  - intros [pre' H]. apply lower_app_inv in H as (pre & tail & -> & _ & Ht).
    by exists pre, tail.
  - intros (pre & tail & -> & <-). exists (lower pre). apply lower_app.
Qed.

(** What [is_core_archive] accepts: the four described endings, and also
    [.7z.001] followed by a newline, because [$] matches before a final
    newline. *)
Lemma is_core_archive_spec (p : path) :
  is_core_archive p = true ↔
  described_core (of_string (name p)) ∨
  ends_with_ci (of_string (name p)) (of_string ".7z.001" ++ [newline]).
Proof.
  unfold is_core_archive, described_core.
  set (nm := of_string (name p)).
  rewrite <- !endswith_lower.
  destruct (endswith (lower nm) (of_string ".rar")) eqn:H1; [simpl; tauto|].
  destruct (endswith (lower nm) (of_string ".zip")) eqn:H2; [simpl; tauto|].
  destruct (endswith (lower nm) (of_string ".7z")) eqn:H3; [simpl; tauto|].
  simpl. rewrite !endswith_spec.
  destruct (search false re_7z_001 (lower nm)) eqn:H4.
  - apply search_7z_001 in H4. split; [|done]. intros _. tauto.
  - split; [done|]. intros H.
    assert (search false re_7z_001 (lower nm) = true) as H5.
    { apply search_7z_001. destruct H as [[?|[?|[?|?]]]|?]; try done; tauto. }
    congruence.
Qed.

(** On names that do not end with a newline the classifier is exactly as
    described. *)
Lemma is_core_archive_described (p : path) :
  endswith (of_string (name p)) [newline] = false →
  (is_core_archive p = true ↔ described_core (of_string (name p))).
Proof.
  intros Hnl. rewrite is_core_archive_spec. split; [|tauto].
  intros [H|(pre & tail & Hs & Ht)]; [done|]. exfalso.
  change (of_string ".7z.001" ++ [newline])
    with (lower (of_string ".7z.001") ++ lower [newline]) in Ht.
  destruct (lower_app_inv _ _ _ Ht) as (t1 & t2 & -> & _ & Ht2).
  destruct t2 as [|c [|c' t2]]; try discriminate.
  injection Ht2 as Hc.
  assert (c = newline) as ->.
  { revert Hc. destruct c as [[] [] [] [] [] [] [] []]; vm_compute; congruence. }
  assert (endswith (of_string (name p)) [newline] = true); [|congruence].
  apply endswith_spec. exists (pre ++ t1). by rewrite Hs, app_assoc.
Qed.
End ClassifierFacts.

Section NamingFacts.
Import Text Re Paths Classifier Described.
Implicit Types (s pre suf t : text) (c x : ascii) (r : regex).

Lemma of_string_to_string s : of_string (to_string s) = s.
Proof. apply list_ascii_of_string_of_list_ascii. Qed.

Lemma lower_char_not_dot c d : lower_char c = d → d ≠ dot → c ≠ dot.
Proof. intros <- Hd ->. by apply Hd. Qed.

Lemma endswith_app_literal pre lit suf :
  endswith (pre ++ lit) suf = startswith (rev lit ++ rev pre) (rev suf).
Proof. unfold endswith. by rewrite rev_app_distr. Qed.

(** The stem of a name with one of the described endings: the name
    without the ending ([.001] for [.7z.001]), except that a name which is
    nothing but [.rar], [.zip] or [.7z] is its own stem. *)
Lemma stem_text_described nm :
  described_core nm →
  stem_text nm =
    if bool_decide (lower nm ∈ [of_string ".rar"; of_string ".zip"; of_string ".7z"])
    then nm else strip_recognized_suffix nm.
Proof.
  unfold described_core, strip_recognized_suffix.
  intros [H|[H|[H|H]]]; destruct H as (pre & tail & -> & Ht);
    rewrite lower_app, Ht, !endswith_app_literal; simpl;
    repeat (destruct tail as [|? tail]; try discriminate);
    simpl in Ht; simplify_eq;
    match goal with H : lower_char _ = "."%char |- _ =>
      apply lower_char_dot in H as -> end.
  1-3: rewrite stem_text_last_dot
         by (rewrite !elem_of_cons, elem_of_nil; intros Hd;
             repeat (destruct Hd as [Hd|Hd]; [subst; discriminate|]); done);
       destruct pre as [|x pre]; [done|];
       rewrite (bool_decide_eq_false_2 (x :: pre = [] ∨ _)) by (intros [?|?]; discriminate);
       rewrite bool_decide_eq_false_2;
       [ rewrite length_app; simpl length;
         match goal with |- _ = take ?n _ =>
           replace n with (length (x :: pre)) by (simpl; lia) end;
         by rewrite take_app_length
       | rewrite !elem_of_cons, elem_of_nil;
         intros [Heq|[Heq|[Heq|[]]]];
         (apply (f_equal (@rev ascii)) in Heq; rewrite rev_app_distr in Heq;
          simpl in Heq; discriminate) ||
         (apply (f_equal length) in Heq;
          rewrite length_app, length_lower in Heq; simpl in Heq; lia) ].
  - replace (pre ++ [a; a0; a1; dot; a3; a4; a5])
      with ((pre ++ [a; a0; a1]) ++ dot :: [a3; a4; a5]) by by rewrite <- app_assoc.
    rewrite stem_text_last_dot
      by (rewrite !elem_of_cons, elem_of_nil; intros Hd;
          repeat (destruct Hd as [Hd|Hd]; [subst; discriminate|]); done).
    rewrite bool_decide_eq_false_2.
    2: { intros [Hp|?]; [|discriminate]. by destruct pre. }
    rewrite bool_decide_eq_false_2.
    + rewrite length_app. simpl length.
      replace (length (pre ++ [a; a0; a1]) + 4 - 4)%nat
        with (length (pre ++ [a; a0; a1])) by lia.
      by rewrite take_app_length.
    + rewrite !elem_of_cons, elem_of_nil.
      intros [Heq|[Heq|[Heq|[]]]];
        apply (f_equal (@rev ascii)) in Heq; rewrite rev_app_distr in Heq;
        simpl in Heq; discriminate.
Qed.

(** The stem of any accepted name keeps everything before the last dot. *)
Lemma stem_movie : stem ["src"; "movie.7z.001"] = "movie.7z"%string.
Proof. reflexivity. Qed.

Lemma plus_digits_all ds :
  all_digits ds → ds ≠ [] → [] ∈ plus_iter (length ds) (residuals true Digit) ds.
Proof.
  induction ds as [|d ds IH]; intros Hall Hne; [done|].
  apply Forall_cons in Hall as [Hd Hall].
  destruct ds as [|d' ds].
  - simpl. rewrite Hd. by left.
  - simpl plus_iter. cbn [residuals]. rewrite Hd. cbn [flat_map].
    rewrite app_nil_r. apply elem_of_app. right.
    by apply IH.
Qed.

Lemma lower_digits ds : all_digits ds → lower ds = ds.
Proof.
  induction 1 as [|d ds Hd _ IH]; [done|]. simpl. rewrite IH. f_equal.
  revert Hd. destruct d as [[] [] [] [] [] [] [] []]; vm_compute; congruence.
Qed.

Lemma matches_at_alt ic r1 r2 t :
  matches_at ic (Alt r1 r2) t = matches_at ic r1 t || matches_at ic r2 t.
Proof.
  unfold matches_at. simpl. destruct (residuals ic r1 t); simpl; [|done].
  by destruct (residuals ic r2 t).
Qed.

Lemma matches_at_skip_regex t :
  matches_at true skip_regex t =
    matches_at true (cat_all [Lit "."; Lit "r"; Plus Digit; Dollar]) t
    || matches_at true (cat_all [Lit "."; Repeat 3 Digit; Dollar]) t
    || matches_at true (cat_all [Lit "."; Lit "z"; Repeat 2 Digit; Dollar]) t
    || matches_at true
         (cat_all [Lit "."; Lit "7"; Lit "z"; Lit "."; Repeat 3 Digit; Dollar]) t.
Proof.
  unfold skip_regex, skip_patterns, alt_all. cbn [foldl].
  by rewrite !matches_at_alt.
Qed.

Lemma matches_r_digits ds :
  all_digits ds → ds ≠ [] →
  matches_at true (cat_all [Lit "."; Lit "r"; Plus Digit; Dollar])
    (dot :: "r"%char :: ds) = true.
Proof.
  intros Hds Hne. unfold matches_at.
  change (cat_all [Lit "."; Lit "r"; Plus Digit; Dollar])
    with (Cat (Lit ".") (Cat (Lit "r") (Cat (Plus Digit) (Cat Dollar Eps)))).
  rewrite !residuals_cat_lit. change (char_matches true "." dot) with true.
  change (char_matches true "r" "r") with true. cbv iota.
  pose proof (plus_digits_all ds Hds Hne) as Hin.
  apply list_elem_of_split in Hin as (l1 & l2 & Hin).
  cbn [residuals] in Hin |- *. rewrite Hin, flat_map_app. simpl.
  by destruct (flat_map _ l1).
Qed.

Lemma matches_three_digits d1 d2 d3 :
  all_digits [d1; d2; d3] →
  matches_at true (cat_all [Lit "."; Repeat 3 Digit; Dollar]) [dot; d1; d2; d3] = true.
Proof.
  intros Hds. apply Forall_cons in Hds as [H1 Hds].
  apply Forall_cons in Hds as [H2 Hds]. apply Forall_cons in Hds as [H3 _].
  unfold matches_at. simpl. rewrite H1. simpl. rewrite H2. simpl. by rewrite H3.
Qed.

Lemma matches_z_digits d1 d2 :
  all_digits [d1; d2] →
  matches_at true (cat_all [Lit "."; Lit "z"; Repeat 2 Digit; Dollar])
    [dot; "z"%char; d1; d2] = true.
Proof.
  intros Hds. apply Forall_cons in Hds as [H1 Hds]. apply Forall_cons in Hds as [H2 _].
  unfold matches_at. simpl. rewrite H1. simpl. by rewrite H2.
Qed.

(** Every name the specification describes as a split segment is matched
    by the skip pattern of the relocator. *)
Lemma described_segment_is_split_segment (file : string) :
  described_segment (of_string file) → is_split_segment file = true.
Proof.
  unfold is_split_segment. intros (pre & ds & Hds & H).
  apply search_spec. setoid_rewrite matches_at_skip_regex.
  destruct H as [(r & -> & Hr & Hne)|[[-> Hlen]|[(z & -> & Hz & Hlen)|(z & -> & Hz & Hlen)]]].
  - exists (lower pre), (dot :: "r"%char :: ds). split.
    { rewrite lower_app. simpl. rewrite Hr, (lower_digits ds) by done. reflexivity. }
    by rewrite matches_r_digits.
  - exists (lower pre), (dot :: ds). split.
    { rewrite lower_app. simpl. rewrite (lower_digits ds) by done. reflexivity. }
    destruct ds as [|d1 [|d2 [|d3 [|]]]]; try discriminate.
    rewrite matches_three_digits by done. by rewrite orb_true_r.
  - exists (lower pre), (dot :: "z"%char :: ds). split.
    { rewrite lower_app. simpl. rewrite Hz, (lower_digits ds) by done. reflexivity. }
    destruct ds as [|d1 [|d2 [|]]]; try discriminate.
    rewrite matches_z_digits by done. by rewrite !orb_true_r.
  - exists (lower (pre ++ [dot; "7"%char; z])), (dot :: ds). split.
    { rewrite !lower_app. simpl. rewrite (lower_digits ds) by done.
      rewrite <- app_assoc. reflexivity. }
    destruct ds as [|d1 [|d2 [|d3 [|]]]]; try discriminate.
    rewrite matches_three_digits by done. by rewrite orb_true_r.
Qed.
End NamingFacts.

(** * The classifier and the destination name *)

Section NamingClaims.
Import Text Re Paths Classifier Described FS World MultiPart Demo.
Local Open Scope string_scope.
Local Open Scope Z_scope.

(** The examples of the specification. *)
Lemma is_core_archive_examples :
  is_core_archive ["x.rar"] = true ∧ is_core_archive ["x.zip"] = true ∧
  is_core_archive ["x.7z"] = true ∧ is_core_archive ["x.7z.001"] = true ∧
  is_core_archive ["x.r01"] = false ∧ is_core_archive ["x.z02"] = false ∧
  is_core_archive ["x.7z.002"] = false.
Proof. repeat split; reflexivity. Qed.

Lemma is_split_segment_examples :
  is_split_segment "x.r00" = true ∧ is_split_segment "x.7z.003" = true ∧
  is_split_segment "x.txt" = false.
Proof. repeat split; reflexivity. Qed.

(** C5. The classifier accepts the name [x.7z.001] followed by a newline
    character, although that name ends with none of [.rar], [.zip], [.7z],
    [.7z.001]: the pattern [\.7z\.001$] also matches before a final
    newline.  (On names without a final newline the classifier is as
    described: [is_core_archive_described].) *)
Theorem is_core_archive_accepts_trailing_newline :
  is_core_archive ["src"; newline_name] = true ∧
  ¬ described_core (of_string newline_name).
Proof.
  split; [reflexivity|].
  unfold described_core. rewrite <- !endswith_lower.
  intros [H|[H|[H|H]]]; vm_compute in H; discriminate.
Qed.

Lemma is_core_archive_ignores_the_directory (dir1 dir2 : path) (file : string) :
  is_core_archive (child dir1 file) = is_core_archive (child dir2 file).
Proof.
  unfold is_core_archive, child, name. by rewrite !last_last.
Qed.

(** The claim of C8 as stated fails on a file named [.zip]: the classifier
    accepts it, and its stem, hence its destination folder, is [.zip]. *)
Lemma bare_suffix_is_not_stripped :
  is_core_archive ["src"; ".zip"] = true ∧
  of_string (stem ["src"; ".zip"])
    ≠ strip_recognized_suffix (of_string (name ["src"; ".zip"])) ∧
  stem ["src"; ".zip"] = ".zip" ∧
  strip_recognized_suffix (of_string (name ["src"; ".zip"])) = [] ∧
  ∃ st', main nested_env 2 (demo_args 0) (start dotfile_source) = Some (Val tt, st') ∧
         is_dir (fs st') ["out"; ".zip"] = true.
Proof.
  split; [reflexivity|]. split; [discriminate|].
  split; [reflexivity|]. split; [reflexivity|].
  eexists. split; [vm_compute; reflexivity|]. vm_compute. reflexivity.
Qed.

Section WithWorld.
Variable E : environment.

(** C8, amended. The destination folder of a top-level archive that is
    processed is [output / stem]: the file name up to its last dot.  For a
    name with one of the described endings this strips [.rar], [.zip],
    [.7z], and [.001] from [.7z.001]; a name that consists of the ending
    alone ([.rar], [.zip], [.7z]) is kept whole. *)
Theorem destination_folder_is_stem fuel a archive_path rest n st :
  negb (num_files a =? 0) && (num_files a <=? n) = false →
  exists_ (fs st) (child (output a) (stem archive_path)) = false →
  described_core (of_string (name archive_path)) →
  main_loop E fuel a (archive_path :: rest) n st =
    bind (process_archive E fuel a archive_path
            (child (output a) (stem archive_path)))
         (λ _, main_loop E fuel a rest (n + 1)) st ∧
  of_string (stem archive_path) =
    if bool_decide (lower (of_string (name archive_path))
                      ∈ [of_string ".rar"; of_string ".zip"; of_string ".7z"])
    then of_string (name archive_path)
    else strip_recognized_suffix (of_string (name archive_path)).
Proof.
  intros Hcap Hnew Hname. split.
  - simpl. rewrite Hcap. cbv [path_exists bind get_fs ret].
    by rewrite Hnew.
  - unfold stem. rewrite of_string_to_string. by apply stem_text_described.
Qed.
End WithWorld.

Lemma destination_folder_is_stem_witness :
  negb (num_files (demo_args 0) =? 0) && (num_files (demo_args 0) <=? 0) = false ∧
  exists_ dotfile_source (child (output (demo_args 0)) (stem ["src"; "movie.7z.001"]))
    = false ∧
  described_core (of_string (name ["src"; "movie.7z.001"])) ∧
  of_string (stem ["src"; "movie.7z.001"]) = of_string "movie.7z".
Proof.
  assert (H1 : negb (num_files (demo_args 0) =? 0)
               && (num_files (demo_args 0) <=? 0) = false) by reflexivity.
  assert (H2 : exists_ dotfile_source
                 (child (output (demo_args 0)) (stem ["src"; "movie.7z.001"])) = false)
    by (vm_compute; reflexivity).
  assert (H3 : described_core (of_string (name ["src"; "movie.7z.001"]))).
  { right. right. right. exists (of_string "movie"), (of_string ".7z.001").
    split; reflexivity. }
  split; [exact H1|]. split; [exact H2|]. split; [exact H3|].
  exact (proj2 (destination_folder_is_stem nested_env 2 (demo_args 0)
                  ["src"; "movie.7z.001"] [] 0 (start dotfile_source) H1 H2 H3)).
Defined.
End NamingClaims.

(** * The single-archive extractors *)

Section ExtractorClaims.
Import Text Paths Classifier FS World Demo.
Local Open Scope string_scope.
Local Open Scope Z_scope.

Section WithWorld.
Variable E : environment.

(** What one call of [extract_archive] of mass_extractor.py does. *)
Lemma mass_extract_archive_run archive t st :
  Mass.extract_archive E archive t st =
    match Mass.library_for archive with
    | None => Some (Val true, st)
    | Some lib =>
        let r := extractall E lib archive t (fs st) in
        let files := write_all t (extracted r) (fs st) in
        match failure r with
        | None => Some (Val true, {| fs := files; stdout := stdout st |})
        | Some msg =>
            Some (Val false,
                  {| fs := files;
                     stdout := stdout st ++ [MassError (name archive) (ArchiveError msg)] |})
        end
    end.
Proof.
  unfold Mass.extract_archive, Mass.library_for.
  cbv [try_except bind Mass.library_extractall get_fs update_fs ret raise print].
  repeat case_bool_decide; simpl.
  - by destruct (failure _).
  - by destruct (failure _).
  - by destruct st.
Qed.

(** C3, amended. [extract_archive] of multi_part_extractor.py returns no
    flag: for every archive and target it evaluates to [None], after
    printing an error line when the tool exits with a non-zero status; it
    never raises.  [extract_archive] of mass_extractor.py returns a
    boolean: [False], with an error line printed, exactly when the archive
    library raises, [True] otherwise; it never raises either. *)
Theorem extractors_report_failure_and_go_on archive t st :
  (∃ st', MultiPart.extract_archive E archive t st = Some (Val MultiPart.PyNone, st') ∧
     ∀ r, r = run_tool E (MultiPart.choose_command archive t) (mkdir_p (fs st) t) →
       (returncode r ≠ 0 ↔
        ErrorExtractionFailed archive (CalledProcessError (returncode r))
          ∈ drop (length (stdout st)) (stdout st'))) ∧
  (∃ b st', Mass.extract_archive E archive t st = Some (Val b, st') ∧
     (b = false ↔
      ∃ lib msg, Mass.library_for archive = Some lib ∧
                 failure (extractall E lib archive t (fs st)) = Some msg) ∧
     (b = false → ∃ e, MassError (name archive) e ∈ stdout st')).
Proof.
  split.
  - rewrite extract_archive_run. eexists. split; [done|].
    intros r ->. simpl. rewrite drop_app_length.
    destruct (Z.eqb_spec (returncode (run_tool E (MultiPart.choose_command archive t)
                                        (mkdir_p (fs st) t))) 0) as [Hrc|Hrc].
    + split; [done|]. intros [[=]|Hin%elem_of_nil]%elem_of_cons. done.
    + split; [|done]. intros _. right. by left.
  - rewrite mass_extract_archive_run.
    destruct (Mass.library_for archive) as [lib|].
    + simpl. destruct (failure (extractall E lib archive t (fs st))) as [msg|] eqn:Hf.
      * eexists _, _. split; [done|]. split.
        -- split; [|done]. intros _. by exists lib, msg.
        -- intros _. eexists. simpl. rewrite elem_of_app. right. by left.
      * eexists _, _. split; [done|]. split; [|done].
        split; [done|]. intros (lib' & msg & [= <-] & Hmsg). congruence.
    + eexists _, _. split; [done|]. split; [|done].
      split; [done|]. by intros (lib' & msg & [=] & _).
Qed.
End WithWorld.

(** The claim of C3 as stated fails for multi_part_extractor.py: where
    the tool exits with status 2, [extract_archive] does not return
    [False], nor any boolean. *)
Lemma extract_archive_returns_no_flag :
  returncode (run_tool failing_env (MultiPart.choose_command ["ws"; "a.zip"] ["out"])
                (mkdir_p nested_workspace ["out"])) = 2 ∧
  ¬ ∃ b st', MultiPart.extract_archive failing_env ["ws"; "a.zip"] ["out"]
               (start nested_workspace) = Some (Val (MultiPart.PyBool b), st').
Proof.
  split; [reflexivity|].
  intros (b & st' & H). rewrite extract_archive_run in H. discriminate.
Qed.
End ExtractorClaims.

(** * The payload relocator *)

Section RelocatorFacts.
Import Text Paths Classifier Described FS World MultiPart.
Local Open Scope monad_scope.
Variable E : environment.

Lemma for_each_invariant {X} (I : state → Prop) (l : list X) body :
  (∀ x st o st', x ∈ l → I st → body x st = Some (o, st') → I st') →
  ∀ st o st', I st → for_each l body st = Some (o, st') → I st'.
Proof.
  induction l as [|x l IH]; intros Hbody st o st' HI; simpl.
  - by intros [= <- <-].
  - intros [(a & st1 & H1 & H2)|(e & H1 & _)]%bind_inv.
    + eapply IH; [|by eapply (Hbody x); [left|..]|done].
      intros y st2 o2 st2' Hy. apply Hbody. by right.
    + eapply (Hbody x); [by left|done..].
Qed.

(** A loop that raises does so at one element, after the elements before
    it went through. *)
Lemma for_each_exn {X} (l : list X) body st e st' :
  for_each l body st = Some (Exn e, st') →
  ∃ l1 x l2 st1, l = l1 ++ x :: l2 ∧
    for_each l1 body st = Some (Val tt, st1) ∧ body x st1 = Some (Exn e, st').
Proof.
  revert st. induction l as [|x l IH]; intros st; simpl; [done|].
  intros [([] & st1 & H1 & H2)|(e' & H1 & [= <-])]%bind_inv.
  - destruct (IH _ H2) as (l1 & y & l2 & st2 & -> & Hl1 & Hy).
    exists (x :: l1), y, l2, st2. split; [done|]. split; [|done].
    simpl. by rewrite (bind_val _ _ _ _ _ H1).
  - by exists [], x, l, st.
Qed.

Lemma for_each_val_inv {X} (x : X) l body st st' :
  for_each (x :: l) body st = Some (Val tt, st') →
  ∃ st1, body x st = Some (Val tt, st1) ∧ for_each l body st1 = Some (Val tt, st').
Proof.
  simpl. intros [([] & st1 & H1 & H2)|(e & _ & [=])]%bind_inv. eauto.
Qed.

Lemma relocatable_spec p :
  relocatable p = true ↔ is_split_segment (name p) = false ∧ is_core_archive p = false.
Proof.
  unfold relocatable. rewrite andb_true_iff, !negb_true_iff. tauto.
Qed.

Lemma relocatable_false p :
  relocatable p = false ↔ is_split_segment (name p) = true ∨ is_core_archive p = true.
Proof.
  unfold relocatable. rewrite andb_false_iff, !negb_false_iff. tauto.
Qed.

(** A file that is not relocatable is left where it is. *)
Lemma move_one_skip dest p st o st' :
  relocatable p = false → move_one dest p st = Some (o, st') →
  o = Val tt ∧ fs st' = fs st ∧
  ∃ new, stdout st' = stdout st ++ new ∧ ∀ f t, InfoMoving f t ∉ new.
Proof.
  intros [Hs|Hc]%relocatable_false; unfold move_one.
  - rewrite Hs. intros [= <- <-]. split; [done|]. split; [done|].
    exists []. split; [by rewrite app_nil_r|]. intros f t. apply not_elem_of_nil.
  - rewrite Hc. destruct (is_split_segment (name p)).
    + intros [= <- <-]. split; [done|]. split; [done|].
      exists []. split; [by rewrite app_nil_r|]. intros f t. apply not_elem_of_nil.
    + intros [= <- <-]. split; [done|]. split; [done|].
      eexists. split; [done|]. intros f t [[=]|[]%elem_of_nil]%elem_of_cons.
Qed.

(** A relocatable file aimed at an existing directory [dest]: the move is
    refused when [dest / name] exists, and renames the file otherwise. *)
Lemma move_one_relocatable dest p st :
  relocatable p = true → is_dir (fs st) dest = true →
  let files := mkdir_p (fs st) (parent dest) in
  let out := stdout st ++ [InfoMoving p dest] in
  let real_dst := child dest (name p) in
  move_one dest p st =
    if exists_ files real_dst
    then Some (Exn (ShutilError real_dst), {| fs := files; stdout := out |})
    else match files !! p with
         | Some (File data) =>
             Some (Val tt, {| fs := <[real_dst := File data]> (delete p files);
                              stdout := out |})
         | _ => Some (Exn (FileNotFoundError p), {| fs := files; stdout := out |})
         end.
Proof.
  intros [Hs Hc]%relocatable_spec Hdir files out real_dst.
  unfold move_one. rewrite Hs, Hc.
  cbv [bind print mkdir_parents update_fs shutil_move get_fs raise]. simpl.
  fold files.
  assert (is_dir files dest = true) as ->.
  { apply is_dir_spec. unfold files. rewrite mkdir_p_keeps; [by apply is_dir_spec|].
    apply is_dir_spec in Hdir. by rewrite Hdir. }
  simpl. fold real_dst. destruct (exists_ files real_dst); [done|].
  by destruct (files !! p) as [[]|].
Qed.

Lemma total_move_one dest p : total (move_one dest p).
Proof.
  intros st. unfold move_one.
  cbv [bind print mkdir_parents update_fs shutil_move get_fs raise ret].
  repeat case_match; eauto.
Qed.

Lemma total_move_non_archives src dest : total (move_non_archives E src dest).
Proof.
  unfold move_non_archives, walk. apply total_bind.
  - apply total_bind; [intros st; unfold get_fs; eauto|].
    intros files st. unfold ret. eauto.
  - intros files. apply total_for_each, total_move_one.
Qed.

Lemma move_non_archives_run src dest st :
  move_non_archives E src dest st =
    for_each (os_walk_files (scandir_order E) (fs st) src) (move_one dest) st.
Proof. reflexivity. Qed.

Lemma child_ne_parent (dest : path) x : child dest x ≠ dest.
Proof.
  unfold child. intros H. apply (f_equal length) in H.
  rewrite length_app in H. simpl in H. lia.
Qed.

Lemma name_child (dest : path) x : name (child dest x) = x.
Proof. unfold name, child. apply last_last. Qed.
End RelocatorFacts.

Section RelocatorClaims.
Import Text Paths Classifier Described FS World MultiPart.
Local Open Scope monad_scope.
Variable E : environment.

Lemma move_one_stdout dest p st o st' :
  move_one dest p st = Some (o, st') →
  ∃ new, stdout st' = stdout st ++ new ∧
         ∀ f t, InfoMoving f t ∈ new → f = p ∧ relocatable p = true.
Proof.
  destruct (relocatable p) eqn:Hr.
  - apply relocatable_spec in Hr as [Hs Hc]. unfold move_one. rewrite Hs, Hc.
    cbv [bind print mkdir_parents update_fs shutil_move get_fs raise]. simpl.
    intros H. exists [InfoMoving p dest].
    split; [by repeat case_match; simplify_eq|].
    by intros f t [[= -> ->]|[]%elem_of_nil]%elem_of_cons.
  - intros H. destruct (move_one_skip dest p st o st' Hr H) as (_ & _ & new & Hnew & Hno).
    exists new. split; [done|]. intros f t Hin. by apply Hno in Hin.
Qed.

Lemma lookup_file_mkdir_p (m : filesystem) p q data :
  mkdir_p m p !! q = Some (File data) ↔ m !! q = Some (File data).
Proof.
  rewrite lookup_mkdir_p. destruct (m !! q); [done|].
  case_decide; split; intros; discriminate.
Qed.

Lemma relocation_invariant_step files0 listed dest x st o st' :
  x ∈ listed → relocation_invariant files0 listed dest st →
  move_one dest x st = Some (o, st') →
  relocation_invariant files0 listed dest st'.
Proof.
  intros Hx (Hdir & Hkeep & Hfrom) Hrun.
  destruct (relocatable x) eqn:Hr.
  2: { destruct (move_one_skip dest x st o st' Hr Hrun) as (_ & Hfs & _).
       unfold relocation_invariant. by rewrite Hfs. }
  rewrite move_one_relocatable in Hrun by done.
  set (files := mkdir_p (fs st) (parent dest)) in *.
  assert (relocation_invariant files0 listed dest
            {| fs := files; stdout := stdout st ++ [InfoMoving x dest] |}) as Hmk.
  { split; [|split]; simpl.
    - apply is_dir_spec. unfold files. rewrite mkdir_p_keeps; [by apply is_dir_spec|].
      apply is_dir_spec in Hdir. by rewrite Hdir.
    - intros p data Hp Hrp. by apply lookup_file_mkdir_p, Hkeep.
    - intros q data Hq%lookup_file_mkdir_p. by apply Hfrom. }
  destruct (exists_ files (child dest (name x))) eqn:Hex; [by simplify_eq|].
  destruct (files !! x) as [[data|]|] eqn:Hfx; [|by simplify_eq..].
  injection Hrun as <- <-. destruct Hmk as (Hdir1 & Hkeep1 & Hfrom1). simpl in *.
  assert (files !! child dest (name x) = None) as Hnone.
  { unfold exists_ in Hex. by destruct (files !! child dest (name x)). }
  split; [|split]; simpl.
  - apply is_dir_spec. apply is_dir_spec in Hdir1.
    rewrite lookup_insert_ne by (intros Heq; rewrite Heq in Hnone; congruence).
    rewrite lookup_delete_ne by congruence. done.
  - intros p d Hp Hrp. specialize (Hkeep1 p d Hp Hrp).
    rewrite lookup_insert_ne by congruence.
    rewrite lookup_delete_ne by congruence. done.
  - intros q d. rewrite lookup_insert. case_decide as Hq.
    + intros [= <-]. subst q. right.
      destruct (Hfrom1 x data Hfx) as [H0|(p & Hp & Hrp & H0 & Hxp)].
      * by exists x.
      * exists p. rewrite Hxp at 1. by rewrite name_child.
    + rewrite lookup_delete. case_decide; [done|]. apply Hfrom1.
Qed.

(** C4. The relocator always comes back, and whatever its outcome: each
    file it announces and hands to [shutil.move] is neither matched by the
    segment filter (hence has none of the described segment endings) nor
    classified core; and, the destination being a directory, every file
    matched by the filter or classified core keeps its place and content,
    while every file found elsewhere than before is a relocated payload
    file, directly under the destination. *)
Theorem relocator_never_moves_segment_or_core src dest st :
  ∃ o st', move_non_archives E src dest st = Some (o, st') ∧
    (∀ f t, InfoMoving f t ∈ drop (length (stdout st)) (stdout st') →
       is_split_segment (name f) = false ∧ is_core_archive f = false ∧
       ¬ described_segment (of_string (name f))) ∧
    (is_dir (fs st) dest = true →
       (∀ p data, fs st !! p = Some (File data) →
          is_split_segment (name p) = true ∨ is_core_archive p = true →
          fs st' !! p = Some (File data)) ∧
       (∀ q data, fs st' !! q = Some (File data) →
          fs st !! q = Some (File data) ∨
          ∃ p, below src p ∧ is_split_segment (name p) = false ∧
               is_core_archive p = false ∧
               fs st !! p = Some (File data) ∧ q = child dest (name p))).
Proof.
  destruct (total_move_non_archives E src dest st) as (o & st' & Hrun).
  exists o, st'. split; [done|]. rewrite move_non_archives_run in Hrun.
  set (listed := os_walk_files (scandir_order E) (fs st) src) in *.
  split.
  - assert (∃ new, stdout st' = stdout st ++ new ∧
              ∀ f t, InfoMoving f t ∈ new → relocatable f = true) as (new & -> & Hnew).
    { revert Hrun. apply for_each_invariant
        with (I := λ cur, ∃ new, stdout cur = stdout st ++ new ∧
                     ∀ f t, InfoMoving f t ∈ new → relocatable f = true).
      - intros x cur o' cur' _ (new & Hout & Hnew) Hstep.
        destruct (move_one_stdout dest x cur o' cur' Hstep) as (more & Hmore & Hm).
        exists (new ++ more). split; [by rewrite Hmore, Hout, app_assoc|].
        intros f t [Hin|Hin]%elem_of_app; [by eapply Hnew|].
        by destruct (Hm f t Hin) as [-> ?].
      - exists []. split; [by rewrite app_nil_r|]. by intros f t Hin%elem_of_nil. }
    rewrite drop_app_length. intros f t Hin.
    apply Hnew, relocatable_spec in Hin as [Hs Hc]. split; [done|]. split; [done|].
    intros Hd%described_segment_is_split_segment. congruence.
  - intros Hdir.
    assert (relocation_invariant (fs st) listed dest st') as (_ & Hkeep & Hfrom).
    { revert Hrun. apply for_each_invariant
        with (I := relocation_invariant (fs st) listed dest).
      - intros x cur o' cur' Hx. by apply relocation_invariant_step.
      - split; [done|]. split; [done|]. intros q data Hq. by left. }
    split.
    + intros p data Hp Hprot. apply Hkeep; [done|]. by apply relocatable_false.
    + intros q data Hq. destruct (Hfrom q data Hq) as [?|(p & Hp & Hrp & H0 & ->)];
        [by left|right].
      exists p. apply relocatable_spec in Hrp as [? ?].
      by apply elem_of_os_walk_files in Hp as [_ ?].
Qed.
End RelocatorClaims.

Section CollisionFacts.
Import Text Paths Classifier Described FS World MultiPart.
Local Open Scope monad_scope.
Variable E : environment.

(** One step of the relocator towards a directory [dest]: entries other
    than the file moved keep their node, entries directly under [dest] are
    never replaced, a successful move of a relocatable file fills a name
    that was free, and a refusal is the "already exists" error. *)
Lemma move_one_step dest f st o st' :
  is_dir (fs st) dest = true → move_one dest f st = Some (o, st') →
  is_dir (fs st') dest = true ∧
  (∀ g, g ≠ f ∨ o ≠ Val tt → is_Some (fs st !! g) → fs st' !! g = fs st !! g) ∧
  (∀ x, is_Some (fs st !! child dest x) →
        fs st' !! child dest x = fs st !! child dest x) ∧
  (o = Val tt → relocatable f = true →
     fs st !! child dest (name f) = None ∧ is_Some (fs st' !! child dest (name f))) ∧
  (∀ e, o = Exn e → is_file (fs st) f = true → e = ShutilError (child dest (name f))).
Proof.
  intros Hdir Hrun. destruct (relocatable f) eqn:Hr.
  2: { destruct (move_one_skip dest f st o st' Hr Hrun) as (-> & Hfs & _).
       rewrite Hfs. repeat split; try done. }
  rewrite move_one_relocatable in Hrun by done.
  set (files := mkdir_p (fs st) (parent dest)) in *.
  assert (∀ g, is_Some (fs st !! g) → files !! g = fs st !! g) as Hmk
    by (intros g Hg; by apply mkdir_p_keeps).
  assert (is_dir files dest = true) as Hdir1.
  { apply is_dir_spec. rewrite Hmk; [by apply is_dir_spec|].
    apply is_dir_spec in Hdir. by rewrite Hdir. }
  destruct (exists_ files (child dest (name f))) eqn:Hex.
  { injection Hrun as <- <-. simpl. repeat split; try done; auto. by intros e [= <-]. }
  assert (files !! child dest (name f) = None) as Hnone.
  { unfold exists_ in Hex. by destruct (files !! child dest (name f)). }
  assert (fs st !! child dest (name f) = None) as Hnone0.
  { destruct (fs st !! child dest (name f)) eqn:H0; [|done].
    rewrite Hmk in Hnone by (by rewrite H0). congruence. }
  destruct (files !! f) as [[data|]|] eqn:Hff.
  - injection Hrun as <- <-. simpl.
    assert (∀ g, g ≠ f → is_Some (fs st !! g) →
              <[child dest (name f) := File data]> (delete f files) !! g = fs st !! g)
      as Hother.
    { intros g Hg Hsome. rewrite lookup_insert_ne.
      - rewrite lookup_delete_ne by done. by apply Hmk.
      - intros <-. rewrite Hnone0 in Hsome. by destruct Hsome. }
    split; [|split; [|split; [|split]]].
    + apply is_dir_spec. apply is_dir_spec in Hdir. rewrite Hother; [done| |by rewrite Hdir].
      intros ->. apply is_dir_spec in Hdir1. congruence.
    + intros g [Hg|Hg] Hsome; [by apply Hother|done].
    + intros x Hsome. apply Hother; [|done]. intros Heq.
      rewrite <- Heq, name_child, Heq in Hnone. congruence.
    + intros _ _. split; [done|]. rewrite lookup_insert_eq. by eexists.
    + intros e [=].
  - injection Hrun as <- <-. simpl. repeat split; try done; auto.
    intros e [= <-] Hfile. apply is_file_spec in Hfile as [d Hd].
    rewrite Hmk in Hff by (by rewrite Hd). congruence.
  - injection Hrun as <- <-. simpl. repeat split; try done; auto.
    intros e [= <-] Hfile. apply is_file_spec in Hfile as [d Hd].
    rewrite Hmk in Hff by (by rewrite Hd). congruence.
Qed.

(** A run of the loop that goes through without an error. *)
Lemma relocate_all_val dest l st st' :
  is_dir (fs st) dest = true →
  for_each l (move_one dest) st = Some (Val tt, st') →
  is_dir (fs st') dest = true ∧
  (∀ g, g ∉ l → is_Some (fs st !! g) → fs st' !! g = fs st !! g) ∧
  (∀ x, is_Some (fs st !! child dest x) →
        fs st' !! child dest x = fs st !! child dest x) ∧
  (∀ f, f ∈ l → relocatable f = true → fs st !! child dest (name f) = None) ∧
  (∀ f g, f ∈ l → g ∈ l → relocatable f = true → relocatable g = true →
          name f = name g → f = g).
Proof.
  revert st. induction l as [|f l IH]; intros st Hdir Hrun.
  - injection Hrun as <-. repeat split; try done.
    + by intros f Hf%elem_of_nil.
    + by intros f g Hf%elem_of_nil.
  - apply for_each_val_inv in Hrun as (st1 & Hstep & Hrest).
    destruct (move_one_step dest f st _ st1 Hdir Hstep)
      as (Hdir1 & Hother & Hdest & Hfill & _).
    destruct (IH st1 Hdir1 Hrest) as (Hdir' & Hother' & Hdest' & Hfree' & Hdist').
    assert (∀ x, is_Some (fs st !! child dest x) → is_Some (fs st1 !! child dest x))
      as Hmono by (intros x Hx; by rewrite Hdest).
    split; [done|]. split; [|split; [|split]].
    + intros g Hg Hsome. apply not_elem_of_cons in Hg as [Hgf Hgl].
      rewrite Hother', Hother; auto. rewrite Hother; auto.
    + intros x Hsome. rewrite Hdest', Hdest; auto.
    + intros g [->|Hg]%elem_of_cons Hrg.
      * by apply Hfill.
      * specialize (Hfree' g Hg Hrg).
        destruct (fs st !! child dest (name g)) eqn:H0; [|done].
        destruct (Hmono (name g)) as [n' Hn']; [by rewrite H0|]. congruence.
    + assert (∀ g, g ∈ l → relocatable f = true → relocatable g = true →
                name f = name g → False) as Hhead.
      { intros g Hg Hrf Hrg Hname.
        destruct (Hfill eq_refl Hrf) as [_ [n Hn]].
        specialize (Hfree' g Hg Hrg). rewrite <- Hname in Hfree'. congruence. }
      intros a b [->|Ha]%elem_of_cons [->|Hb]%elem_of_cons Hra Hrb Hname.
      * done.
      * by destruct (Hhead b Hb Hra Hrb Hname).
      * by destruct (Hhead a Ha Hrb Hra (eq_sym Hname)).
      * by apply Hdist'.
Qed.
End CollisionFacts.

Section CollisionClaims.
Import Text Paths Classifier Described FS World MultiPart Demo.
Local Open Scope string_scope.

Section WithWorld.
Variable E : environment.

(** C10, amended. Two relocatable files below the workspace with the same
    name are aimed at the same path [dest / name], but the later one does
    not replace the earlier one: [dest] being a directory, [shutil.move]
    refuses a destination path that exists, so the relocator ends with
    that error, at least one of the two files is still in the workspace
    with its content, and no entry directly under [dest] was replaced. *)
Theorem same_name_collision_is_refused src dest st p1 p2 d1 d2 :
  is_dir (fs st) dest = true →
  p1 ≠ p2 → name p1 = name p2 →
  below src p1 → below src p2 →
  fs st !! p1 = Some (File d1) → fs st !! p2 = Some (File d2) →
  relocatable p1 = true → relocatable p2 = true →
  ∃ x st',
    move_non_archives E src dest st = Some (Exn (ShutilError (child dest x)), st') ∧
    (fs st' !! p1 = Some (File d1) ∨ fs st' !! p2 = Some (File d2)) ∧
    (∀ y n, fs st !! child dest y = Some n → fs st' !! child dest y = Some n).
Proof.
  intros Hdir Hne Hname Hb1 Hb2 Hf1 Hf2 Hr1 Hr2.
  destruct (total_move_non_archives E src dest st) as (o & st' & Hrun).
  rewrite Hrun. rewrite move_non_archives_run in Hrun.
  set (l := os_walk_files (scandir_order E) (fs st) src) in *.
  assert (p1 ∈ l) as Hin1
    by (apply elem_of_os_walk_files; split; [apply is_file_spec; eauto|done]).
  assert (p2 ∈ l) as Hin2
    by (apply elem_of_os_walk_files; split; [apply is_file_spec; eauto|done]).
  assert (NoDup l) as Hnd by apply NoDup_os_walk_files.
  destruct o as [[]|e].
  { destruct (relocate_all_val dest l st st' Hdir Hrun) as (_ & _ & _ & _ & Hdist).
    destruct Hne. by apply Hdist. }
  apply for_each_exn in Hrun as (l1 & f & l2 & st1 & Hl & Hl1 & Hstep).
  destruct (relocate_all_val dest l1 st st1 Hdir Hl1)
    as (Hdir1 & Hother1 & Hdest1 & _ & Hdist1).
  destruct (move_one_step dest f st1 _ st' Hdir1 Hstep)
    as (_ & Hother & Hdest & _ & Hexn).
  rewrite Hl in Hnd. apply NoDup_app in Hnd as (_ & Hdisj & _).
  assert (f ∉ l1) as Hfl1 by (intros Hf; apply (Hdisj f Hf); by left).
  assert (is_file (fs st) f = true) as Hff.
  { assert (f ∈ l) as Hf by (rewrite Hl, elem_of_app; right; by left).
    by apply elem_of_os_walk_files in Hf as [? _]. }
  assert (is_file (fs st1) f = true) as Hff1.
  { unfold is_file. rewrite Hother1; [done|done|].
    apply is_file_spec in Hff as [d ->]. by eexists. }
  rewrite (Hexn e eq_refl Hff1).
  exists (name f), st'. split; [done|]. split.
  - assert (∀ p d, p ∉ l1 → fs st !! p = Some (File d) → fs st' !! p = Some (File d))
      as Hstay.
    { intros p d Hp Hd. rewrite Hother; [|by right|].
      - rewrite Hother1; [done|done|by rewrite Hd].
      - rewrite Hother1; [by rewrite Hd|done|by rewrite Hd]. }
    destruct (decide (p1 ∈ l1)) as [H1|H1]; [|left; by apply Hstay].
    destruct (decide (p2 ∈ l1)) as [H2|H2]; [|right; by apply Hstay].
    destruct Hne. by apply Hdist1.
  - intros y n Hy. rewrite Hdest.
    + rewrite Hdest1; [done|by rewrite Hy].
    + rewrite Hdest1; by rewrite Hy.
Qed.
End WithWorld.

(** The claim of C10 as stated fails: of two files named [x.txt], the one
    listed later does not replace the one listed earlier.  The move of the
    later one is refused, the destination keeps the earlier content and
    the later file stays in the workspace. *)
Lemma later_file_does_not_replace_earlier :
  os_walk_files keep_order collision_workspace ["ws"]
    = [["ws"; "b"; "x.txt"]; ["ws"; "a"; "x.txt"]] ∧
  ∃ st', move_non_archives failing_env ["ws"] ["out"] (start collision_workspace)
           = Some (Exn (ShutilError ["out"; "x.txt"]), st') ∧
         fs st' !! ["out"; "x.txt"] = Some (File "listed first") ∧
         fs st' !! ["out"; "x.txt"] ≠ Some (File "listed second") ∧
         fs st' !! ["ws"; "a"; "x.txt"] = Some (File "listed second").
Proof.
  split; [vm_compute; reflexivity|].
  eexists. split; [vm_compute; reflexivity|].
  split; [vm_compute; reflexivity|]. split; [vm_compute; discriminate|].
  vm_compute; reflexivity.
Qed.

Lemma same_name_collision_is_refused_witness :
  is_dir collision_workspace ["out"] = true ∧
  ["ws"; "a"; "x.txt"] ≠ ["ws"; "b"; "x.txt"] ∧
  name ["ws"; "a"; "x.txt"] = name ["ws"; "b"; "x.txt"] ∧
  below ["ws"] ["ws"; "a"; "x.txt"] ∧ below ["ws"] ["ws"; "b"; "x.txt"] ∧
  collision_workspace !! ["ws"; "a"; "x.txt"] = Some (File "listed second") ∧
  collision_workspace !! ["ws"; "b"; "x.txt"] = Some (File "listed first") ∧
  relocatable ["ws"; "a"; "x.txt"] = true ∧ relocatable ["ws"; "b"; "x.txt"] = true ∧
  ∃ x st',
    move_non_archives failing_env ["ws"] ["out"] (start collision_workspace)
      = Some (Exn (ShutilError (child ["out"] x)), st').
Proof.
  assert (H1 : is_dir collision_workspace ["out"] = true) by (vm_compute; reflexivity).
  assert (H2 : ["ws"; "a"; "x.txt"] ≠ ["ws"; "b"; "x.txt"]) by discriminate.
  assert (H3 : name ["ws"; "a"; "x.txt"] = name ["ws"; "b"; "x.txt"]) by reflexivity.
  assert (H4 : below ["ws"] ["ws"; "a"; "x.txt"])
    by (exists ["a"; "x.txt"]; split; [discriminate|reflexivity]).
  assert (H5 : below ["ws"] ["ws"; "b"; "x.txt"])
    by (exists ["b"; "x.txt"]; split; [discriminate|reflexivity]).
  assert (H6 : collision_workspace !! ["ws"; "a"; "x.txt"] = Some (File "listed second"))
    by (vm_compute; reflexivity).
  assert (H7 : collision_workspace !! ["ws"; "b"; "x.txt"] = Some (File "listed first"))
    by (vm_compute; reflexivity).
  assert (H8 : relocatable ["ws"; "a"; "x.txt"] = true) by reflexivity.
  assert (H9 : relocatable ["ws"; "b"; "x.txt"] = true) by reflexivity.
  do 9 (split; [assumption|]).
  destruct (same_name_collision_is_refused failing_env ["ws"] ["out"]
              (start collision_workspace) _ _ _ _ H1 H2 H3 H4 H5 H6 H7 H8 H9)
    as (x & st' & Hrun & _).
  by exists x, st'.
Defined.
End CollisionClaims.

Section RelocatorWitness.
Import Text Paths Classifier Described FS World MultiPart Demo.
Local Open Scope string_scope.

Lemma relocator_never_moves_segment_or_core_witness :
  is_dir leftover_workspace ["out"] = true ∧
  ∃ o st', move_non_archives nested_env ["ws"] ["out"] (start leftover_workspace)
             = Some (o, st') ∧
    fs st' !! ["ws"; "part.r01"] = Some (File "segment") ∧
    fs st' !! ["ws"; "inner.zip"] = Some (File "zip of b.rar").
Proof.
  assert (H : is_dir leftover_workspace ["out"] = true) by (vm_compute; reflexivity).
  split; [exact H|].
  destruct (relocator_never_moves_segment_or_core nested_env ["ws"] ["out"]
              (start leftover_workspace)) as (o & st' & Hrun & _ & Hfs).
  destruct (Hfs H) as [Hkeep _].
  exists o, st'. split; [exact Hrun|]. split.
  - apply Hkeep; [vm_compute; reflexivity|left; reflexivity].
  - apply Hkeep; [vm_compute; reflexivity|right; reflexivity].
Defined.
End RelocatorWitness.

(** * The batch orchestrator *)

Section FrameFacts.
Import Text Paths Classifier Described FS World MultiPart.
Local Open Scope monad_scope.
Variable E : environment.
Variables tmp output : path.

#[global] Instance frame_preorder : PreOrder (frame tmp output).
Proof.
  split.
  - intros m. by split.
  - intros m1 m2 m3 [H1 H2] [H3 H4]. split.
    + intros q Hq Hs. by apply H3, H1.
    + intros q Hq Ho. by rewrite H4, H2.
Qed.

Lemma frame_mkdir_p m p : frame tmp output m (mkdir_p m p).
Proof.
  split.
  - intros q _ Hs. by rewrite mkdir_p_keeps.
  - intros q _ _. apply is_file_mkdir_p.
Qed.

Lemma frame_write_all m t files :
  tmp `prefix_of` t ∨ output `prefix_of` t → frame tmp output m (write_all t files m).
Proof.
  intros Ht. split.
  - intros q _ Hs. apply exists_spec, write_all_exists_mono. by apply exists_spec.
  - intros q Hq Ho. apply is_file_write_all_outside. intros Htq.
    destruct Ht as [Ht|Ht]; [apply Hq|apply Ho]; by etransitivity.
Qed.

Lemma frame_delete m p : tmp `prefix_of` p → frame tmp output m (delete p m).
Proof.
  intros Hp. split.
  - intros q Hq Hs. rewrite lookup_delete_ne; [done|]. by intros ->.
  - intros q Hq _. unfold is_file. rewrite lookup_delete_ne; [done|]. by intros ->.
Qed.

Lemma frame_rmtree m : frame tmp output m (rmtree m tmp).
Proof.
  split.
  - intros q Hq Hs. by rewrite lookup_rmtree, decide_False.
  - intros q Hq _. unfold is_file. by rewrite lookup_rmtree, decide_False.
Qed.

Lemma frame_rename m src dst n :
  tmp `prefix_of` src → tmp `prefix_of` dst ∨ output `prefix_of` dst →
  frame tmp output m (<[dst := n]> (delete src m)).
Proof.
  intros Hsrc Hdst. split.
  - intros q Hq Hs. rewrite lookup_insert. case_decide; [by eexists|].
    rewrite lookup_delete_ne; [done|]. by intros ->.
  - intros q Hq Ho. unfold is_file. rewrite lookup_insert_ne.
    + rewrite lookup_delete_ne; [done|]. by intros ->.
    + intros ->. by destruct Hdst.
Qed.

Abbreviation stable := (always (on_fs (frame tmp output))).

Lemma always_bind_post {A B} (R : relation state) `{!PreOrder R}
    (P : A → Prop) (m : M A) (k : A → M B) :
  always R m → (∀ st a st1, m st = Some (Val a, st1) → P a) →
  (∀ a, P a → always R (k a)) → always R (bind m k).
Proof.
  intros Hm HP Hk st o st' [(a & st1 & H1 & H2)|(e & H1 & _)]%bind_inv.
  - etransitivity; [by eapply Hm|]. eapply Hk; [by eapply HP|done].
  - by eapply Hm.
Qed.

Lemma stable_print l : stable (print l).
Proof. apply always_print. apply _. Qed.

Lemma stable_mkdir_parents p : stable (mkdir_parents p).
Proof. apply always_update_fs. intros m. apply frame_mkdir_p. Qed.

Lemma stable_extract_archive archive t :
  tmp `prefix_of` t ∨ output `prefix_of` t → stable (extract_archive E archive t).
Proof.
  intros Ht st o st'. rewrite extract_archive_run. intros [= <- <-].
  unfold on_fs. simpl. etransitivity; [apply frame_mkdir_p|by apply frame_write_all].
Qed.

Lemma stable_unlink p : tmp `prefix_of` p → stable (unlink E p).
Proof.
  intros Hp st o st'. cbv [unlink bind get_fs update_fs raise].
  repeat case_match; intros [= <- <-]; unfold on_fs; simpl;
    (reflexivity || by apply frame_delete).
Qed.

Lemma stable_resolve_one dest archive :
  output `prefix_of` dest → tmp `prefix_of` archive →
  stable (resolve_one E dest archive).
Proof.
  intros Hd Ha. unfold resolve_one. apply always_bind; [apply _|..].
  - apply stable_extract_archive. by right.
  - intros _. apply always_try_except; [apply _|by apply stable_unlink|].
    intros e handler [= <-]. apply stable_print.
Qed.

Lemma stable_resolve_all dest l flag :
  output `prefix_of` dest → (∀ p, p ∈ l → tmp `prefix_of` p) →
  stable (resolve_all E dest l flag).
Proof.
  intros Hd. revert flag. induction l as [|p l IH]; intros flag Hl; simpl.
  - apply always_ret. apply _.
  - apply always_bind; [apply _|..].
    + apply stable_resolve_one; [done|]. apply Hl. by left.
    + intros _. apply IH. intros q Hq. apply Hl. by right.
Qed.

Lemma stable_recursively_extract fuel dest :
  output `prefix_of` dest → stable (recursively_extract E fuel tmp dest).
Proof.
  intros Hd. unfold recursively_extract. generalize true.
  induction fuel as [|fuel IH]; intros flag; simpl.
  - destruct flag; [apply always_diverge|apply always_ret; apply _].
  - destruct flag; [|apply always_ret; apply _].
    apply always_bind_post
      with (P := λ l : list path, ∀ p, p ∈ l → tmp `prefix_of` p); [apply _|..].
    + intros st o st'. rewrite scan_run. intros [= <- <-]. reflexivity.
    + intros st l st1. rewrite scan_run. intros [= <- <-] p Hp.
      apply elem_of_core_archives_below in Hp as (_ & Hb & _).
      by apply below_prefix.
    + intros [|a l] Hl; [apply always_ret; apply _|].
      apply always_bind; [apply _|by apply stable_resolve_all|].
      intros again. apply IH.
Qed.

Lemma stable_move_one dest p :
  output `prefix_of` dest → tmp `prefix_of` p → stable (move_one dest p).
Proof.
  intros Hd Hp st o st'. unfold move_one.
  cbv [bind print mkdir_parents update_fs shutil_move get_fs raise ret]. simpl.
  repeat case_match; intros [= <- <-]; unfold on_fs; simpl;
    try reflexivity; try apply frame_mkdir_p.
  all: etransitivity; [apply frame_mkdir_p|]; apply frame_rename; [done|right].
  all: unfold child; try done; by apply prefix_app_r.
Qed.

Lemma stable_move_non_archives dest :
  output `prefix_of` dest → stable (move_non_archives E tmp dest).
Proof.
  intros Hd st o st'. rewrite move_non_archives_run.
  apply always_for_each; [apply _|]. intros p Hp.
  apply stable_move_one; [done|].
  apply elem_of_os_walk_files in Hp as [_ Hb]. by apply below_prefix.
Qed.
End FrameFacts.

Section OrchestratorFacts.
Import Text Paths Classifier Described FS World MultiPart.
Local Open Scope monad_scope.
Variable E : environment.

(** Steps 2 to 5 of [main] for one archive, once the workspace is reset
    and the destination folder made. *)
Lemma process_archive_run fuel a archive_path dest_folder st :
  process_archive E fuel a archive_path dest_folder st =
    (extract_archive E archive_path (tmp_dir a) ;;
     recursively_extract E fuel (tmp_dir a) dest_folder ;;
     move_non_archives E (tmp_dir a) dest_folder ;;
     update_fs (λ m, rmtree m (tmp_dir a)))
      {| fs := mkdir_p
                 (mkdir_p (if exists_ (fs st) (tmp_dir a)
                           then rmtree (fs st) (tmp_dir a) else fs st)
                    (tmp_dir a))
                 dest_folder;
         stdout := stdout st ++ [InfoProcessing (name archive_path)] |}.
Proof.
  unfold process_archive.
  cbv [bind print path_exists get_fs ret mkdir_parents update_fs]. simpl.
  by destruct (exists_ (fs st) (tmp_dir a)).
Qed.

Lemma stable_process_archive fuel a archive_path dest_folder :
  output a `prefix_of` dest_folder →
  always (on_fs (frame (tmp_dir a) (output a)))
    (process_archive E fuel a archive_path dest_folder).
Proof.
  intros Hd st o st'. rewrite process_archive_run. intros Hrun.
  assert (frame (tmp_dir a) (output a) (fs st)
            (mkdir_p (mkdir_p (if exists_ (fs st) (tmp_dir a)
                               then rmtree (fs st) (tmp_dir a) else fs st)
                        (tmp_dir a)) dest_folder)) as Hprep.
  { etransitivity; [|apply frame_mkdir_p]. etransitivity; [|apply frame_mkdir_p].
    destruct (exists_ (fs st) (tmp_dir a)); [apply frame_rmtree|reflexivity]. }
  unfold on_fs. etransitivity; [exact Hprep|].
  revert Hrun. generalize (stdout st ++ [InfoProcessing (name archive_path)]).
  intros out Hrun.
  assert (always (on_fs (frame (tmp_dir a) (output a)))
            (extract_archive E archive_path (tmp_dir a) ;;
             recursively_extract E fuel (tmp_dir a) dest_folder ;;
             move_non_archives E (tmp_dir a) dest_folder ;;
             update_fs (λ m, rmtree m (tmp_dir a)))) as Hrest.
  { apply always_bind; [apply _|apply stable_extract_archive; by left|].
    intros _. apply always_bind; [apply _|by apply stable_recursively_extract|].
    intros _. apply always_bind; [apply _|by apply stable_move_non_archives|].
    intros _. apply always_update_fs. intros m. apply frame_rmtree. }
  apply (Hrest _ _ _ Hrun).
Qed.

Lemma prefix_child_inv (t d : path) x :
  t `prefix_of` child d x → t `prefix_of` d ∨ t = child d x.
Proof.
  unfold child. intros [k Hk].
  destruct k as [|y k _] using rev_ind.
  - right. by rewrite app_nil_r in Hk.
  - left. rewrite app_assoc in Hk. apply app_inj_tail in Hk as [-> _]. by exists k.
Qed.

Lemma apart_child (t d : path) x :
  ¬ t `prefix_of` d → ¬ d `prefix_of` t → ¬ t `prefix_of` child d x.
Proof.
  intros H1 H2 [H| ->]%prefix_child_inv; [done|]. apply H2. by exists [x].
Qed.

(** A processed archive leaves its destination folder behind. *)
Lemma process_archive_marks fuel a archive_path dest_folder st o st' :
  output a `prefix_of` dest_folder → ¬ tmp_dir a `prefix_of` dest_folder →
  dest_folder ≠ [] →
  process_archive E fuel a archive_path dest_folder st = Some (o, st') →
  exists_ (fs st') dest_folder = true.
Proof.
  intros Hd Hapart Hne. rewrite process_archive_run. intros Hrun.
  assert (always (on_fs (frame (tmp_dir a) (output a)))
            (extract_archive E archive_path (tmp_dir a) ;;
             recursively_extract E fuel (tmp_dir a) dest_folder ;;
             move_non_archives E (tmp_dir a) dest_folder ;;
             update_fs (λ m, rmtree m (tmp_dir a)))) as Hrest.
  { apply always_bind; [apply _|apply stable_extract_archive; by left|].
    intros _. apply always_bind; [apply _|by apply stable_recursively_extract|].
    intros _. apply always_bind; [apply _|by apply stable_move_non_archives|].
    intros _. apply always_update_fs. intros m. apply frame_rmtree. }
  destruct (Hrest _ _ _ Hrun) as [Hkeep _]. simpl in Hkeep.
  apply exists_spec, Hkeep; [done|]. apply exists_spec. by apply exists_mkdir_p.
Qed.

Lemma stable_main_loop fuel a l n :
  always (on_fs (frame (tmp_dir a) (output a))) (main_loop E fuel a l n).
Proof.
  revert n. induction l as [|p l IH]; intros n; simpl.
  - apply always_ret. apply _.
  - case_match.
    + apply always_bind; [apply _|apply stable_print|].
      intros _. apply always_ret. apply _.
    + apply always_bind; [apply _|..].
      * intros st o st' [= <- <-]. reflexivity.
      * intros [].
        -- apply always_bind; [apply _|apply stable_print|]. intros _. apply IH.
        -- apply always_bind; [apply _|..]; [|intros _; apply IH].
           apply stable_process_archive. unfold child. by apply prefix_app_r.
Qed.

(** An uncapped run that comes back normally leaves a destination folder
    for every archive of its list. *)
Lemma main_loop_marks fuel a l n st n' st' :
  num_files a = 0 →
  ¬ tmp_dir a `prefix_of` output a → ¬ output a `prefix_of` tmp_dir a →
  main_loop E fuel a l n st = Some (Val n', st') →
  ∀ p, p ∈ l → exists_ (fs st') (child (output a) (stem p)) = true.
Proof.
  intros Hcap H1 H2. revert n st.
  induction l as [|p l IH]; intros n st Hrun q Hq; [by apply elem_of_nil in Hq|].
  simpl in Hrun. rewrite Hcap in Hrun. simpl in Hrun.
  apply bind_inv in Hrun as [(there & st1 & Hthere & Hrun)|(e & _ & [=])].
  injection Hthere as <- <-.
  assert (∀ s o s', main_loop E fuel a l o s = Some (Val n', s') →
            exists_ (fs s) (child (output a) (stem p)) = true →
            exists_ (fs s') (child (output a) (stem p)) = true) as Hkept.
  { intros s o s' Hs Hex. destruct (stable_main_loop fuel a l o _ _ _ Hs) as [Hk _].
    apply exists_spec, Hk; [by apply apart_child|by apply exists_spec]. }
  destruct (exists_ (fs st) (child (output a) (stem p))) eqn:Hex.
  - apply bind_inv in Hrun as [([] & st1 & Hpr & Hrun)|(e & _ & [=])].
    injection Hpr as <-.
    apply elem_of_cons in Hq as [->|Hq]; [|by eapply IH].
    by eapply Hkept.
  - apply bind_inv in Hrun as [([] & st1 & Hproc & Hrun)|(e & _ & [=])].
    apply elem_of_cons in Hq as [->|Hq]; [|by eapply IH].
    eapply Hkept; [done|].
    eapply process_archive_marks; [| |by destruct (output a)|done].
    + unfold child. by apply prefix_app_r.
    + by apply apart_child.
Qed.

(** When every archive of the list has its destination folder, the loop
    touches nothing and counts nothing. *)
Lemma main_loop_all_skipped fuel a l n st :
  (∀ p, p ∈ l → exists_ (fs st) (child (output a) (stem p)) = true) →
  ∃ out, main_loop E fuel a l n st
           = Some (Val n, {| fs := fs st; stdout := stdout st ++ out |}) ∧
         ∀ x, x ∈ out → (∃ p, p ∈ l ∧ x = InfoSkippingProcessed (name p)) ∨
                         (x = InfoReachedLimit (num_files a) ∧ num_files a ≠ 0).
Proof.
  revert st. induction l as [|p l IH]; intros st Hall; simpl.
  - exists []. rewrite app_nil_r. split; [by destruct st|].
    by intros x Hx%elem_of_nil.
  - destruct (negb (num_files a =? 0) && (num_files a <=? n)) eqn:Hcap.
    + exists [InfoReachedLimit (num_files a)]. split; [done|].
      intros x [->|Hx%elem_of_nil]%elem_of_cons; [|done]. right. split; [done|].
      apply andb_true_iff in Hcap as [Hc _]. apply negb_true_iff in Hc. lia.
    + cbv [bind path_exists get_fs ret print]. rewrite Hall by by left.
      destruct (IH {| fs := fs st;
                      stdout := stdout st ++ [InfoSkippingProcessed (name p)] |})
        as (out & Hrun & Hout).
      { intros q Hq. apply Hall. by right. }
      exists (InfoSkippingProcessed (name p) :: out). split.
      * simpl in Hrun. rewrite Hrun. simpl. by rewrite <- app_assoc.
      * intros x [->|Hx]%elem_of_cons.
        -- left. exists p. split; [by left|done].
        -- destruct (Hout x Hx) as [(q & Hq & ->)|?]; [|by right].
           left. exists q. split; [by right|done].
Qed.
End OrchestratorFacts.

Section OrchestratorClaims.
Import Text Paths Classifier Described FS World MultiPart.
Local Open Scope monad_scope.
Variable E : environment.

Lemma mkdir_p_noop (m : filesystem) p :
  (∀ q, q ≠ [] → q `prefix_of` p → is_Some (m !! q)) → mkdir_p m p = m.
Proof.
  intros Hall. apply map_eq. intros q. rewrite lookup_mkdir_p.
  destruct (m !! q) eqn:Hq; [done|]. case_decide as Hin; [|done].
  apply elem_of_ancestors_and_self in Hin as [Hne Hpre].
  destruct (Hall q Hne Hpre) as [n Hn]. unfold path in *. congruence.
Qed.

Lemma mkdir_p_ancestor (m : filesystem) (p q : path) :
  q ≠ [] → q `prefix_of` p → is_Some (mkdir_p m p !! q).
Proof.
  intros Hne Hq. rewrite lookup_mkdir_p. destruct (m !! q); [by eexists|].
  rewrite decide_True; [by eexists|]. by apply elem_of_ancestors_and_self.
Qed.

Lemma elem_of_top_level_archives (m : filesystem) dir p :
  p ∈ top_level_archives E m dir ↔
  is_file m p = true ∧ is_core_archive p = true ∧ parent p = dir ∧ p ≠ [].
Proof.
  unfold top_level_archives.
  rewrite list_elem_of_In, filter_In, <- list_elem_of_In, elem_of_iterdir,
    andb_true_iff.
  split; [tauto|]. intros (Hf & Hc & Hp & Hne). split; [|done]. split; [|done].
  apply is_file_spec in Hf as [d ->]. by eexists.
Qed.

Lemma main_run fuel a st :
  main E fuel a st =
    (processed_count <-
       main_loop E fuel a
         (top_level_archives E (mkdir_p (fs st) (output a)) (folder a)) 0 ;;
     print (InfoDone processed_count))
      {| fs := mkdir_p (fs st) (output a); stdout := stdout st |}.
Proof. reflexivity. Qed.

(** C6. The destination folder is the completion marker.  (1) An archive
    whose destination folder exists when its turn comes is skipped: the
    loop prints the skip line and goes on with the same count and the same
    file system.  (2) From any state in which every top-level archive of
    the source has its destination folder, a run processes nothing: it
    returns with the count 0, prints only skip lines (or the limit line)
    and leaves the file system as it is, the output folder apart.  (3) In
    particular a second run right after an uncapped run that came back
    normally processes nothing, when the source, the output root and the
    scratch directory lie apart from one another. *)
Theorem rerun_processes_nothing fuel a :
  (∀ st archive_path rest n,
     negb (num_files a =? 0) && (num_files a <=? n) = false →
     exists_ (fs st) (child (output a) (stem archive_path)) = true →
     main_loop E fuel a (archive_path :: rest) n st =
       main_loop E fuel a rest n
         {| fs := fs st;
            stdout := stdout st ++ [InfoSkippingProcessed (name archive_path)] |}) ∧
  (∀ st,
     (∀ p, p ∈ top_level_archives E (mkdir_p (fs st) (output a)) (folder a) →
           exists_ (fs st) (child (output a) (stem p)) = true) →
     ∃ out,
       main E fuel a st
         = Some (Val tt, {| fs := mkdir_p (fs st) (output a);
                            stdout := stdout st ++ out ++ [InfoDone 0] |}) ∧
       ∀ x, x ∈ out → (∃ p, x = InfoSkippingProcessed (name p)) ∨
                       x = InfoReachedLimit (num_files a)) ∧
  (∀ fuel0 st0 st1,
     num_files a = 0 →
     ¬ tmp_dir a `prefix_of` output a → ¬ output a `prefix_of` tmp_dir a →
     ¬ tmp_dir a `prefix_of` folder a → ¬ folder a `prefix_of` tmp_dir a →
     ¬ output a `prefix_of` folder a → ¬ folder a `prefix_of` output a →
     main E fuel0 a st0 = Some (Val tt, st1) →
     ∃ out,
       main E fuel a st1
         = Some (Val tt, {| fs := fs st1; stdout := stdout st1 ++ out ++ [InfoDone 0] |}) ∧
       ∀ x, x ∈ out → ∃ p, x = InfoSkippingProcessed (name p)).
Proof.
  assert (∀ st,
     (∀ p, p ∈ top_level_archives E (mkdir_p (fs st) (output a)) (folder a) →
           exists_ (fs st) (child (output a) (stem p)) = true) →
     ∃ out,
       main E fuel a st
         = Some (Val tt, {| fs := mkdir_p (fs st) (output a);
                            stdout := stdout st ++ out ++ [InfoDone 0] |}) ∧
       ∀ x, x ∈ out → (∃ p, x = InfoSkippingProcessed (name p)) ∨
                       (x = InfoReachedLimit (num_files a) ∧ num_files a ≠ 0))
    as Hmarker.
  { intros st Hall. rewrite main_run.
    destruct (main_loop_all_skipped E fuel a
                (top_level_archives E (mkdir_p (fs st) (output a)) (folder a)) 0
                {| fs := mkdir_p (fs st) (output a); stdout := stdout st |})
      as (out & Hrun & Hout).
    { intros p Hp. simpl. by apply mkdir_p_exists_mono, Hall. }
    exists out. split.
    - rewrite (bind_val _ _ _ _ _ Hrun). unfold print. simpl.
      by rewrite <- app_assoc.
    - intros x Hx. destruct (Hout x Hx) as [(p & _ & ->)|?]; [left; by exists p|by right]. }
  split.
  { intros st archive_path rest n Hcap Hthere. simpl. rewrite Hcap.
    cbv [bind path_exists get_fs ret print]. by rewrite Hthere. }
  split.
  { intros st Hall. destruct (Hmarker st Hall) as (out & Hrun & Hout).
    exists out. split; [done|]. intros x Hx.
    destruct (Hout x Hx) as [?|[? _]]; [by left|by right]. }
  intros fuel0 st0 st1 Hcap Hto Hot Htf Hft Hof Hfo Hfirst.
  rewrite main_run in Hfirst.
  apply bind_inv in Hfirst as [(n1 & s1 & Hloop & Hdone)|(e & _ & [=])].
  injection Hdone as <-.
  set (l1 := top_level_archives E (mkdir_p (fs st0) (output a)) (folder a)) in *.
  pose proof (main_loop_marks E fuel0 a l1 0 _ n1 s1 Hcap Hto Hot Hloop) as Hmarks.
  destruct (stable_main_loop E fuel0 a l1 0 _ _ _ Hloop) as [Hkeep Hsame].
  simpl in Hkeep, Hsame.
  assert (mkdir_p (fs s1) (output a) = fs s1) as Hnoop.
  { apply mkdir_p_noop. intros q Hne Hq. apply Hkeep.
    - intros Htq. apply Hto. by etransitivity.
    - by apply mkdir_p_ancestor. }
  destruct (Hmarker {| fs := fs s1; stdout := stdout s1 ++ [InfoDone n1] |})
    as (out & Hrun & Hout).
  { simpl. rewrite Hnoop. intros p Hp. apply Hmarks.
    apply elem_of_top_level_archives in Hp as (Hf & Hc & Hpar & Hne).
    apply elem_of_top_level_archives. split; [|done].
    assert (p = child (folder a) (name p)) as Hp.
    { rewrite <- Hpar. unfold child, parent, name.
      by apply app_removelast_last. }
    rewrite <- Hsame; [done|rewrite Hp; by apply apart_child..]. }
  simpl in Hrun. rewrite Hnoop in Hrun.
  exists out. split; [done|]. intros x Hx.
  destruct (Hout x Hx) as [?|[_ ?]]; [done|congruence].
Qed.
End OrchestratorClaims.

Section OrchestratorWitness.
Import Text Paths Classifier Described FS World MultiPart Demo.
Local Open Scope string_scope.
Local Open Scope Z_scope.

Lemma rerun_processes_nothing_witness :
  num_files (demo_args 0) = 0 ∧
  (¬ tmp_dir (demo_args 0) `prefix_of` output (demo_args 0)) ∧
  (¬ output (demo_args 0) `prefix_of` tmp_dir (demo_args 0)) ∧
  (¬ tmp_dir (demo_args 0) `prefix_of` folder (demo_args 0)) ∧
  (¬ folder (demo_args 0) `prefix_of` tmp_dir (demo_args 0)) ∧
  (¬ output (demo_args 0) `prefix_of` folder (demo_args 0)) ∧
  (¬ folder (demo_args 0) `prefix_of` output (demo_args 0)) ∧
  main nested_env 3 (demo_args 0) (start batch_source)
    = Some (Val tt, batch_after_first_run) ∧
  (∀ p, p ∈ top_level_archives nested_env
               (mkdir_p (fs batch_after_first_run) (output (demo_args 0)))
               (folder (demo_args 0)) →
        exists_ (fs batch_after_first_run) (child (output (demo_args 0)) (stem p))
          = true) ∧
  (∃ out,
    main nested_env 3 (demo_args 0) batch_after_first_run
      = Some (Val tt, {| fs := fs batch_after_first_run;
                         stdout := stdout batch_after_first_run ++ out ++ [InfoDone 0] |})) ∧
  ∃ out,
    main nested_env 3 (demo_args 0) batch_after_first_run
      = Some (Val tt, {| fs := mkdir_p (fs batch_after_first_run) (output (demo_args 0));
                         stdout := stdout batch_after_first_run ++ out ++ [InfoDone 0] |}).
Proof.
  assert (H0 : num_files (demo_args 0) = 0) by reflexivity.
  assert (H1 : ¬ tmp_dir (demo_args 0) `prefix_of` output (demo_args 0))
    by (intros [k Hk]; discriminate).
  assert (H2 : ¬ output (demo_args 0) `prefix_of` tmp_dir (demo_args 0))
    by (intros [k Hk]; discriminate).
  assert (H3 : ¬ tmp_dir (demo_args 0) `prefix_of` folder (demo_args 0))
    by (intros [k Hk]; discriminate).
  assert (H4 : ¬ folder (demo_args 0) `prefix_of` tmp_dir (demo_args 0))
    by (intros [k Hk]; discriminate).
  assert (H5 : ¬ output (demo_args 0) `prefix_of` folder (demo_args 0))
    by (intros [k Hk]; discriminate).
  assert (H6 : ¬ folder (demo_args 0) `prefix_of` output (demo_args 0))
    by (intros [k Hk]; discriminate).
  assert (H7 : main nested_env 3 (demo_args 0) (start batch_source)
                 = Some (Val tt, batch_after_first_run))
    by (vm_compute; reflexivity).
  assert (H8 : ∀ p, p ∈ top_level_archives nested_env
               (mkdir_p (fs batch_after_first_run) (output (demo_args 0)))
               (folder (demo_args 0)) →
        exists_ (fs batch_after_first_run) (child (output (demo_args 0)) (stem p))
          = true).
  { intros p Hp. vm_compute in Hp. apply list_elem_of_singleton in Hp as ->.
    vm_compute. reflexivity. }
  do 7 (split; [assumption|]). split; [exact H7|]. split; [exact H8|]. split.
  - destruct (proj2 (proj2 (rerun_processes_nothing nested_env 3 (demo_args 0)))
                3%nat _ _ H0 H1 H2 H3 H4 H5 H6 H7) as (out & Hrun & _).
    by exists out.
  - destruct (proj1 (proj2 (rerun_processes_nothing nested_env 3 (demo_args 0)))
                batch_after_first_run H8) as (out & Hrun & _).
    by exists out.
Defined.
End OrchestratorWitness.

(** * The processing cap *)

Section CapClaims.
Import Text Paths Classifier Described FS World Demo.
Local Open Scope string_scope.
Local Open Scope Z_scope.

Section WithWorld.
Variable E : environment.

(** In multi_part_extractor.py the count never exceeds a positive cap. *)
Lemma main_loop_bounds fuel a l n st n' st' :
  MultiPart.main_loop E fuel a l n st = Some (Val n', st') →
  n ≤ n' ∧ (0 < MultiPart.num_files a → n ≤ MultiPart.num_files a →
            n' ≤ MultiPart.num_files a).
Proof.
  revert n st. induction l as [|p l IH]; intros n st; simpl.
  - intros [= <- <-]. lia.
  - destruct (negb (MultiPart.num_files a =? 0) && (MultiPart.num_files a <=? n))
      eqn:Hcap.
    + cbv [bind print ret]. intros [= <- <-]. lia.
    + intros [(there & st1 & Hthere & Hrun)|(e & _ & [=])]%bind_inv.
      assert (0 < MultiPart.num_files a → n + 1 ≤ MultiPart.num_files a) as Hroom.
      { intros Hpos. apply andb_false_iff in Hcap as [Hc|Hc].
        - apply negb_false_iff in Hc. lia.
        - apply Z.leb_gt in Hc. lia. }
      destruct there.
      * apply bind_inv in Hrun as [([] & st2 & _ & Hrun)|(e & _ & [=])].
        apply IH in Hrun. lia.
      * apply bind_inv in Hrun as [([] & st2 & _ & Hrun)|(e & _ & [=])].
        apply IH in Hrun. lia.
Qed.

(** With the cap 0 the limit branch of multi_part_extractor.py is never
    taken: each archive of the list is skipped or processed in turn. *)
Lemma main_loop_unlimited fuel a p l n :
  MultiPart.num_files a = 0 →
  MultiPart.main_loop E fuel a (p :: l) n =
    bind (path_exists (child (MultiPart.output a) (stem p)))
      (λ done_before : bool,
         if done_before
         then bind (print (InfoSkippingProcessed (name p)))
                (λ _, MultiPart.main_loop E fuel a l n)
         else bind (MultiPart.process_archive E fuel a p
                      (child (MultiPart.output a) (stem p)))
                (λ _, MultiPart.main_loop E fuel a l (n + 1))).
Proof. intros Hcap. simpl. by rewrite Hcap. Qed.

(** In mass_extractor.py, with no cap ([num_files = None]) the first
    archive that is not skipped ends the run with a [TypeError]. *)
Lemma extract_loop_without_cap_raises target archive rest n s st :
  exists_ (fs st) (child target (stem archive)) = false →
  ∃ st', Mass.extract_loop E target None (archive :: rest) n s st
           = Some (Exn TypeError, st').
Proof.
  intros Hnew. simpl. cbv [bind path_exists get_fs ret print]. rewrite Hnew.
  rewrite mass_extract_archive_run. cbv [Mass.int_ge raise].
  repeat case_match; simplify_eq; eauto.
Qed.

(** In mass_extractor.py, with the cap 0 the run stops after the first
    archive that is not skipped. *)
Lemma extract_loop_cap_zero_stops target archive rest s st :
  exists_ (fs st) (child target (stem archive)) = false →
  ∃ n' st', Mass.extract_loop E target (Some 0) (archive :: rest) 0 s st
              = Some (Val (n', s), st') ∧ 0 ≤ n' ≤ 1.
Proof.
  intros Hnew. simpl. cbv [bind path_exists get_fs ret print]. rewrite Hnew.
  rewrite mass_extract_archive_run. cbv [Mass.int_ge ret].
  repeat case_match; simplify_eq; eexists _, _; (split; [done|lia]).
Qed.
End WithWorld.

(** C7. Evaluation of mass_extractor.py at the failing input: two zip
    archives, no [-n] option.  The first archive is extracted, then the
    comparison of the count with [None] raises [TypeError]; the second
    archive is never processed. *)
Theorem extract_archives_without_cap_raises :
  ∃ st', Mass.extract_archives nested_env ["src"] ["out"] None (start two_zips)
           = Some (Exn TypeError, st') ∧
         stdout st' = [MassExtracting 0 None "a.zip" ["out"; "a"]] ∧
         exists_ (fs st') ["out"; "a"] = true ∧
         exists_ (fs st') ["out"; "b"] = false.
Proof.
  eexists. split; [vm_compute; reflexivity|].
  split; [reflexivity|]. split; vm_compute; reflexivity.
Qed.

(** The same source under multi_part_extractor.py: with the cap 0 both
    archives are processed, with the cap 1 only one is. *)
Lemma main_cap_examples :
  (∃ st', MultiPart.main nested_env 3 (demo_args 0) (start two_zips) = Some (Val tt, st') ∧
          List.last (stdout st') (InfoDone 0) = InfoDone 2) ∧
  (∃ st', MultiPart.main nested_env 3 (demo_args 1) (start two_zips) = Some (Val tt, st') ∧
          List.last (stdout st') (InfoDone 0) = InfoDone 1 ∧
          InfoReachedLimit 1 ∈ stdout st').
Proof.
  split.
  - eexists. split; [vm_compute; reflexivity|]. reflexivity.
  - eexists. split; [vm_compute; reflexivity|]. split; [reflexivity|].
    vm_compute. do 3 right. left.
Qed.
End CapClaims.

(** * Further properties of the single-archive extractor and the resolver *)

Section ExtractorProperties.
Import Text Paths Classifier Described FS World MultiPart.
Local Open Scope monad_scope.

(** X2. The tool is chosen by the ending of the lower-cased name alone: unzip
    exactly for [.zip], unrar exactly for [.rar], 7z for every other name. *)
Theorem choose_command_dispatch archive t :
  (choose_command archive t = Unzip archive t ↔
     ends_with_ci (of_string (name archive)) (of_string ".zip")) ∧
  (choose_command archive t = Unrar archive t ↔
     ends_with_ci (of_string (name archive)) (of_string ".rar")) ∧
  (choose_command archive t = SevenZip archive t ↔
     ¬ ends_with_ci (of_string (name archive)) (of_string ".zip") ∧
     ¬ ends_with_ci (of_string (name archive)) (of_string ".rar")).
Proof.
  rewrite <- !endswith_lower. unfold choose_command.
  set (l := lower (of_string (name archive))).
  assert (endswith l (of_string ".zip") = true →
          endswith l (of_string ".rar") = true → False) as Hboth.
  { intros [p1 H1]%endswith_spec [p2 H2]%endswith_spec.
    rewrite H1 in H2. apply (f_equal (@rev ascii)) in H2.
    rewrite !rev_app_distr in H2. simpl in H2. discriminate. }
  destruct (endswith l (of_string ".zip")) eqn:Hz;
    destruct (endswith l (of_string ".rar")) eqn:Hr.
  - by destruct Hboth.
  - repeat split; try done; intros; tauto.
  - repeat split; try done; intros; tauto.
  - repeat split; try done; intros []; done.
Qed.

Variable E : environment.

(** X3. [extract_archive] only adds: the target directory exists afterwards,
    whatever the exit status; no entry disappears, a regular file stays a
    regular file (the archive itself is never deleted), and a file outside
    the target directory keeps its content. *)
Theorem extract_archive_only_adds archive t st :
  ∃ st', extract_archive E archive t st = Some (Val PyNone, st') ∧
    (t ≠ [] → exists_ (fs st') t = true) ∧
    (∀ q, exists_ (fs st) q = true → exists_ (fs st') q = true) ∧
    (∀ q, is_file (fs st) q = true → is_file (fs st') q = true) ∧
    (∀ q data, ¬ t `prefix_of` q → fs st !! q = Some (File data) →
               fs st' !! q = Some (File data)).
Proof.
  rewrite extract_archive_run. eexists. split; [done|]. simpl.
  split; [|split; [|split]].
  - intros Ht. by apply write_all_exists_mono, exists_mkdir_p.
  - intros q Hq. by apply write_all_exists_mono, mkdir_p_exists_mono.
  - intros q Hq. apply is_file_write_all_mono. by rewrite is_file_mkdir_p.
  - intros q data Hout Hq. apply lookup_file_write_all_outside; [done|].
    by apply lookup_file_mkdir_p.
Qed.

(** X4. With no core archive below the working directory the resolver returns
    after one scan and changes nothing: no directory is made, nothing is
    printed. *)
Theorem resolver_without_archives_changes_nothing fuel tmp dest st :
  core_archives_below E (fs st) tmp = [] →
  recursively_extract E (S fuel) tmp dest st = Some (Val tt, st).
Proof.
  intros Hnil. unfold recursively_extract. simpl.
  by rewrite (bind_val _ _ _ _ _ (scan_run E tmp st)), Hnil.
Qed.

(** X5. When the destination lies apart from the working directory and the
    candidates can be deleted, the resolver makes exactly one round: its
    result is the result of extracting and deleting the archives of the
    first scan.  What those archives hold is written to the destination and
    is not scanned. *)
Theorem resolver_makes_one_round fuel tmp dest st :
  ¬ tmp `prefix_of` dest → ¬ dest `prefix_of` tmp →
  (∀ p, p ∈ core_archives_below E (fs st) tmp → may_unlink E p = true) →
  core_archives_below E (fs st) tmp ≠ [] →
  ∃ st1,
    resolve_all E dest (core_archives_below E (fs st) tmp) false st
      = Some (Val true, st1) ∧
    recursively_extract E (S (S fuel)) tmp dest st = Some (Val tt, st1).
Proof.
  intros H1 H2 Hmay Hne.
  destruct (resolve_all_clears E tmp dest (core_archives_below E (fs st) tmp)
              false st H1 H2) as (st1 & Hround & Hnil).
  { intros p Hp. split; [|by apply Hmay].
    by apply elem_of_core_archives_below in Hp as (_ & Hb & _). }
  { intros p Hf Hb Hc. by apply elem_of_core_archives_below. }
  rewrite bool_decide_eq_false_2 in Hround by done. simpl in Hround.
  exists st1. split; [done|]. unfold recursively_extract. simpl.
  rewrite (bind_val _ _ _ _ _ (scan_run E tmp st)).
  destruct (core_archives_below E (fs st) tmp) as [|a l] eqn:Hl; [done|].
  rewrite (bind_val _ _ _ _ _ Hround). simpl.
  by rewrite (bind_val _ _ _ _ _ (scan_run E tmp st1)), Hnil.
Qed.
End ExtractorProperties.

Section ExtractorPropertiesWitnesses.
Import Paths FS World MultiPart Demo.
Local Open Scope string_scope.

Lemma resolver_without_archives_changes_nothing_witness :
  core_archives_below nested_env (fs nested_final) ["ws"] = [] ∧
  recursively_extract nested_env 1 ["ws"] ["out"] nested_final
    = Some (Val tt, nested_final).
Proof.
  assert (H : core_archives_below nested_env (fs nested_final) ["ws"] = [])
    by (vm_compute; reflexivity).
  split; [exact H|].
  exact (resolver_without_archives_changes_nothing nested_env 0 ["ws"] ["out"]
           nested_final H).
Defined.

Lemma resolver_makes_one_round_witness :
  (¬ ["ws"] `prefix_of` ["out"]) ∧ (¬ ["out"] `prefix_of` ["ws"]) ∧
  (∀ p, p ∈ core_archives_below nested_env nested_workspace ["ws"] →
        may_unlink nested_env p = true) ∧
  core_archives_below nested_env nested_workspace ["ws"] ≠ [] ∧
  ∃ st1,
    resolve_all nested_env ["out"]
      (core_archives_below nested_env nested_workspace ["ws"]) false
      (start nested_workspace) = Some (Val true, st1) ∧
    recursively_extract nested_env 2 ["ws"] ["out"] (start nested_workspace)
      = Some (Val tt, st1).
Proof.
  assert (H1 : ¬ ["ws"] `prefix_of` ["out"]) by (intros [k Hk]; discriminate).
  assert (H2 : ¬ ["out"] `prefix_of` ["ws"]) by (intros [k Hk]; discriminate).
  assert (H3 : ∀ p, p ∈ core_archives_below nested_env nested_workspace ["ws"] →
        may_unlink nested_env p = true) by (intros p _; reflexivity).
  assert (H4 : core_archives_below nested_env nested_workspace ["ws"] ≠ [])
    by (vm_compute; discriminate).
  split; [exact H1|]. split; [exact H2|]. split; [exact H3|]. split; [exact H4|].
  exact (resolver_makes_one_round nested_env 0 ["ws"] ["out"]
           (start nested_workspace) H1 H2 H3 H4).
Defined.

Lemma undeletable_archive_never_returns_witness :
  (¬ ["ws"] `prefix_of` ["out"]) ∧ (¬ ["out"] `prefix_of` ["ws"]) ∧
  ["ws"; "a.zip"] ∈ core_archives_below (demo_env nested_table [["ws"; "a.zip"]])
                      nested_workspace ["ws"] ∧
  may_unlink (demo_env nested_table [["ws"; "a.zip"]]) ["ws"; "a.zip"] = false ∧
  recursively_extract (demo_env nested_table [["ws"; "a.zip"]]) 50 ["ws"] ["out"]
    (start nested_workspace) = None.
Proof.
  assert (H1 : ¬ ["ws"] `prefix_of` ["out"]) by (intros [k Hk]; discriminate).
  assert (H2 : ¬ ["out"] `prefix_of` ["ws"]) by (intros [k Hk]; discriminate).
  assert (H3 : ["ws"; "a.zip"] ∈
                 core_archives_below (demo_env nested_table [["ws"; "a.zip"]])
                   (fs (start nested_workspace)) ["ws"])
    by (vm_compute; left).
  assert (H4 : may_unlink (demo_env nested_table [["ws"; "a.zip"]])
                 ["ws"; "a.zip"] = false) by reflexivity.
  split; [exact H1|]. split; [exact H2|]. split; [exact H3|]. split; [exact H4|].
  exact (undeletable_archive_never_returns (demo_env nested_table [["ws"; "a.zip"]])
           ["ws"] ["out"] ["ws"; "a.zip"] 50 (start nested_workspace) H1 H2 H3 H4).
Defined.
End ExtractorPropertiesWitnesses.

(** * The footprint of the multi-part script *)

Section FootprintFacts.
Import Text Paths Classifier Described FS World MultiPart Footprint.
Local Open Scope monad_scope.
Variable E : environment.
Variables tmp output : path.

#[global] Instance frame_respected : Respected tmp output (frame tmp output).
Proof.
  split; [apply _|..].
  - apply frame_mkdir_p.
  - apply frame_write_all.
  - apply frame_delete.
  - apply frame_rmtree.
  - apply frame_rename.
Qed.

Lemma lookup_file_write_all_outside_inv t files m q data :
  ¬ t `prefix_of` q → write_all t files m !! q = Some (File data) →
  m !! q = Some (File data).
Proof.
  intros Hq. unfold write_all. revert m.
  induction files as [|[rel d] files IH]; intros m; simpl; [done|].
  intros H. apply IH in H. rewrite lookup_write_file in H.
  case_decide as Heq.
  - subst q. destruct Hq. by apply prefix_app_r.
  - by apply lookup_file_mkdir_p in H.
Qed.

#[global] Instance untouched_respected : Respected tmp output (untouched tmp output).
Proof.
  split.
  - split.
    + by intros m q data _ _.
    + intros m1 m2 m3 H1 H2 q data Hq Ho.
      etransitivity; [by apply H2|by apply H1].
  - intros m p q data _ _. apply lookup_file_mkdir_p.
  - intros m t files Ht q data Hq Ho.
    assert (¬ t `prefix_of` q) as Htq.
    { intros Htq. destruct Ht as [Ht|Ht]; [apply Hq|apply Ho]; by etransitivity. }
    split; [by apply lookup_file_write_all_outside_inv|
            by apply lookup_file_write_all_outside].
  - intros m p Hp q data Hq _. rewrite lookup_delete_ne; [done|]. by intros ->.
  - intros m q data Hq _. by rewrite lookup_rmtree, decide_False.
  - intros m src dst n Hsrc Hdst q data Hq Ho. rewrite lookup_insert_ne.
    + rewrite lookup_delete_ne; [done|]. by intros ->.
    + intros ->. by destruct Hdst.
Qed.

Context (R : relation filesystem) `{!Respected tmp output R}.

Lemma respected_extract_archive archive t :
  tmp `prefix_of` t ∨ output `prefix_of` t →
  always (on_fs R) (extract_archive E archive t).
Proof.
  intros Ht st o st'. rewrite extract_archive_run. intros [= <- <-].
  unfold on_fs. simpl.
  etransitivity; [apply respected_mkdir_p|by apply respected_write_all].
Qed.

Lemma respected_unlink p : tmp `prefix_of` p → always (on_fs R) (unlink E p).
Proof.
  intros Hp st o st'. cbv [unlink bind get_fs update_fs raise].
  repeat case_match; intros [= <- <-]; unfold on_fs; simpl;
    (reflexivity || by apply respected_delete).
Qed.

Lemma respected_resolve_all dest l flag :
  output `prefix_of` dest → (∀ p, p ∈ l → tmp `prefix_of` p) →
  always (on_fs R) (resolve_all E dest l flag).
Proof.
  intros Hd. revert flag. induction l as [|p l IH]; intros flag Hl; simpl.
  - apply always_ret. apply _.
  - apply always_bind; [apply _|..].
    + unfold resolve_one. apply always_bind; [apply _|..].
      * apply respected_extract_archive. by right.
      * intros _. apply always_try_except; [apply _|..].
        -- apply respected_unlink, Hl. by left.
        -- intros e handler [= <-]. apply always_print. apply _.
    + intros _. apply IH. intros q Hq. apply Hl. by right.
Qed.

Lemma respected_recursively_extract fuel dest :
  output `prefix_of` dest → always (on_fs R) (recursively_extract E fuel tmp dest).
Proof.
  intros Hd. unfold recursively_extract. generalize true.
  induction fuel as [|fuel IH]; intros flag; simpl.
  - destruct flag; [apply always_diverge|apply always_ret; apply _].
  - destruct flag; [|apply always_ret; apply _].
    apply always_bind_post
      with (P := λ l : list path, ∀ p, p ∈ l → tmp `prefix_of` p); [apply _|..].
    + intros st o st'. rewrite scan_run. intros [= <- <-]. reflexivity.
    + intros st l st1. rewrite scan_run. intros [= <- <-] p Hp.
      apply elem_of_core_archives_below in Hp as (_ & Hb & _).
      by apply below_prefix.
    + intros [|a l] Hl; [apply always_ret; apply _|].
      apply always_bind; [apply _|by apply respected_resolve_all|].
      intros again. apply IH.
Qed.

Lemma respected_move_one dest p :
  output `prefix_of` dest → tmp `prefix_of` p → always (on_fs R) (move_one dest p).
Proof.
  intros Hd Hp st o st'. unfold move_one.
  cbv [bind print mkdir_parents update_fs shutil_move get_fs raise ret]. simpl.
  repeat case_match; intros [= <- <-]; unfold on_fs; simpl;
    try reflexivity; try apply respected_mkdir_p.
  all: etransitivity; [apply respected_mkdir_p|];
    apply respected_rename; [done|right].
  all: unfold child; try done; by apply prefix_app_r.
Qed.

Lemma respected_move_non_archives dest :
  output `prefix_of` dest → always (on_fs R) (move_non_archives E tmp dest).
Proof.
  intros Hd st o st'. rewrite move_non_archives_run.
  apply always_for_each; [apply _|]. intros p Hp.
  apply respected_move_one; [done|].
  apply elem_of_os_walk_files in Hp as [_ Hb]. by apply below_prefix.
Qed.
End FootprintFacts.

Section OrchestratorFootprint.
Import Text Paths Classifier Described FS World MultiPart Footprint.
Local Open Scope monad_scope.
Variable E : environment.
Variable a : args.
Context (R : relation filesystem) `{!Respected (tmp_dir a) (output a) R}.

Lemma respected_process_archive fuel archive_path dest_folder :
  output a `prefix_of` dest_folder →
  always (on_fs R) (process_archive E fuel a archive_path dest_folder).
Proof.
  intros Hd. unfold process_archive.
  apply always_bind; [apply _|apply always_print; apply _|]. intros _.
  apply always_bind; [apply _|..].
  { intros st o st' [= <- <-]. reflexivity. }
  intros there. apply always_bind; [apply _|..].
  { apply always_if; [|apply always_ret; apply _].
    apply always_update_fs. intros m. apply respected_rmtree. }
  intros _. apply always_bind; [apply _|..].
  { apply always_update_fs. intros m. apply respected_mkdir_p. }
  intros _. apply always_bind; [apply _|..].
  { apply always_update_fs. intros m. apply respected_mkdir_p. }
  intros _. apply always_bind; [apply _|..].
  { eapply respected_extract_archive; [done|by left]. }
  intros _. apply always_bind; [apply _|..].
  { by eapply respected_recursively_extract. }
  intros _. apply always_bind; [apply _|..].
  { by eapply respected_move_non_archives. }
  intros _. apply always_update_fs. intros m. apply respected_rmtree.
Qed.

Lemma respected_main_loop fuel l n :
  always (on_fs R) (main_loop E fuel a l n).
Proof.
  revert n. induction l as [|p l IH]; intros n; simpl.
  - apply always_ret. apply _.
  - case_match.
    + apply always_bind; [apply _|apply always_print; apply _|].
      intros _. apply always_ret. apply _.
    + apply always_bind; [apply _|..].
      * intros st o st' [= <- <-]. reflexivity.
      * intros [].
        -- apply always_bind; [apply _|apply always_print; apply _|].
           intros _. apply IH.
        -- apply always_bind; [apply _|..]; [|intros _; apply IH].
           apply respected_process_archive. unfold child. by apply prefix_app_r.
Qed.

Lemma respected_main fuel : always (on_fs R) (main E fuel a).
Proof.
  unfold main. apply always_bind; [apply _|..].
  { apply always_update_fs. intros m. apply respected_mkdir_p. }
  intros _. apply always_bind; [apply _|apply always_get_fs; apply _|].
  intros files. apply always_bind; [apply _|apply respected_main_loop|].
  intros n. apply always_print. apply _.
Qed.
End OrchestratorFootprint.

Section FootprintTheorems.
Import Text Paths Classifier Described FS World MultiPart Footprint.
Local Open Scope monad_scope.
Variable E : environment.

(** X6. Whatever the resolver does and however it ends, it deletes nothing
    outside the working directory, and outside the working directory and
    the destination every regular file keeps its content and no regular
    file appears. *)
Theorem resolver_footprint fuel tmp dest st o st' :
  recursively_extract E fuel tmp dest st = Some (o, st') →
  (∀ q, ¬ tmp `prefix_of` q → is_Some (fs st !! q) → is_Some (fs st' !! q)) ∧
  (∀ q data, ¬ tmp `prefix_of` q → ¬ dest `prefix_of` q →
     fs st' !! q = Some (File data) ↔ fs st !! q = Some (File data)).
Proof.
  intros Hrun. split.
  - by apply (respected_recursively_extract E tmp dest (frame tmp dest) fuel dest
                (reflexivity _) _ _ _ Hrun).
  - by apply (respected_recursively_extract E tmp dest (untouched tmp dest) fuel dest
                (reflexivity _) _ _ _ Hrun).
Qed.

(** X7. The relocator, even when it stops on an exception, deletes nothing
    outside the directory it walks, and outside that directory and the
    destination every regular file keeps its content and no regular file
    appears. *)
Theorem relocator_footprint src dest st o st' :
  move_non_archives E src dest st = Some (o, st') →
  (∀ q, ¬ src `prefix_of` q → is_Some (fs st !! q) → is_Some (fs st' !! q)) ∧
  (∀ q data, ¬ src `prefix_of` q → ¬ dest `prefix_of` q →
     fs st' !! q = Some (File data) ↔ fs st !! q = Some (File data)).
Proof.
  intros Hrun. split.
  - by apply (respected_move_non_archives E src dest (frame src dest) dest
                (reflexivity _) _ _ _ Hrun).
  - by apply (respected_move_non_archives E src dest (untouched src dest) dest
                (reflexivity _) _ _ _ Hrun).
Qed.

(** X8. A run of [main], however it ends, deletes nothing outside the scratch
    directory, and outside the scratch directory and the output root every
    regular file keeps its content and no regular file appears: the
    archives of a source folder that lies apart from both are left as they
    were. *)
Theorem main_footprint fuel a st o st' :
  main E fuel a st = Some (o, st') →
  (∀ q, ¬ tmp_dir a `prefix_of` q → is_Some (fs st !! q) → is_Some (fs st' !! q)) ∧
  (∀ q data, ¬ tmp_dir a `prefix_of` q → ¬ output a `prefix_of` q →
     fs st' !! q = Some (File data) ↔ fs st !! q = Some (File data)).
Proof.
  intros Hrun. split.
  - by apply (respected_main E a (frame (tmp_dir a) (output a)) fuel _ _ _ Hrun).
  - by apply (respected_main E a (untouched (tmp_dir a) (output a)) fuel _ _ _ Hrun).
Qed.
End FootprintTheorems.

Section FootprintWitnesses.
Import Text Paths Classifier Described FS World MultiPart Demo.
Local Open Scope string_scope.

Lemma resolver_footprint_witness :
  recursively_extract nested_env 5 ["ws"] ["out"] (start nested_workspace)
    = Some (Val tt, nested_final) ∧
  (∀ q, ¬ ["ws"] `prefix_of` q → is_Some (nested_workspace !! q) →
        is_Some (fs nested_final !! q)) ∧
  (∀ q data, ¬ ["ws"] `prefix_of` q → ¬ ["out"] `prefix_of` q →
     fs nested_final !! q = Some (File data) ↔
     nested_workspace !! q = Some (File data)).
Proof.
  assert (H : recursively_extract nested_env 5 ["ws"] ["out"] (start nested_workspace)
    = Some (Val tt, nested_final)) by (vm_compute; reflexivity).
  split; [exact H|].
  exact (resolver_footprint nested_env 5 ["ws"] ["out"] (start nested_workspace)
           (Val tt) nested_final H).
Defined.

Lemma relocator_footprint_witness :
  ∃ o st',
    move_non_archives nested_env ["ws"] ["out"] (start collision_workspace)
      = Some (o, st') ∧
    (∀ q, ¬ ["ws"] `prefix_of` q → is_Some (collision_workspace !! q) →
          is_Some (fs st' !! q)) ∧
    (∀ q data, ¬ ["ws"] `prefix_of` q → ¬ ["out"] `prefix_of` q →
       fs st' !! q = Some (File data) ↔ collision_workspace !! q = Some (File data)).
Proof.
  destruct (move_non_archives nested_env ["ws"] ["out"] (start collision_workspace))
    as [[o st']|] eqn:H; [|vm_compute in H; discriminate].
  exists o, st'. split; [reflexivity|].
  exact (relocator_footprint nested_env ["ws"] ["out"] (start collision_workspace)
           o st' H).
Defined.

Lemma main_footprint_witness :
  main nested_env 3 (demo_args 0) (start batch_source)
    = Some (Val tt, batch_after_first_run) ∧
  (∀ q, ¬ ["tmp"; "unpack_folder"] `prefix_of` q → is_Some (batch_source !! q) →
        is_Some (fs batch_after_first_run !! q)) ∧
  (∀ q data, ¬ ["tmp"; "unpack_folder"] `prefix_of` q → ¬ ["out"] `prefix_of` q →
     fs batch_after_first_run !! q = Some (File data) ↔
     batch_source !! q = Some (File data)).
Proof.
  assert (H : main nested_env 3 (demo_args 0) (start batch_source)
                = Some (Val tt, batch_after_first_run)) by (vm_compute; reflexivity).
  split; [exact H|].
  exact (main_footprint nested_env 3 (demo_args 0) (start batch_source)
           (Val tt) batch_after_first_run H).
Defined.
End FootprintWitnesses.

(** * What the relocator delivers *)

Section RelocatorDelivery.
Import Text Paths Classifier Described FS World MultiPart.
Local Open Scope monad_scope.
Variable E : environment.

Lemma parent_prefix (p : path) : parent p `prefix_of` p.
Proof.
  unfold parent. destruct p as [|c p _] using rev_ind; [done|].
  rewrite removelast_last. by exists [c].
Qed.

Lemma lookup_child_mkdir_parent (m : filesystem) (dest : path) x :
  mkdir_p m (parent dest) !! child dest x = m !! child dest x.
Proof.
  rewrite lookup_mkdir_p. destruct (m !! child dest x); [done|].
  rewrite decide_False; [done|].
  intros [_ Hpre]%elem_of_ancestors_and_self.
  assert (child dest x `prefix_of` dest) as [k Hk]
    by (etransitivity; [exact Hpre|apply parent_prefix]).
  apply (f_equal length) in Hk. unfold child in Hk.
  rewrite !length_app in Hk. simpl in Hk. lia.
Qed.

(** The loop of the relocator over files with free and distinct targets. *)
Lemma relocate_all_run dest l st :
  is_dir (fs st) dest = true → NoDup l →
  (∀ p, p ∈ l → is_file (fs st) p = true) →
  (∀ p, p ∈ l → relocatable p = true → fs st !! child dest (name p) = None) →
  (∀ p1 p2, p1 ∈ l → p2 ∈ l → relocatable p1 = true → relocatable p2 = true →
            name p1 = name p2 → p1 = p2) →
  ∃ st', for_each l (move_one dest) st = Some (Val tt, st') ∧
    ∀ p data, p ∈ l → fs st !! p = Some (File data) → relocatable p = true →
      is_file (fs st') p = false ∧
      fs st' !! child dest (name p) = Some (File data).
Proof.
  revert st. induction l as [|f l IH]; intros st Hdir Hnd Hfiles Hfree Hdist.
  { exists st. split; [done|]. by intros p data Hp%elem_of_nil. }
  apply NoDup_cons in Hnd as [Hfl Hnd].
  destruct (relocatable f) eqn:Hr.
  2: { destruct (total_move_one dest f st) as (o & st1 & Hstep).
       destruct (move_one_skip dest f st o st1 Hr Hstep) as (-> & Hfs & _).
       destruct (IH st1) as (st' & Hrun & Hres); try done.
       - by rewrite Hfs.
       - intros p Hp. rewrite Hfs. apply Hfiles. by right.
       - intros p Hp. rewrite Hfs. apply Hfree. by right.
       - intros p1 p2 Hp1 Hp2. apply Hdist; by right.
       - exists st'. split; [simpl; by rewrite (bind_val _ _ _ _ _ Hstep)|].
         intros p data [->|Hp]%elem_of_cons Hd Hrp; [congruence|].
         apply Hres; [done| |done]. by rewrite Hfs. }
  assert (is_file (fs st) f = true) as [data Hf]%is_file_spec
    by (apply Hfiles; by left).
  assert (fs st !! child dest (name f) = None) as Hnone by (apply Hfree; [by left|done]).
  set (files := mkdir_p (fs st) (parent dest)).
  set (st1 := {| fs := <[child dest (name f) := File data]> (delete f files);
                 stdout := stdout st ++ [InfoMoving f dest] |}).
  assert (move_one dest f st = Some (Val tt, st1)) as Hstep.
  { rewrite move_one_relocatable by done. fold files.
    unfold exists_. rewrite (lookup_child_mkdir_parent (fs st)), Hnone.
    unfold files. rewrite mkdir_p_keeps by (by rewrite Hf). by rewrite Hf. }
  assert (f ≠ child dest (name f)) as Hfd by (intros Heq; congruence).
  assert (∀ p, p ∈ l → fs st1 !! p = fs st !! p) as Hsame.
  { intros p Hp. simpl.
    assert (is_file (fs st) p = true) as [d Hd]%is_file_spec
      by (apply Hfiles; by right).
    rewrite lookup_insert_ne by (intros Heq; congruence).
    rewrite lookup_delete_ne by (by intros ->).
    unfold files. by rewrite mkdir_p_keeps by (by rewrite Hd). }
  assert (is_dir (fs st1) dest = true) as Hdir1.
  { apply is_dir_spec in Hdir. apply is_dir_spec. simpl.
    rewrite lookup_insert_ne by apply child_ne_parent.
    rewrite lookup_delete_ne by (intros ->; congruence).
    unfold files. by rewrite mkdir_p_keeps by (by rewrite Hdir). }
  destruct (IH st1) as (st' & Hrun & Hres); try done.
  { intros p Hp. unfold is_file. rewrite Hsame by done. apply Hfiles. by right. }
  { intros p Hp Hrp. simpl.
    assert (name p ≠ name f) as Hnm.
    { intros Heq. apply Hfl. rewrite <- (Hdist p f); auto; [by right|by left]. }
    rewrite lookup_insert_ne.
    2: { unfold child. intros Heq. by apply app_inj_tail in Heq as [_ ?]. }
    destruct (decide (f = child dest (name p))) as [<-|Hne];
      [by rewrite lookup_delete_eq|].
    rewrite lookup_delete_ne by done. unfold files.
    rewrite lookup_child_mkdir_parent. apply Hfree; [by right|done]. }
  { intros p1 p2 Hp1 Hp2. apply Hdist; by right. }
  exists st'. split; [simpl; by rewrite (bind_val _ _ _ _ _ Hstep)|].
  intros p d [->|Hp]%elem_of_cons Hd Hrp.
  2: { apply Hres; [done| |done]. by rewrite Hsame. }
  assert (d = data) as -> by congruence.
  destruct (relocate_all_val dest l st1 st' Hdir1 Hrun) as (_ & Hother & Hdest & Hfree1 & _).
  split.
  - destruct (is_file (fs st') f) eqn:Hfile; [|done]. exfalso.
    apply is_file_spec in Hfile as [d Hd'].
    assert (relocation_invariant (fs st1) l dest st') as (_ & _ & Hfrom).
    { revert Hrun. apply for_each_invariant
        with (I := relocation_invariant (fs st1) l dest).
      - intros x cur o' cur' Hx. by apply relocation_invariant_step.
      - split; [done|]. split; [done|]. intros q dq Hq. by left. }
    destruct (Hfrom f d Hd') as [Hold|(g & Hg & Hrg & _ & Heq)].
    + simpl in Hold. rewrite lookup_insert_ne in Hold by done.
      by rewrite lookup_delete_eq in Hold.
    + assert (fs st !! child dest (name g) = None) as Hg0
        by (apply Hfree; [by right|done]).
      rewrite <- Heq in Hg0. unfold path in *. congruence.
  - rewrite Hdest; simpl; rewrite lookup_insert_eq; [done|by eexists].
Qed.

(** X9. Towards an existing directory that is not inside the walked one, when
    no relocatable file finds its name taken in the destination and no two
    of them share a name, the relocator returns normally and delivers
    every relocatable file: it is no longer a file where it was, and its
    content sits directly under the destination, under its own name, the
    directories it came from dropped. *)
Theorem relocator_delivers_every_payload_file src dest st :
  ¬ src `prefix_of` dest →
  is_dir (fs st) dest = true →
  (∀ p, is_file (fs st) p = true → below src p → relocatable p = true →
        fs st !! child dest (name p) = None) →
  (∀ p1 p2, is_file (fs st) p1 = true → below src p1 → relocatable p1 = true →
            is_file (fs st) p2 = true → below src p2 → relocatable p2 = true →
            name p1 = name p2 → p1 = p2) →
  ∃ st', move_non_archives E src dest st = Some (Val tt, st') ∧
    ∀ p data, below src p → fs st !! p = Some (File data) → relocatable p = true →
      is_file (fs st') p = false ∧
      fs st' !! child dest (name p) = Some (File data).
Proof.
  intros _ Hdir Hfree Hdist. rewrite move_non_archives_run.
  destruct (relocate_all_run dest (os_walk_files (scandir_order E) (fs st) src) st)
    as (st' & Hrun & Hres); try done.
  - apply NoDup_os_walk_files.
  - by intros p [? _]%elem_of_os_walk_files.
  - intros p [? ?]%elem_of_os_walk_files. by apply Hfree.
  - intros p1 p2 [? ?]%elem_of_os_walk_files [? ?]%elem_of_os_walk_files ? ?.
    by apply Hdist.
  - exists st'. split; [done|]. intros p data Hb Hp Hrp. apply Hres; [|done..].
    apply elem_of_os_walk_files. split; [|done]. apply is_file_spec. by eexists.
Qed.
End RelocatorDelivery.

Section RelocatorWithoutDirectory.
Import Text Paths Classifier Described FS World MultiPart.
Local Open Scope monad_scope.
Variable E : environment.

(** A relocatable file aimed at a path that is no directory is renamed to
    that very path. *)
Lemma move_one_onto_path dest f data st :
  relocatable f = true → is_dir (fs st) dest = false →
  fs st !! f = Some (File data) →
  move_one dest f st =
    Some (Val tt, {| fs := <[dest := File data]>
                             (delete f (mkdir_p (fs st) (parent dest)));
                     stdout := stdout st ++ [InfoMoving f dest] |}).
Proof.
  intros [Hs Hc]%relocatable_spec Hdir Hf. unfold move_one. rewrite Hs, Hc.
  cbv [bind print mkdir_parents update_fs shutil_move get_fs raise]. simpl.
  assert (is_dir (mkdir_p (fs st) (parent dest)) dest = false) as ->.
  { unfold is_dir in *. rewrite lookup_mkdir_p.
    destruct (fs st !! dest) as [[]|] eqn:Hd; try done.
    rewrite decide_False; [done|].
    intros [Hne Hpre]%elem_of_ancestors_and_self.
    destruct dest as [|c dest _] using rev_ind; [done|].
    unfold parent in Hpre. rewrite removelast_last in Hpre.
    destruct Hpre as [k Hk]. apply (f_equal length) in Hk.
    rewrite !length_app in Hk. simpl in Hk. lia. }
  simpl. by rewrite mkdir_p_keeps, Hf by (by rewrite Hf).
Qed.

Lemma relocate_all_onto_path dest l st :
  is_dir (fs st) dest = false → NoDup l → dest ∉ l →
  (∀ p, p ∈ l → is_file (fs st) p = true) →
  ∃ st', for_each l (move_one dest) st = Some (Val tt, st') ∧
    is_dir (fs st') dest = false ∧
    (∀ q, q ≠ dest → is_file (fs st') q = true →
          is_file (fs st) q = true ∧ ¬ (q ∈ l ∧ relocatable q = true)) ∧
    fs st' !! dest = match last (List.filter relocatable l) with
                     | Some p => fs st !! p
                     | None => fs st !! dest
                     end.
Proof.
  revert st. induction l as [|f l IH]; intros st Hdir Hnd Hdl Hfiles.
  { exists st. split; [done|]. split; [done|]. split; [|done].
    intros q _ Hq. split; [done|]. by intros [?%elem_of_nil _]. }
  apply NoDup_cons in Hnd as [Hfl Hnd].
  apply not_elem_of_cons in Hdl as [Hdf Hdl].
  simpl. destruct (relocatable f) eqn:Hr.
  2: { destruct (total_move_one dest f st) as (o & st1 & Hstep).
       destruct (move_one_skip dest f st o st1 Hr Hstep) as (-> & Hfs & _).
       destruct (IH st1) as (st' & Hrun & Hdir' & Hkeep & Hlast); try done.
       - by rewrite Hfs.
       - intros p Hp. rewrite Hfs. apply Hfiles. by right.
       - exists st'. rewrite (bind_val _ _ _ _ _ Hstep).
         split; [done|]. split; [done|]. rewrite Hfs in *. split; [|done].
         intros q Hq Hfile. destruct (Hkeep q Hq Hfile) as [H1 H2].
         split; [done|]. intros [[->|Hin]%elem_of_cons Hrq]; [congruence|auto]. }
  assert (is_file (fs st) f = true) as [data Hf]%is_file_spec
    by (apply Hfiles; by left).
  pose proof (move_one_onto_path dest f data st Hr Hdir Hf) as Hstep.
  set (st1 := {| fs := <[dest := File data]> (delete f (mkdir_p (fs st) (parent dest)));
                 stdout := stdout st ++ [InfoMoving f dest] |}) in *.
  assert (∀ p, p ∈ l → fs st1 !! p = fs st !! p) as Hsame.
  { intros p Hp. simpl.
    assert (is_file (fs st) p = true) as [d Hd]%is_file_spec
      by (apply Hfiles; by right).
    rewrite lookup_insert_ne by (by intros ->).
    rewrite lookup_delete_ne by (by intros ->).
    by rewrite mkdir_p_keeps by (by rewrite Hd). }
  destruct (IH st1) as (st' & Hrun & Hdir' & Hkeep & Hlast); try done.
  { unfold is_dir. simpl. by rewrite lookup_insert_eq. }
  { intros p Hp. unfold is_file. rewrite Hsame by done. apply Hfiles. by right. }
  exists st'. rewrite (bind_val _ _ _ _ _ Hstep).
  split; [done|]. split; [done|]. split.
  - intros q Hq Hfile. destruct (Hkeep q Hq Hfile) as [H1 H2].
    unfold is_file in H1. simpl in H1.
    rewrite lookup_insert_ne in H1 by done.
    destruct (decide (q = f)) as [->|Hqf]; [by rewrite lookup_delete_eq in H1|].
    rewrite lookup_delete_ne in H1 by done.
    split.
    + rewrite <- (is_file_mkdir_p (fs st) (parent dest) q). exact H1.
    + intros [[->|Hin]%elem_of_cons Hrq]; auto.
  - rewrite Hlast. destruct (List.filter relocatable l) as [|g rest] eqn:Hfil.
    + simpl. by rewrite lookup_insert_eq.
    + assert (∃ p, last (g :: rest) = Some p ∧ p ∈ l) as (p & Hp & Hin).
      { destruct (last (g :: rest)) as [p|] eqn:Hp; [|by apply last_None in Hp].
        exists p. split; [done|].
        apply last_Some_elem_of in Hp. rewrite <- Hfil in Hp.
        apply list_elem_of_In, filter_In in Hp as [Hp _]. by apply list_elem_of_In. }
      change (last (f :: g :: rest)) with (last (g :: rest)).
      rewrite Hp. by apply Hsame.
Qed.

(** X10. When the destination is not a directory (and does not lie below the
    walked one), [shutil.move] takes it for the new name of the file: the
    relocator returns normally, no relocatable file stays where it was, and
    of all their contents only that of the last one listed survives, as a
    regular file at the destination path itself. *)
Theorem relocator_without_destination_directory src dest st :
  ¬ src `prefix_of` dest →
  is_dir (fs st) dest = false →
  ∃ st', move_non_archives E src dest st = Some (Val tt, st') ∧
    (∀ p, below src p → relocatable p = true → is_file (fs st') p = false) ∧
    (∀ p, last (List.filter relocatable
                  (os_walk_files (scandir_order E) (fs st) src)) = Some p →
          is_file (fs st) p = true ∧ fs st' !! dest = fs st !! p).
Proof.
  intros Hout Hdir. rewrite move_non_archives_run.
  set (l := os_walk_files (scandir_order E) (fs st) src).
  destruct (relocate_all_onto_path dest l st) as (st' & Hrun & _ & Hkeep & Hlast);
    try done.
  - apply NoDup_os_walk_files.
  - intros [_ Hb%below_prefix]%elem_of_os_walk_files. done.
  - by intros p [? _]%elem_of_os_walk_files.
  - exists st'. split; [done|]. split.
    + intros p Hb Hrp. destruct (is_file (fs st') p) eqn:Hfile; [|done].
      destruct (Hkeep p) as [H1 H2]; [|done|].
      * intros ->. by apply Hout, below_prefix.
      * destruct H2. split; [|done]. by apply elem_of_os_walk_files.
    + intros p Hp. rewrite Hp in Hlast. split; [|done].
      apply last_Some_elem_of in Hp.
      apply list_elem_of_In, filter_In in Hp as [Hp _].
      by apply list_elem_of_In, elem_of_os_walk_files in Hp as [? _].
Qed.
End RelocatorWithoutDirectory.

Section RelocatorDeliveryWitnesses.
Import Text Paths Classifier Described FS World MultiPart Demo.
Local Open Scope string_scope.

Lemma relocator_delivers_every_payload_file_witness :
  (¬ ["ws"] `prefix_of` ["out"]) ∧
  is_dir leftover_workspace ["out"] = true ∧
  ∃ st', move_non_archives nested_env ["ws"] ["out"] (start leftover_workspace)
           = Some (Val tt, st') ∧
    ∀ p data, below ["ws"] p → leftover_workspace !! p = Some (File data) →
      relocatable p = true →
      is_file (fs st') p = false ∧
      fs st' !! child ["out"] (name p) = Some (File data).
Proof.
  assert (H1 : ¬ ["ws"] `prefix_of` ["out"]) by (intros [k Hk]; discriminate).
  assert (H2 : is_dir (fs (start leftover_workspace)) ["out"] = true)
    by (vm_compute; reflexivity).
  assert (Hfiles : ∀ p, is_file leftover_workspace p = true → relocatable p = true →
                        p = ["ws"; "d"; "readme.txt"]).
  { intros p Hf Hr. apply elem_of_regular_files in Hf. vm_compute in Hf.
    repeat (apply elem_of_cons in Hf as [->|Hf]); try reflexivity;
      try (vm_compute in Hr; discriminate). by apply elem_of_nil in Hf. }
  assert (H3 : ∀ p, is_file (fs (start leftover_workspace)) p = true →
                 below ["ws"] p → relocatable p = true →
                 fs (start leftover_workspace) !! child ["out"] (name p) = None).
  { intros p Hf _ Hr. rewrite (Hfiles p Hf Hr). vm_compute. reflexivity. }
  assert (H4 : ∀ p1 p2,
             is_file (fs (start leftover_workspace)) p1 = true → below ["ws"] p1 →
             relocatable p1 = true →
             is_file (fs (start leftover_workspace)) p2 = true → below ["ws"] p2 →
             relocatable p2 = true → name p1 = name p2 → p1 = p2).
  { intros p1 p2 Hf1 _ Hr1 Hf2 _ Hr2 _.
    by rewrite (Hfiles p1 Hf1 Hr1), (Hfiles p2 Hf2 Hr2). }
  split; [exact H1|]. split; [exact H2|].
  exact (relocator_delivers_every_payload_file nested_env ["ws"] ["out"]
           (start leftover_workspace) H1 H2 H3 H4).
Defined.

Lemma relocator_without_destination_directory_witness :
  (¬ ["ws"] `prefix_of` ["missing"]) ∧
  is_dir leftover_workspace ["missing"] = false ∧
  ∃ st', move_non_archives nested_env ["ws"] ["missing"] (start leftover_workspace)
           = Some (Val tt, st') ∧
    (∀ p, below ["ws"] p → relocatable p = true → is_file (fs st') p = false) ∧
    (∀ p, last (List.filter relocatable
                  (os_walk_files (scandir_order nested_env) leftover_workspace ["ws"]))
            = Some p →
          is_file leftover_workspace p = true ∧
          fs st' !! ["missing"] = leftover_workspace !! p).
Proof.
  assert (H1 : ¬ ["ws"] `prefix_of` ["missing"]) by (intros [k Hk]; discriminate).
  assert (H2 : is_dir (fs (start leftover_workspace)) ["missing"] = false)
    by (vm_compute; reflexivity).
  split; [exact H1|]. split; [exact H2|].
  exact (relocator_without_destination_directory nested_env ["ws"] ["missing"]
           (start leftover_workspace) H1 H2).
Defined.
End RelocatorDeliveryWitnesses.

(** * Further properties of the batch orchestrator *)

Section OrchestratorProperties.
Import Text Paths Classifier Described FS World MultiPart.
Local Open Scope monad_scope.
Variable E : environment.

(** X11. After an archive has been processed without an exception nothing is
    left of the scratch directory: what the relocator skipped there (the
    split segments) is deleted with it and never delivered.  The final
    [shutil.rmtree] ignores errors, and [rmtree] of the model deletes
    without asking: the first hypothesis, that whatever lies in the scratch
    directory may be deleted, is where the two agree. *)
Theorem process_archive_removes_scratch_directory
    fuel a archive_path dest_folder st st' :
  (∀ q, tmp_dir a `prefix_of` q → may_unlink E q = true) →
  process_archive E fuel a archive_path dest_folder st = Some (Val tt, st') →
  ∀ q, tmp_dir a `prefix_of` q → fs st' !! q = None.
Proof.
  intros _. rewrite process_archive_run. intros Hrun q Hq.
  apply bind_inv in Hrun as [(r1 & st1 & _ & Hrun)|(e & _ & [=])].
  apply bind_inv in Hrun as [(r2 & st2 & _ & Hrun)|(e & _ & [=])].
  apply bind_inv in Hrun as [(r3 & st3 & _ & Hrun)|(e & _ & [=])].
  injection Hrun as <-. simpl. by rewrite lookup_rmtree, decide_True.
Qed.

(** The count a loop of [main] returns grows by at most one per archive
    of its list. *)
Lemma main_loop_at_most_length fuel a l n st n' st' :
  main_loop E fuel a l n st = Some (Val n', st') → n' ≤ n + Z.of_nat (length l).
Proof.
  revert n st. induction l as [|p l IH]; intros n st; simpl.
  - intros [= <- <-]. lia.
  - case_match.
    + cbv [bind print ret]. intros [= <- <-]. lia.
    + intros [(there & st1 & _ & Hrun)|(e & _ & [=])]%bind_inv.
      destruct there.
      * apply bind_inv in Hrun as [([] & st2 & _ & Hrun)|(e & _ & [=])].
        apply IH in Hrun. lia.
      * apply bind_inv in Hrun as [([] & st2 & _ & Hrun)|(e & _ & [=])].
        apply IH in Hrun. lia.
Qed.

(** X12. A run of [main] that comes back normally ends its output with the
    summary line, and the count it reports is at most the number of
    top-level core archives of the input folder and, under a positive cap,
    at most the cap. *)
Theorem main_reports_a_bounded_count fuel a st st' :
  main E fuel a st = Some (Val tt, st') →
  ∃ n, last (stdout st') = Some (InfoDone n) ∧
       0 ≤ n ≤ Z.of_nat (length (top_level_archives E (mkdir_p (fs st) (output a))
                                   (folder a))) ∧
       (0 < num_files a → n ≤ num_files a).
Proof.
  rewrite main_run.
  intros [(n & st1 & Hloop & Hpr)|(e & _ & [=])]%bind_inv.
  injection Hpr as <-. exists n. simpl. split; [by rewrite last_snoc|].
  pose proof (main_loop_at_most_length _ _ _ _ _ _ _ Hloop).
  destruct (main_loop_bounds E _ _ _ _ _ _ _ Hloop) as [H0 Hcap].
  split; [lia|]. intros Hpos. apply Hcap; lia.
Qed.

(** X13. A negative cap is no "no limit": the first test of the loop already
    breaks, and [main] processes nothing.  (The input folder is assumed to
    be a directory: [iterdir] raises otherwise, which is not modelled.) *)
Theorem main_with_negative_cap_processes_nothing fuel a st :
  is_dir (fs st) (folder a) = true →
  num_files a < 0 →
  main E fuel a st =
    Some (Val tt,
          {| fs := mkdir_p (fs st) (output a);
             stdout := stdout st ++
               (if bool_decide (top_level_archives E (mkdir_p (fs st) (output a))
                                  (folder a) = [])
                then [] else [InfoReachedLimit (num_files a)]) ++ [InfoDone 0] |}).
Proof.
  intros _ Hneg. rewrite main_run.
  destruct (top_level_archives E (mkdir_p (fs st) (output a)) (folder a))
    as [|p l]; simpl.
  - done.
  - assert (negb (num_files a =? 0) && (num_files a <=? 0) = true) as ->.
    { apply andb_true_iff. split; [apply negb_true_iff|]; lia. }
    cbv [bind print ret]. simpl. by rewrite <- app_assoc.
Qed.

(** X14. Archives that share a stem share a destination folder: in an uncapped
    run the first one listed is processed and creates it, and every later
    one is taken for already processed. *)
Theorem same_stem_archives_are_processed_once fuel a p rest n st n' st' :
  num_files a = 0 →
  ¬ tmp_dir a `prefix_of` output a → ¬ output a `prefix_of` tmp_dir a →
  exists_ (fs st) (child (output a) (stem p)) = false →
  (∀ q, q ∈ rest → stem q = stem p) →
  main_loop E fuel a (p :: rest) n st = Some (Val n', st') →
  n' = n + 1.
Proof.
  intros Hcap H1 H2 Hnew Hsame.
  rewrite main_loop_unlimited by done.
  intros [(there & st0 & Hthere & Hrun)|(e & _ & [=])]%bind_inv.
  injection Hthere as <- <-. rewrite Hnew in Hrun.
  apply bind_inv in Hrun as [([] & st1 & Hproc & Hrun)|(e & _ & [=])].
  assert (exists_ (fs st1) (child (output a) (stem p)) = true) as Hmark.
  { eapply process_archive_marks; [| | |exact Hproc].
    - unfold child. by apply prefix_app_r.
    - by apply apart_child.
    - unfold child. by destruct (output a). }
  destruct (main_loop_all_skipped E fuel a rest (n + 1) st1) as (out & Hskip & _).
  { intros q Hq. by rewrite (Hsame q Hq). }
  rewrite Hskip in Hrun. by injection Hrun as <- _.
Qed.
End OrchestratorProperties.

Section OrchestratorPropertiesWitnesses.
Import Text Paths Classifier Described FS World MultiPart Demo Samples.
Local Open Scope string_scope.
Local Open Scope Z_scope.

Lemma process_archive_removes_scratch_directory_witness :
  (∀ q, tmp_dir (demo_args 0) `prefix_of` q → may_unlink nested_env q = true) ∧
  ∃ st', process_archive nested_env 3 (demo_args 0) ["src"; "one.zip"] ["out"; "one"]
           (start batch_source) = Some (Val tt, st') ∧
         ∀ q, ["tmp"; "unpack_folder"] `prefix_of` q → fs st' !! q = None.
Proof.
  assert (H0 : ∀ q, tmp_dir (demo_args 0) `prefix_of` q →
                    may_unlink nested_env q = true) by (intros q _; reflexivity).
  split; [exact H0|].
  destruct (process_archive nested_env 3 (demo_args 0) ["src"; "one.zip"]
              ["out"; "one"] (start batch_source)) as [[[[]|e] st']|] eqn:H;
    [|vm_compute in H; discriminate..].
  exists st'. split; [reflexivity|].
  exact (process_archive_removes_scratch_directory nested_env 3 (demo_args 0)
           ["src"; "one.zip"] ["out"; "one"] (start batch_source) st' H0 H).
Defined.

Lemma main_reports_a_bounded_count_witness :
  main nested_env 3 (demo_args 0) (start batch_source)
    = Some (Val tt, batch_after_first_run) ∧
  ∃ n, last (stdout batch_after_first_run) = Some (InfoDone n) ∧
       0 ≤ n ≤ Z.of_nat (length (top_level_archives nested_env
                                   (mkdir_p batch_source ["out"]) ["src"])) ∧
       (0 < 0 → n ≤ 0).
Proof.
  assert (H : main nested_env 3 (demo_args 0) (start batch_source)
                = Some (Val tt, batch_after_first_run)) by (vm_compute; reflexivity).
  split; [exact H|].
  exact (main_reports_a_bounded_count nested_env 3 (demo_args 0)
           (start batch_source) batch_after_first_run H).
Defined.

Lemma main_with_negative_cap_processes_nothing_witness :
  is_dir batch_source (folder (demo_args (-1))) = true ∧
  num_files (demo_args (-1)) < 0 ∧
  main nested_env 3 (demo_args (-1)) (start batch_source) =
    Some (Val tt,
          {| fs := mkdir_p batch_source ["out"];
             stdout := [] ++
               (if bool_decide (top_level_archives nested_env
                                  (mkdir_p batch_source ["out"]) ["src"] = [])
                then [] else [InfoReachedLimit (-1)]) ++ [InfoDone 0] |}).
Proof.
  assert (H0 : is_dir (fs (start batch_source)) (folder (demo_args (-1))) = true)
    by (vm_compute; reflexivity).
  assert (H : num_files (demo_args (-1)) < 0) by (simpl; lia).
  split; [exact H0|]. split; [exact H|].
  exact (main_with_negative_cap_processes_nothing nested_env 3 (demo_args (-1))
           (start batch_source) H0 H).
Defined.

Lemma same_stem_archives_are_processed_once_witness :
  num_files (demo_args 0) = 0 ∧
  (¬ tmp_dir (demo_args 0) `prefix_of` output (demo_args 0)) ∧
  (¬ output (demo_args 0) `prefix_of` tmp_dir (demo_args 0)) ∧
  exists_ same_stem_source (child ["out"] (stem ["src"; "a.zip"])) = false ∧
  (∀ q, q ∈ [["src"; "a.rar"]] → stem q = stem ["src"; "a.zip"]) ∧
  ∃ n' st',
    main_loop nested_env 3 (demo_args 0) [["src"; "a.zip"]; ["src"; "a.rar"]] 0
      (start same_stem_source) = Some (Val n', st') ∧
    n' = 0 + 1.
Proof.
  assert (H0 : num_files (demo_args 0) = 0) by reflexivity.
  assert (H1 : ¬ tmp_dir (demo_args 0) `prefix_of` output (demo_args 0))
    by (intros [k Hk]; discriminate).
  assert (H2 : ¬ output (demo_args 0) `prefix_of` tmp_dir (demo_args 0))
    by (intros [k Hk]; discriminate).
  assert (H3 : exists_ (fs (start same_stem_source))
                 (child (output (demo_args 0)) (stem ["src"; "a.zip"])) = false)
    by (vm_compute; reflexivity).
  assert (H4 : ∀ q, q ∈ [["src"; "a.rar"]] → stem q = stem ["src"; "a.zip"]).
  { intros q Hq. apply list_elem_of_singleton in Hq as ->. vm_compute. reflexivity. }
  split; [exact H0|]. split; [exact H1|]. split; [exact H2|]. split; [exact H3|].
  split; [exact H4|].
  destruct (main_loop nested_env 3 (demo_args 0) [["src"; "a.zip"]; ["src"; "a.rar"]] 0
              (start same_stem_source)) as [[[n'|e] st']|] eqn:H;
    [|vm_compute in H; discriminate..].
  exists n', st'. split; [reflexivity|].
  exact (same_stem_archives_are_processed_once nested_env 3 (demo_args 0)
           ["src"; "a.zip"] [["src"; "a.rar"]] 0 (start same_stem_source) n' st'
           H0 H1 H2 H3 H4 H).
Defined.
End OrchestratorPropertiesWitnesses.

(** * mass_extractor.py: counts, cap and processing order *)

Section MassCounts.
Import Text Paths FS World Mass.
Local Open Scope monad_scope.
Variable E : environment.

Lemma mass_extract_archive_val archive t st :
  ∃ b st', extract_archive E archive t st = Some (Val b, st').
Proof.
  rewrite mass_extract_archive_run.
  destruct (library_for archive); [|by eauto]. cbv zeta.
  destruct (failure _); eauto.
Qed.

(** Archives whose folders all exist are skipped one after the other,
    under any cap and without one: the comparison of the count with the
    cap is not reached. *)
Lemma extract_loop_all_skipped target cap l n s st :
  (∀ p, p ∈ l → exists_ (fs st) (child target (stem p)) = true) →
  extract_loop E target cap l n s st =
    Some (Val (n, s + Z.of_nat (length l)),
          {| fs := fs st;
             stdout := stdout st ++ map (λ p, MassSkipping (name p)) l |}).
Proof.
  revert s st. induction l as [|p l IH]; intros s st Hall.
  - simpl. unfold ret. rewrite Z.add_0_r, app_nil_r. by destruct st.
  - cbn [extract_loop]. cbv [bind path_exists get_fs ret print].
    rewrite Hall by (by left). rewrite IH by (intros q Hq; apply Hall; by right).
    simpl. rewrite <- app_assoc. do 3 f_equal. f_equal. lia.
Qed.

Lemma extract_loop_no_cap_raises target l n s st :
  (∃ p, p ∈ l ∧ exists_ (fs st) (child target (stem p)) = false) →
  ∃ st', extract_loop E target None l n s st = Some (Exn TypeError, st').
Proof.
  revert s st. induction l as [|p l IH]; intros s st (q & Hq & Hnew).
  - by apply elem_of_nil in Hq.
  - destruct (exists_ (fs st) (child target (stem p))) eqn:Hex.
    + apply elem_of_cons in Hq as [->|Hq]; [congruence|].
      cbn [extract_loop]. cbv [bind path_exists get_fs ret print]. rewrite Hex.
      apply IH. by exists q.
    + by apply extract_loop_without_cap_raises.
Qed.

Lemma extract_loop_with_cap target cap l n s st :
  ∃ n' s' st', extract_loop E target (Some cap) l n s st = Some (Val (n', s'), st') ∧
    n ≤ n' ∧ s ≤ s' ∧ (n' - n) + (s' - s) ≤ Z.of_nat (length l) ∧
    (n < cap → n' ≤ cap) ∧ (cap ≤ n → n' ≤ n + 1).
Proof.
  revert n s st. induction l as [|p l IH]; intros n s st.
  - exists n, s, st. split; [done|]. simpl. lia.
  - cbn [extract_loop]. cbv [bind path_exists get_fs ret print].
    destruct (exists_ (fs st) (child target (stem p))).
    + destruct (IH n (s + 1) {| fs := fs st;
                                stdout := stdout st ++ [MassSkipping (name p)] |})
        as (n' & s' & st' & -> & ?).
      exists n', s', st'. split; [done|]. simpl length. lia.
    + match goal with |- context [extract_archive E p ?t ?st0] =>
        destruct (mass_extract_archive_val p t st0) as (b & st1 & ->) end.
      cbv [int_ge ret].
      set (n1 := if b then n + 1 else n).
      assert (n ≤ n1 ≤ n + 1) by (unfold n1; destruct b; lia).
      destruct (Z.leb_spec cap n1).
      * exists n1, s, st1. split; [done|]. simpl length. lia.
      * destruct (IH n1 s st1) as (n' & s' & st' & -> & ?).
        exists n', s', st'. split; [done|]. simpl length. lia.
Qed.

(** X15. Without [-n] the default [num_files=None] reaches the comparison
    [processed_count >= num_files] after the first archive that is not
    skipped: [extract_archives] returns its counts only when every listed
    archive already has its folder, and raises [TypeError] otherwise. *)
Theorem extract_archives_without_cap_returns_only_when_all_skipped
    folder target st :
  let files := mkdir_p (fs st) target in
  let l := sort (glob_ext E files folder ".zip" ++ glob_ext E files folder ".rar") in
  ((∀ p, p ∈ l → exists_ files (child target (stem p)) = true) →
   extract_archives E folder target None st =
     Some (Val (0, Z.of_nat (length l)),
           {| fs := files;
              stdout := stdout st ++ map (λ p, MassSkipping (name p)) l |})) ∧
  ((∃ p, p ∈ l ∧ exists_ files (child target (stem p)) = false) →
   ∃ st', extract_archives E folder target None st = Some (Exn TypeError, st')).
Proof.
  intros files l. split.
  - intros Hall. unfold extract_archives.
    cbv [bind mkdir_parents update_fs get_fs]. simpl. fold files. fold l.
    by rewrite extract_loop_all_skipped.
  - intros Hsome. unfold extract_archives.
    cbv [bind mkdir_parents update_fs get_fs]. simpl. fold files. fold l.
    by apply extract_loop_no_cap_raises.
Qed.

(** X16. With a cap [extract_archives] always returns its two counts: neither
    is negative, together they count at most the listed archives, and the
    number of processed archives is at most the cap, or at most one when
    the cap is zero or negative (the cap is tested after the extraction). *)
Theorem extract_archives_with_cap_returns_bounded_counts folder target cap st :
  ∃ processed skipped st',
    extract_archives E folder target (Some cap) st
      = Some (Val (processed, skipped), st') ∧
    0 ≤ processed ≤ Z.max cap 1 ∧ 0 ≤ skipped ∧
    processed + skipped ≤
      Z.of_nat (length (glob_ext E (mkdir_p (fs st) target) folder ".zip" ++
                        glob_ext E (mkdir_p (fs st) target) folder ".rar")).
Proof.
  unfold extract_archives. cbv [bind mkdir_parents update_fs get_fs]. simpl.
  set (files := mkdir_p (fs st) target).
  set (l := glob_ext E files folder ".zip" ++ glob_ext E files folder ".rar").
  destruct (extract_loop_with_cap target cap (sort l) 0 0
              {| fs := files; stdout := stdout st |})
    as (n & s & st' & -> & ? & ? & Hlen & ? & ?).
  exists n, s, st'. split; [done|].
  assert (length (sort l) = length l) as Hsort.
  { clear. induction l as [|p l IH]; [done|]. simpl. rewrite <- IH.
    generalize (sort l). intros k. induction k as [|q k IHk]; simpl; [done|].
    destruct (path_leb p q); simpl; [done|]. by rewrite IHk. }
  rewrite Hsort in Hlen. lia.
Qed.
End MassCounts.

Section MassOrderFacts.
Import Text Paths FS World Mass MassOrder.
Local Open Scope monad_scope.

Lemma string_compare_trans (s1 s2 s3 : string) :
  String.compare s1 s2 ≠ Gt → String.compare s2 s3 ≠ Gt →
  String.compare s1 s3 ≠ Gt.
Proof.
  revert s2 s3. induction s1 as [|c1 s1 IH]; intros [|c2 s2] [|c3 s3]; simpl;
    try done.
  unfold Ascii.compare.
  destruct (N.compare_spec (N_of_ascii c1) (N_of_ascii c2)) as [H12|H12|H12];
    destruct (N.compare_spec (N_of_ascii c2) (N_of_ascii c3)) as [H23|H23|H23];
    destruct (N.compare_spec (N_of_ascii c1) (N_of_ascii c3)) as [H13|H13|H13];
    try done; try lia.
  apply IH.
Qed.

#[global] Instance path_le_total : Total path_le.
Proof.
  intros p. induction p as [|x p IH]; intros [|y q]; unfold path_le; simpl; auto.
  rewrite (String.eqb_sym y x). destruct (String.eqb x y).
  - apply IH.
  - apply String.leb_total.
Qed.

#[global] Instance path_le_antisym : AntiSymm eq path_le.
Proof.
  intros p. induction p as [|x p IH]; intros [|y q]; unfold path_le; simpl;
    try done.
  rewrite (String.eqb_sym y x). destruct (String.eqb_spec x y) as [->|Hne].
  - intros H1 H2. f_equal. by apply IH.
  - intros H1 H2. destruct Hne. by apply String.leb_antisym.
Qed.

#[global] Instance path_le_trans : Transitive path_le.
Proof.
  intros p. induction p as [|x p IH]; intros [|y q] [|z r]; unfold path_le; simpl;
    try done.
  destruct (String.eqb_spec x y) as [->|Hxy].
  - destruct (String.eqb_spec y z) as [->|Hyz]; [apply IH|done].
  - destruct (String.eqb_spec y z) as [->|Hyz].
    + by destruct (String.eqb_spec x z).
    + intros H1 H2. destruct (String.eqb_spec x z) as [->|Hxz].
      * destruct Hxy. by apply String.leb_antisym.
      * unfold String.leb in *.
        pose proof (string_compare_trans x y z).
        destruct (String.compare x y), (String.compare y z),
          (String.compare x z); try done; exfalso; by apply H.
Qed.

Lemma insert_sorted_perm p l : insert_sorted p l ≡ₚ p :: l.
Proof.
  induction l as [|q l IH]; simpl; [done|].
  destruct (path_leb p q); [done|]. rewrite IH. apply Permutation_swap.
Qed.

Lemma sort_perm l : sort l ≡ₚ l.
Proof.
  induction l as [|p l IH]; simpl; [done|].
  fold (sort l). by rewrite insert_sorted_perm, IH.
Qed.

Lemma insert_sorted_sorted p l :
  Sorted path_le l → Sorted path_le (insert_sorted p l).
Proof.
  induction 1 as [|q l Hl IH Hhd]; simpl.
  - by repeat constructor.
  - destruct (path_leb p q) eqn:Hpq.
    + constructor; [by constructor|by constructor].
    + constructor; [done|].
      assert (path_le q p) as Hqp by (destruct (path_le_total p q); [congruence|done]).
      destruct Hhd as [|r l Hr]; simpl; [by constructor|].
      destruct (path_leb p r); by constructor.
Qed.

Lemma sort_sorted l : Sorted path_le (sort l).
Proof.
  induction l as [|p l IH]; simpl; [constructor|].
  by apply insert_sorted_sorted.
Qed.

Lemma sort_proper l1 l2 : l1 ≡ₚ l2 → sort l1 = sort l2.
Proof.
  intros Hp. apply (Sorted_unique path_le); [apply sort_sorted..|].
  by rewrite !sort_perm.
Qed.

Lemma list_filter_perm {A} (f : A → bool) (l1 l2 : list A) :
  l1 ≡ₚ l2 → List.filter f l1 ≡ₚ List.filter f l2.
Proof.
  induction 1 as [|x l1 l2 _ IH|x y l|l1 l2 l3 _ IH1 _ IH2]; simpl.
  - done.
  - destruct (f x); [by constructor|done].
  - destruct (f x), (f y); try done. apply Permutation_swap.
  - by etransitivity.
Qed.

Variable E : environment.

Lemma glob_ext_perm ord files folder ext :
  glob_ext (with_order E ord) files folder ext ≡ₚ glob_ext E files folder ext.
Proof.
  unfold glob_ext, iterdir. apply list_filter_perm. simpl.
  by rewrite !order_perm.
Qed.

Lemma bind_ext {A B} (m : M A) (k1 k2 : A → M B) st :
  (∀ a st1, k1 a st1 = k2 a st1) → bind m k1 st = bind m k2 st.
Proof. intros Hk. unfold bind. destruct (m st) as [[[a|e] st1]|]; auto. Qed.

Lemma extract_loop_with_order ord target cap l n s st :
  extract_loop (with_order E ord) target cap l n s st
    = extract_loop E target cap l n s st.
Proof.
  revert n s st. induction l as [|p l IH]; intros n s st; [done|].
  cbn [extract_loop]. apply bind_ext. intros [] st1.
  - apply bind_ext. intros _ st2. apply IH.
  - apply bind_ext. intros _ st2.
    change (extract_archive (with_order E ord) p) with (extract_archive E p).
    apply bind_ext. intros ok st3. apply bind_ext. intros [] st4; [done|apply IH].
Qed.

(** X17. [archive_files.sort()] makes the run independent of the order in which
    the operating system lists the folder: in a world that differs only
    in that order [extract_archives] does the same. *)
Theorem extract_archives_ignores_listing_order ord folder target cap st :
  extract_archives (with_order E ord) folder target cap st
    = extract_archives E folder target cap st.
Proof.
  unfold extract_archives. cbv [bind mkdir_parents update_fs get_fs]. simpl.
  rewrite extract_loop_with_order. f_equal.
  apply sort_proper. by rewrite !glob_ext_perm.
Qed.

Lemma NoDup_iterdir (files : filesystem) dir :
  NoDup (iterdir (scandir_order E) files dir).
Proof.
  unfold iterdir. rewrite (order_perm (scandir_order E)).
  apply NoDup_ListNoDup, List.NoDup_filter, NoDup_ListNoDup, NoDup_fst_map_to_list.
Qed.

Lemma elem_of_glob_ext (files : filesystem) dir ext p :
  p ∈ glob_ext E files dir ext ↔
  is_Some (files !! p) ∧ parent p = dir ∧ p ≠ [] ∧
  endswith (of_string (name p)) (of_string ext) = true.
Proof.
  unfold glob_ext.
  rewrite list_elem_of_In, filter_In, <- list_elem_of_In, elem_of_iterdir. tauto.
Qed.

(** X18. The archives [extract_archives] goes through: the entries directly in
    the folder, files or not, whose name ends with [.zip] or [.rar] in
    lower case, each of them once, in ascending order of their paths. *)
Theorem extract_archives_listing (files : filesystem) folder :
  let l := sort (glob_ext E files folder ".zip" ++ glob_ext E files folder ".rar") in
  (∀ p, p ∈ l ↔
     is_Some (files !! p) ∧ parent p = folder ∧ p ≠ [] ∧
     (endswith (of_string (name p)) (of_string ".zip") = true ∨
      endswith (of_string (name p)) (of_string ".rar") = true)) ∧
  NoDup l ∧ Sorted path_le l.
Proof.
  intros l. split; [|split].
  - intros p. unfold l. rewrite sort_perm, elem_of_app, !elem_of_glob_ext. tauto.
  - unfold l. rewrite sort_perm. apply NoDup_app. split; [|split].
    + apply NoDup_ListNoDup, List.NoDup_filter, NoDup_ListNoDup, NoDup_iterdir.
    + intros p (_ & _ & _ & [p1 H1]%endswith_spec)%elem_of_glob_ext
               (_ & _ & _ & [p2 H2]%endswith_spec)%elem_of_glob_ext.
      rewrite H1 in H2. apply (f_equal (@rev ascii)) in H2.
      rewrite !rev_app_distr in H2. simpl in H2. discriminate.
    + apply NoDup_ListNoDup, List.NoDup_filter, NoDup_ListNoDup, NoDup_iterdir.
  - apply sort_sorted.
Qed.

Lemma suffix_text_extension pre ext :
  dot ∉ ext → ext ≠ [] →
  suffix_text (pre ++ dot :: ext) = if bool_decide (pre = []) then [] else dot :: ext.
Proof.
  intros Hdot Hext. unfold suffix_text, rfind.
  rewrite rfind_from_last by (done || lia).
  unfold len. rewrite length_app. simpl.
  case_bool_decide as Hpre.
  - subst pre. done.
  - assert (length pre ≠ 0%nat) by (by destruct pre).
    assert (length ext ≠ 0%nat) by (by destruct ext).
    rewrite Z.add_0_l, Nat2Z.id.
    destruct (Z.ltb_spec 0 (Z.of_nat (length pre))); [|lia].
    destruct (Z.ltb_spec (Z.of_nat (length pre))
                (Z.of_nat (length pre + S (length ext)) - 1)); [|lia].
    simpl. by rewrite drop_app_length.
Qed.

Lemma not_elem_of_ext (ext : string) :
  forallb (λ c, negb (Ascii.eqb c dot)) (of_string ext) = true →
  dot ∉ of_string ext.
Proof.
  intros Hall Hin. apply list_elem_of_In in Hin.
  rewrite forallb_forall in Hall. specialize (Hall _ Hin).
  by rewrite Ascii.eqb_refl in Hall.
Qed.

(** X19. Of the listed entries only those named exactly [.zip] or [.rar] have
    no suffix for [extract_archive] to recognise; for such an entry the
    call extracts nothing, changes nothing and returns [True], so that the
    loop counts it as processed. *)
Theorem listed_archive_without_suffix p :
  endswith (of_string (name p)) (of_string ".zip") = true ∨
  endswith (of_string (name p)) (of_string ".rar") = true →
  (library_for p = None ↔ name p = ".zip"%string ∨ name p = ".rar"%string) ∧
  (library_for p = None →
   ∀ t st, extract_archive E p t st = Some (Val true, st)).
Proof.
  intros Hend. split.
  2: { intros Hnone t st. by rewrite mass_extract_archive_run, Hnone. }
  unfold library_for, suffix. rewrite of_string_to_string.
  assert (∀ s : string, of_string (name p) = of_string s → name p = s) as Hinj.
  { intros s Hs. apply (f_equal to_string) in Hs. unfold to_string, of_string in Hs.
    by rewrite !string_of_list_ascii_of_string in Hs. }
  assert (∀ pre (s : string), of_string (name p) = pre ++ of_string s →
            pre ≠ [] → ∀ s' : string, length (of_string s') = length (of_string s) →
            name p ≠ s') as Hlonger.
  { intros pre s Hs Hpre s' Hlen Hn. rewrite Hn in Hs. apply (f_equal length) in Hs.
    rewrite length_app, Hlen in Hs. destruct pre; [done|]. simpl in Hs. lia. }
  destruct Hend as [[pre H]%endswith_spec|[pre H]%endswith_spec]; rewrite H.
  - change (of_string ".zip") with (dot :: of_string "zip").
    rewrite suffix_text_extension; [|apply not_elem_of_ext; reflexivity|by vm_compute].
    destruct (decide (pre = [])) as [->|Hpre].
    + rewrite (bool_decide_eq_true_2 (@nil ascii = [])) by done.
      rewrite !bool_decide_eq_false_2 by done.
      split; [|done]. intros _. left. by apply Hinj.
    + rewrite (bool_decide_eq_false_2 (pre = [])) by done.
      rewrite bool_decide_eq_true_2 by reflexivity.
      split; [done|]. intros [Hn|Hn]; exfalso; revert Hn;
        by apply (Hlonger pre ".zip"%string).
  - change (of_string ".rar") with (dot :: of_string "rar").
    rewrite suffix_text_extension; [|apply not_elem_of_ext; reflexivity|by vm_compute].
    destruct (decide (pre = [])) as [->|Hpre].
    + rewrite (bool_decide_eq_true_2 (@nil ascii = [])) by done.
      rewrite !bool_decide_eq_false_2 by done.
      split; [|done]. intros _. right. by apply Hinj.
    + rewrite (bool_decide_eq_false_2 (pre = [])) by done.
      rewrite (bool_decide_eq_false_2 (lower (dot :: of_string "rar") = dot :: of_string "zip"))
        by (intros Heq; vm_compute in Heq; discriminate).
      rewrite bool_decide_eq_true_2 by reflexivity.
      split; [done|]. intros [Hn|Hn]; exfalso; revert Hn;
        by apply (Hlonger pre ".rar"%string).
Qed.
End MassOrderFacts.

Section MassOrderWitnesses.
Import Text Paths FS World Mass Demo.
Local Open Scope string_scope.

Lemma listed_archive_without_suffix_witness :
  (endswith (of_string (name ["src"; ".zip"])) (of_string ".zip") = true ∨
   endswith (of_string (name ["src"; ".zip"])) (of_string ".rar") = true) ∧
  (library_for ["src"; ".zip"] = None ↔
     name ["src"; ".zip"] = ".zip" ∨ name ["src"; ".zip"] = ".rar") ∧
  (library_for ["src"; ".zip"] = None →
   ∀ t st, extract_archive nested_env ["src"; ".zip"] t st = Some (Val true, st)).
Proof.
  assert (H : endswith (of_string (name ["src"; ".zip"])) (of_string ".zip") = true ∨
              endswith (of_string (name ["src"; ".zip"])) (of_string ".rar") = true)
    by (left; vm_compute; reflexivity).
  split; [exact H|].
  exact (listed_archive_without_suffix nested_env ["src"; ".zip"] H).
Defined.
End MassOrderWitnesses.

(** * The segment filter, exactly *)

Section SegmentFilter.
Import Text Re Paths Classifier Described.
Implicit Types (s t u pre ds : text) (c x : ascii).

Lemma matches_at_cat ic r1 r2 t :
  matches_at ic (Cat r1 r2) t = true ↔
  ∃ u, u ∈ residuals ic r1 t ∧ matches_at ic r2 u = true.
Proof.
  unfold matches_at.
  change (residuals ic (Cat r1 r2) t)
    with (flat_map (residuals ic r2) (residuals ic r1 t)).
  induction (residuals ic r1 t) as [|v l IH]; simpl.
  - split; [done|]. by intros (u & Hu%elem_of_nil & _).
  - destruct (residuals ic r2 v) as [|w k] eqn:Hv; simpl.
    + rewrite IH. split.
      * intros (u & Hu & Hm). exists u. split; [by right|done].
      * intros (u & [->|Hu]%elem_of_cons & Hm); [by rewrite Hv in Hm|by exists u].
    + split; [|done]. intros _. exists v. split; [by left|by rewrite Hv].
Qed.

Lemma elem_of_residuals_lit ic c t u :
  u ∈ residuals ic (Lit c) t ↔ ∃ x, t = x :: u ∧ char_matches ic c x = true.
Proof.
  destruct t as [|x t]; simpl.
  - split; [by intros ?%elem_of_nil|by intros (x & [=] & _)].
  - destruct (char_matches ic c x) eqn:Hx.
    + rewrite list_elem_of_singleton. split; [intros ->; by exists x|].
      by intros (y & [= -> ->] & _).
    + split; [by intros ?%elem_of_nil|]. intros (y & [= -> ->] & Hy). congruence.
Qed.

Lemma elem_of_residuals_digit ic t u :
  u ∈ residuals ic Digit t ↔ ∃ x, t = x :: u ∧ is_digit x = true.
Proof.
  destruct t as [|x t]; simpl.
  - split; [by intros ?%elem_of_nil|by intros (x & [=] & _)].
  - destruct (is_digit x) eqn:Hx.
    + rewrite list_elem_of_singleton. split; [intros ->; by exists x|].
      by intros (y & [= -> ->] & _).
    + split; [by intros ?%elem_of_nil|]. intros (y & [= -> ->] & Hy). congruence.
Qed.

Lemma elem_of_flat_map {A B} (f : A → list B) (l : list A) (y : B) :
  y ∈ flat_map f l ↔ ∃ a, a ∈ l ∧ y ∈ f a.
Proof.
  rewrite list_elem_of_In, in_flat_map. split; intros (a & Ha & Hy); exists a.
  - by rewrite !list_elem_of_In.
  - by rewrite <- !list_elem_of_In.
Qed.

Lemma elem_of_residuals_repeat_digit ic n t u :
  u ∈ residuals ic (Repeat n Digit) t ↔
  ∃ ds, length ds = n ∧ all_digits ds ∧ t = ds ++ u.
Proof.
  change (residuals ic (Repeat n Digit) t)
    with (Nat.iter n (flat_map (residuals ic Digit)) [t]).
  revert u. induction n as [|n IH]; intros u.
  - simpl. rewrite list_elem_of_singleton. split.
    + intros ->. exists []. by split; [|split; [constructor|]].
    + intros (ds & Hlen & _ & ->). by destruct ds.
  - rewrite Nat.iter_succ, elem_of_flat_map. split.
    + intros (v & Hv & Hu). apply IH in Hv as (ds & Hlen & Hds & ->).
      apply elem_of_residuals_digit in Hu as (x & -> & Hx).
      exists (ds ++ [x]). split; [rewrite length_app; simpl; lia|]. split.
      * apply Forall_app. split; [done|]. by constructor.
      * by rewrite <- app_assoc.
    + intros (ds & Hlen & Hds & ->).
      destruct ds as [|x ds _] using rev_ind; [done|].
      rewrite length_app in Hlen. simpl in Hlen.
      apply Forall_app in Hds as [Hds Hx]. apply Forall_cons in Hx as [Hx _].
      exists (x :: u). split.
      * apply IH. exists ds. split; [lia|]. split; [done|]. by rewrite <- app_assoc.
      * apply elem_of_residuals_digit. by exists x.
Qed.

Lemma elem_of_plus_iter_digit ic n t u :
  u ∈ plus_iter n (residuals ic Digit) t ↔
  ∃ ds, ds ≠ [] ∧ (length ds ≤ S n)%nat ∧ all_digits ds ∧ t = ds ++ u.
Proof.
  revert t. induction n as [|n IH]; intros t.
  - cbn [plus_iter]. rewrite elem_of_residuals_digit. split.
    + intros (x & -> & Hx). exists [x]. split; [done|]. split; [simpl; lia|].
      split; [by constructor|done].
    + intros (ds & Hne & Hlen & Hds & ->). destruct ds as [|x [|y ds]]; try done.
      * apply Forall_cons in Hds as [Hx _]. by exists x.
      * simpl in Hlen. lia.
  - cbn [plus_iter]. rewrite elem_of_app, elem_of_flat_map. split.
    + intros [Hu|(v & Hv & Hu)].
      * apply elem_of_residuals_digit in Hu as (x & -> & Hx).
        exists [x]. split; [done|]. split; [simpl; lia|]. split; [by constructor|done].
      * apply IH in Hu as (ds & Hne & Hlen & Hds & ->).
        apply elem_of_residuals_digit in Hv as (x & -> & Hx).
        exists (x :: ds). split; [done|]. split; [simpl; lia|].
        split; [by constructor|done].
    + intros (ds & Hne & Hlen & Hds & ->). destruct ds as [|x ds]; [done|].
      apply Forall_cons in Hds as [Hx Hds].
      destruct ds as [|y ds].
      * left. apply elem_of_residuals_digit. by exists x.
      * right. exists ((y :: ds) ++ u). split.
        -- apply elem_of_residuals_digit. by exists x.
        -- apply IH. exists (y :: ds). split; [done|]. split; [simpl in *; lia|done].
Qed.

Lemma elem_of_residuals_plus_digit ic t u :
  u ∈ residuals ic (Plus Digit) t ↔ ∃ ds, ds ≠ [] ∧ all_digits ds ∧ t = ds ++ u.
Proof.
  change (residuals ic (Plus Digit) t)
    with (plus_iter (length t) (residuals ic Digit) t).
  rewrite elem_of_plus_iter_digit. split.
  - intros (ds & ? & _ & ? & ?). by exists ds.
  - intros (ds & ? & ? & ->). exists ds. split; [done|]. split; [|done].
    rewrite length_app. lia.
Qed.

Lemma char_matches_ci c x :
  char_matches true c x = true ↔ lower_char x = lower_char c.
Proof. unfold char_matches. apply Ascii.eqb_eq. Qed.

(** What the skip pattern matches at the start of a text. *)
Lemma matches_at_skip_regex_spec t :
  matches_at true skip_regex t = true ↔
  ∃ ds tail, all_digits ds ∧ at_dollar tail = true ∧
    ((∃ r, t = dot :: r :: ds ++ tail ∧ lower_char r = "r"%char ∧ ds ≠ []) ∨
     (t = dot :: ds ++ tail ∧ length ds = 3%nat) ∨
     (∃ z, t = dot :: z :: ds ++ tail ∧ lower_char z = "z"%char ∧ length ds = 2%nat) ∨
     (∃ z, t = dot :: "7"%char :: z :: dot :: ds ++ tail ∧
           lower_char z = "z"%char ∧ length ds = 3%nat)).
Proof.
  rewrite matches_at_skip_regex, !orb_true_iff.
  unfold cat_all. cbn [foldr].
  repeat setoid_rewrite matches_at_cat.
  repeat setoid_rewrite elem_of_residuals_lit.
  repeat setoid_rewrite elem_of_residuals_repeat_digit.
  repeat setoid_rewrite elem_of_residuals_plus_digit.
  repeat setoid_rewrite char_matches_ci.
  assert (∀ u v, (v ∈ residuals true Dollar u ∧ matches_at true Eps v = true)
                 ↔ v = u ∧ at_dollar u = true) as Hdollar.
  { intros u v. simpl. destruct (at_dollar u).
    - rewrite list_elem_of_singleton. unfold matches_at. simpl. tauto.
    - split; [by intros [?%elem_of_nil _]|by intros [_ ?]]. }
  repeat setoid_rewrite Hdollar.
  split.
  - intros [[[H|H]|H]|H].
    + destruct H as (u1 & (x0 & -> & Hx0) & u2 & (x1 & -> & Hx1) &
                     u3 & (ds & Hne & Hds & ->) & v & -> & Hend).
      apply lower_char_dot in Hx0 as ->.
      exists ds, u3. split; [done|]. split; [done|]. left. by exists x1.
    + destruct H as (u1 & (x0 & -> & Hx0) & u2 & (ds & Hlen & Hds & ->) & v & -> & Hend).
      apply lower_char_dot in Hx0 as ->.
      exists ds, u2. split; [done|]. split; [done|]. right. by left.
    + destruct H as (u1 & (x0 & -> & Hx0) & u2 & (x1 & -> & Hx1) &
                     u3 & (ds & Hlen & Hds & ->) & v & -> & Hend).
      apply lower_char_dot in Hx0 as ->.
      exists ds, u3. split; [done|]. split; [done|]. right. right. left. by exists x1.
    + destruct H as (u1 & (x0 & -> & Hx0) & u2 & (x1 & -> & Hx1) &
                     u3 & (x2 & -> & Hx2) & u4 & (x3 & -> & Hx3) &
                     u5 & (ds & Hlen & Hds & ->) & v & -> & Hend).
      apply lower_char_dot in Hx0 as ->. apply lower_char_dot in Hx3 as ->.
      assert (x1 = "7"%char) as ->.
      { revert Hx1. destruct x1 as [[] [] [] [] [] [] [] []]; vm_compute; congruence. }
      exists ds, u5. split; [done|]. split; [done|]. do 3 right. by exists x2.
  - intros (ds & tail & Hds & Hend & [H|[H|[H|H]]]).
    + destruct H as (r & -> & Hr & Hne). do 3 left.
      eexists. split; [by exists dot|]. eexists. split; [by exists r|].
      eexists. split; [by exists ds|]. by eexists.
    + destruct H as [-> Hlen]. do 2 left. right.
      eexists. split; [by exists dot|]. eexists. split; [by exists ds|]. by eexists.
    + destruct H as (z & -> & Hz & Hlen). left. right.
      eexists. split; [by exists dot|]. eexists. split; [by exists z|].
      eexists. split; [by exists ds|]. by eexists.
    + destruct H as (z & -> & Hz & Hlen). right.
      eexists. split; [by exists dot|]. eexists. split; [by exists "7"%char|].
      eexists. split; [by exists z|]. eexists. split; [by exists dot|].
      eexists. split; [by exists ds|]. by eexists.
Qed.

Lemma search_skip_regex_spec s :
  search true skip_regex s = true ↔
  described_segment s ∨ ∃ s', s = s' ++ [newline] ∧ described_segment s'.
Proof.
  rewrite search_spec. setoid_rewrite matches_at_skip_regex_spec.
  setoid_rewrite at_dollar_spec. split.
  - intros (pre & t & -> & ds & tail & Hds & [-> | ->] & H).
    + left. exists pre, ds. split; [done|]. rewrite !app_nil_r in H.
      destruct H as [(r & -> & ?)|[[-> ?]|[(z & -> & ?)|(z & -> & ?)]]].
      * left. by exists r.
      * right. by left.
      * right. right. left. by exists z.
      * do 3 right. by exists z.
    + right.
      destruct H as [(r & -> & ?)|[[-> ?]|[(z & -> & ?)|(z & -> & ?)]]].
      * exists (pre ++ dot :: r :: ds). split; [by rewrite <- app_assoc|].
        exists pre, ds. split; [done|]. left. by exists r.
      * exists (pre ++ dot :: ds). split; [by rewrite <- app_assoc|].
        exists pre, ds. split; [done|]. right. by left.
      * exists (pre ++ dot :: z :: ds). split; [by rewrite <- app_assoc|].
        exists pre, ds. split; [done|]. right. right. left. by exists z.
      * exists (pre ++ dot :: "7"%char :: z :: dot :: ds).
        split; [by rewrite <- app_assoc|].
        exists pre, ds. split; [done|]. do 3 right. by exists z.
  - intros [(pre & ds & Hds & H)|(s' & -> & pre & ds & Hds & H)].
    + destruct H as [(r & -> & ?)|[[-> ?]|[(z & -> & ?)|(z & -> & ?)]]].
      * exists pre, (dot :: r :: ds). split; [done|]. exists ds, [].
        rewrite app_nil_r. split; [done|]. split; [by left|]. left. by exists r.
      * exists pre, (dot :: ds). split; [done|]. exists ds, [].
        rewrite app_nil_r. split; [done|]. split; [by left|]. right. by left.
      * exists pre, (dot :: z :: ds). split; [done|]. exists ds, [].
        rewrite app_nil_r. split; [done|]. split; [by left|].
        right. right. left. by exists z.
      * exists pre, (dot :: "7"%char :: z :: dot :: ds). split; [done|].
        exists ds, []. rewrite app_nil_r. split; [done|]. split; [by left|].
        do 3 right. by exists z.
    + destruct H as [(r & -> & ?)|[[-> ?]|[(z & -> & ?)|(z & -> & ?)]]].
      * exists pre, (dot :: r :: ds ++ [newline]).
        split; [by rewrite <- app_assoc|]. exists ds, [newline].
        split; [done|]. split; [by right|]. left. by exists r.
      * exists pre, (dot :: ds ++ [newline]).
        split; [by rewrite <- app_assoc|]. exists ds, [newline].
        split; [done|]. split; [by right|]. right. by left.
      * exists pre, (dot :: z :: ds ++ [newline]).
        split; [by rewrite <- app_assoc|]. exists ds, [newline].
        split; [done|]. split; [by right|]. right. right. left. by exists z.
      * exists pre, (dot :: "7"%char :: z :: dot :: ds ++ [newline]).
        split; [by rewrite <- app_assoc|]. exists ds, [newline].
        split; [done|]. split; [by right|]. do 3 right. by exists z.
Qed.

Lemma is_digit_lower_char c : is_digit (lower_char c) = is_digit c.
Proof. by destruct c as [[] [] [] [] [] [] [] []]. Qed.

Lemma all_digits_lower ds : all_digits (lower ds) ↔ all_digits ds.
Proof.
  unfold all_digits, lower. rewrite Forall_fmap. apply Forall_iff. intros c.
  simpl. by rewrite is_digit_lower_char.
Qed.

Lemma lower_cons_inv s c l :
  lower s = c :: l → ∃ x s', s = x :: s' ∧ lower_char x = c ∧ lower s' = l.
Proof. destruct s as [|x s']; [done|]. intros [= <- <-]. by exists x, s'. Qed.

Lemma lower_char_seven c : lower_char c = "7"%char → c = "7"%char.
Proof. destruct c as [[] [] [] [] [] [] [] []]; vm_compute; congruence. Qed.

Lemma lower_char_newline c : lower_char c = newline → c = newline.
Proof. destruct c as [[] [] [] [] [] [] [] []]; vm_compute; congruence. Qed.

(** The description of a segment name does not depend on the case of its
    letters. *)
Lemma described_segment_lower nm :
  described_segment (lower nm) ↔ described_segment nm.
Proof.
  split.
  - intros (pre & ds & Hds & H).
    destruct H as [(r & H & Hr & Hne)|[[H Hlen]|[(z & H & Hz & Hlen)|(z & H & Hz & Hlen)]]];
      apply lower_app_inv in H as (a & b & -> & _ & H);
      apply lower_cons_inv in H as (x0 & b0 & -> & ->%lower_char_dot & H).
    + apply lower_cons_inv in H as (x1 & b1 & -> & <- & <-).
      exists a, b1. split; [by apply all_digits_lower|]. left. exists x1.
      split; [done|]. split; [by rewrite <- lower_char_idem|].
      intros ->. by apply Hne.
    + subst ds. exists a, b0. split; [by apply all_digits_lower|]. right. left.
      split; [done|]. by rewrite <- length_lower.
    + apply lower_cons_inv in H as (x1 & b1 & -> & <- & <-).
      exists a, b1. split; [by apply all_digits_lower|]. right. right. left.
      exists x1. split; [done|]. split; [by rewrite <- lower_char_idem|].
      by rewrite <- length_lower.
    + apply lower_cons_inv in H as (x1 & b1 & -> & ->%lower_char_seven & H).
      apply lower_cons_inv in H as (x2 & b2 & -> & <- & H).
      apply lower_cons_inv in H as (x3 & b3 & -> & ->%lower_char_dot & <-).
      exists a, b3. split; [by apply all_digits_lower|]. do 3 right.
      exists x2. split; [done|]. split; [by rewrite <- lower_char_idem|].
      by rewrite <- length_lower.
  - intros (pre & ds & Hds & H). exists (lower pre), ds. split; [done|].
    destruct H as [(r & -> & Hr & Hne)|[[-> Hlen]|[(z & -> & Hz & Hlen)|(z & -> & Hz & Hlen)]]];
      rewrite lower_app; simpl; rewrite (lower_digits ds) by done.
    + left. exists (lower_char r). by rewrite lower_char_idem.
    + right. by left.
    + right. right. left. exists (lower_char z). by rewrite lower_char_idem.
    + do 3 right. exists (lower_char z). by rewrite lower_char_idem.
Qed.

(** X20. The segment filter of the relocator, exactly: a name is skipped when
    it ends, in any case of the letters, with [.r] and one or more digits,
    with a dot and three digits, with [.z] and two digits or with [.7z.]
    and three digits, or when it is such a name followed by one newline
    character (which [$] lets through).  Lowering the name before the
    case-insensitive search changes nothing. *)
Theorem is_split_segment_spec (file : string) :
  (is_split_segment file = true ↔
     described_segment (of_string file) ∨
     ∃ nm, of_string file = nm ++ [newline] ∧ described_segment nm) ∧
  is_split_segment file = search true skip_regex (of_string file).
Proof.
  assert (is_split_segment file = true ↔
     described_segment (of_string file) ∨
     ∃ nm, of_string file = nm ++ [newline] ∧ described_segment nm) as Hspec.
  { unfold is_split_segment. rewrite search_skip_regex_spec, described_segment_lower.
    split; (intros [H|H]; [by left|right]).
    - destruct H as (s' & H & Hs').
      apply lower_app_inv in H as (a & b & -> & <- & H).
      apply lower_cons_inv in H as (c & b' & -> & ->%lower_char_newline & H).
      destruct b'; [|done]. exists a. split; [done|]. by apply described_segment_lower.
    - destruct H as (nm & -> & Hnm). exists (lower nm).
      split; [by rewrite lower_app|]. by apply described_segment_lower. }
  split; [exact Hspec|].
  apply eq_true_iff_eq. by rewrite Hspec, search_skip_regex_spec.
Qed.

(** X21. The classifier, exactly: it accepts the names that end, in any case of
    the letters, with [.rar], [.zip], [.7z] or [.7z.001], and the names
    that end with [.7z.001] and one newline character; the answer depends
    on nothing but the lower-cased final component of the path. *)
Theorem is_core_archive_exactly (p : path) :
  (is_core_archive p = true ↔
     described_core (of_string (name p)) ∨
     ends_with_ci (of_string (name p)) (of_string ".7z.001" ++ [newline])) ∧
  (∀ q, lower (of_string (name q)) = lower (of_string (name p)) →
        is_core_archive q = is_core_archive p).
Proof.
  split; [apply is_core_archive_spec|].
  intros q Hq. unfold is_core_archive. by rewrite Hq.
Qed.

Lemma described_segment_last nm :
  described_segment nm → ∃ s d, nm = s ++ [d] ∧ is_digit d = true.
Proof.
  intros (pre & ds & Hds & H).
  assert (ds ≠ []) as Hne.
  { destruct H as [(r & _ & _ & ?)|[[_ Hlen]|[(z & _ & _ & Hlen)|(z & _ & _ & Hlen)]]];
      try done; by destruct ds. }
  destruct ds as [|d ds _] using rev_ind; [done|].
  apply Forall_app in Hds as [_ Hd]. apply Forall_cons in Hd as [Hd _].
  destruct H as [(r & -> & _)|[[-> _]|[(z & -> & _)|(z & -> & _)]]].
  - exists (pre ++ dot :: r :: ds), d. split; [|done].
    by rewrite <- !app_assoc.
  - exists (pre ++ dot :: ds), d. split; [|done]. by rewrite <- !app_assoc.
  - exists (pre ++ dot :: z :: ds), d. split; [|done]. by rewrite <- !app_assoc.
  - exists (pre ++ dot :: "7"%char :: z :: dot :: ds), d. split; [|done].
    by rewrite <- !app_assoc.
Qed.

Lemma ends_with_ci_last nm suf c :
  ends_with_ci nm (suf ++ [c]) → ∃ s x, nm = s ++ [x] ∧ lower_char x = c.
Proof.
  intros (pre & tail & -> & Ht).
  apply lower_app_inv in Ht as (t1 & t2 & -> & _ & Ht2).
  apply lower_cons_inv in Ht2 as (x & t3 & -> & Hx & Ht3).
  destruct t3; [|done]. exists (pre ++ t1), x. by rewrite <- app_assoc.
Qed.

Lemma ends_with_ci_first_volume nm :
  ends_with_ci nm (of_string ".7z.001") → described_segment nm.
Proof.
  intros (pre & tail & -> & Ht).
  apply lower_cons_inv in Ht as (x0 & t & -> & ->%lower_char_dot & Ht).
  apply lower_cons_inv in Ht as (x1 & t1 & -> & ->%lower_char_seven & Ht).
  apply lower_cons_inv in Ht as (x2 & t2 & -> & Hz & Ht).
  apply lower_cons_inv in Ht as (x3 & t3 & -> & ->%lower_char_dot & Ht).
  exists pre, t3. split.
  - apply all_digits_lower. rewrite Ht. by repeat constructor.
  - do 3 right. exists x2. split; [done|]. split; [done|].
    by rewrite <- length_lower, Ht.
Qed.

(** X22. The two filters of the relocator overlap on first volumes only: a
    core archive is also taken for a split segment, and then skipped
    without the "Skipping core archive" line, exactly when its name ends
    with [.7z.001] (or with [.7z.001] and a newline character). *)
Theorem core_archive_is_segment_iff_first_volume (p : path) :
  is_core_archive p = true ∧ is_split_segment (name p) = true ↔
  ends_with_ci (of_string (name p)) (of_string ".7z.001") ∨
  ends_with_ci (of_string (name p)) (of_string ".7z.001" ++ [newline]).
Proof.
  rewrite is_core_archive_spec, (proj1 (is_split_segment_spec (name p))).
  set (nm := of_string (name p)). split.
  - intros [[[H|[H|[H|H]]]|H] Hseg]; [| | |by left|by right]; exfalso.
    1: apply (ends_with_ci_last nm (of_string ".ra") "r"%char) in H
         as (s & x & Hnm & Hx).
    2: apply (ends_with_ci_last nm (of_string ".zi") "p"%char) in H
         as (s & x & Hnm & Hx).
    3: apply (ends_with_ci_last nm (of_string ".7") "z"%char) in H
         as (s & x & Hnm & Hx).
    all: destruct Hseg as [(s' & d & Hd & Hdig)%described_segment_last|
                           (nm' & Hd & _)];
      rewrite Hnm in Hd; apply app_inj_tail in Hd as [_ ->].
    all: revert Hx; try (revert Hdig);
      try (destruct d as [[] [] [] [] [] [] [] []]); vm_compute; congruence.
  - intros [H|H].
    + split; [left; by do 3 right|]. left. by apply ends_with_ci_first_volume.
    + split; [by right|]. right.
      destruct H as (pre & tail & Hnm & Ht).
      change (of_string ".7z.001" ++ [newline])
        with (lower (of_string ".7z.001") ++ [newline]) in Ht.
      apply lower_app_inv in Ht as (t1 & t2 & -> & Ht1 & Ht2).
      apply lower_cons_inv in Ht2 as (x & t3 & -> & ->%lower_char_newline & Ht3).
      destruct t3; [|done].
      exists (pre ++ t1). split; [by rewrite Hnm, <- app_assoc|].
      apply ends_with_ci_first_volume. by exists pre, t1.
Qed.
End SegmentFilter.

Section OrchestratorCompleteness.
Import Text Paths Classifier Described FS World MultiPart.
Local Open Scope monad_scope.
Variable E : environment.

(** X23. An uncapped run of [main] that comes back normally, with the scratch
    directory and the output root apart, leaves under the output root a
    folder named after the stem of every top-level core archive of the
    input folder, whether it processed the archive or skipped it. *)
Theorem main_leaves_a_folder_for_every_archive fuel a st st' :
  num_files a = 0 →
  ¬ tmp_dir a `prefix_of` output a → ¬ output a `prefix_of` tmp_dir a →
  main E fuel a st = Some (Val tt, st') →
  ∀ p, is_file (mkdir_p (fs st) (output a)) p = true → is_core_archive p = true →
       parent p = folder a → p ≠ [] →
       exists_ (fs st') (child (output a) (stem p)) = true.
Proof.
  intros Hcap H1 H2. rewrite main_run.
  intros [(n & st1 & Hloop & Hpr)|(e & _ & [=])]%bind_inv p Hf Hc Hp Hne.
  injection Hpr as <-. simpl.
  eapply main_loop_marks; try done.
  by apply elem_of_top_level_archives.
Qed.
End OrchestratorCompleteness.

Section OrchestratorCompletenessWitness.
Import Text Paths Classifier Described FS World MultiPart Demo.
Local Open Scope string_scope.
Local Open Scope Z_scope.

Lemma main_leaves_a_folder_for_every_archive_witness :
  num_files (demo_args 0) = 0 ∧
  (¬ tmp_dir (demo_args 0) `prefix_of` output (demo_args 0)) ∧
  (¬ output (demo_args 0) `prefix_of` tmp_dir (demo_args 0)) ∧
  main nested_env 3 (demo_args 0) (start batch_source)
    = Some (Val tt, batch_after_first_run) ∧
  ∀ p, is_file (mkdir_p batch_source ["out"]) p = true → is_core_archive p = true →
       parent p = ["src"] → p ≠ [] →
       exists_ (fs batch_after_first_run) (child ["out"] (stem p)) = true.
Proof.
  assert (H0 : num_files (demo_args 0) = 0) by reflexivity.
  assert (H1 : ¬ tmp_dir (demo_args 0) `prefix_of` output (demo_args 0))
    by (intros [k Hk]; discriminate).
  assert (H2 : ¬ output (demo_args 0) `prefix_of` tmp_dir (demo_args 0))
    by (intros [k Hk]; discriminate).
  assert (H3 : main nested_env 3 (demo_args 0) (start batch_source)
                 = Some (Val tt, batch_after_first_run))
    by (vm_compute; reflexivity).
  split; [exact H0|]. split; [exact H1|]. split; [exact H2|]. split; [exact H3|].
  exact (main_leaves_a_folder_for_every_archive nested_env 3 (demo_args 0)
           (start batch_source) batch_after_first_run H0 H1 H2 H3).
Defined.
End OrchestratorCompletenessWitness.
